(** * stdem: the integer-keyed enum map of [src/stdem.c]

    A shallow embedding of the hash table (bucket array with chaining,
    growth by doubling, lookup, clear, copy, merge and the binary codec)
    together with the properties its specification states, followed by
    name search, iteration and the inline helpers of [include/stdem.h] with
    further properties of the code.  Destruction and the error strings are
    left out.

    Conventions of the embedding.
    - [size_t] is the 64-bit unsigned type of an LP64 platform, [int] and
      [StemFlags] are 32 bits wide, integers are stored little-endian.
      Numbers are [Z] and every wrap-around of the C arithmetic is written
      out ([to_size_t], [to_uint32], [to_uint16], [to_int]).
    - An [EnumMap*] is the map it points to; the in-place updates of the C
      code return the updated map.  The bucket array and its length
      [num_buckets] are one list of chains, a chain ([next] links) is a list
      of entries with the head of the chain first.  The guards against a
      null map or a null bucket array are therefore not represented, nor is
      the unused [mutex] field; the lock hooks do nothing in the source.
    - A [const char*] is an optional string, of which the C functions see
      the characters before the first NUL ([c_str]).
    - Every call of [malloc], [calloc] and [strdup] asks an oracle whether
      it succeeds, in the order in which the C code performs them.
    - The two floating-point computations of the source are carried out in
      IEEE 754 binary arithmetic, rounding to nearest with ties to even
      ([Floats.SpecFloat]): the load test of [stdem_associate_ex] in single
      precision, the initial bucket count of [stdem_create_ex] in double
      precision, each operation rounded to the precision of its type. *)

From stdpp Require Import base list strings.
From Stdlib Require Import ZArith Lia Strings.Byte.
From Stdlib Require Strings.String Strings.Ascii.
From Stdlib Require Import Floats.SpecFloat.

Open Scope Z_scope.

(** ** Machine integers *)

Definition to_uint16 (x : Z) : Z := x `mod` 2 ^ 16.
Definition to_uint32 (x : Z) : Z := x `mod` 2 ^ 32.
Definition to_size_t (x : Z) : Z := x `mod` 2 ^ 64.

(** Reinterpretation of a 32-bit pattern as a signed [int]. *)
Definition to_int (x : Z) : Z :=
  let u := to_uint32 x in if u <? 2 ^ 31 then u else u - 2 ^ 32.

Definition INT_MIN : Z := - 2 ^ 31.
Definition INT_MAX : Z := 2 ^ 31 - 1.
Definition SIZE_MAX : Z := 2 ^ 64 - 1.

(** ** Public enumerations ([include/stdem.h]) *)

Inductive StemError : Set :=
  | STEM_SUCCESS
  | STEM_ERROR_INVALID_ARG
  | STEM_ERROR_OUT_OF_MEMORY
  | STEM_ERROR_INDEX_OUT_OF_BOUNDS
  | STEM_ERROR_NOT_FOUND
  | STEM_ERROR_ALREADY_EXISTS
  | STEM_ERROR_UNINITIALIZED.

#[global] Instance StemError_eq_dec : EqDecision StemError.
Proof. solve_decision. Defined.

Definition STEM_FLAGS_NONE : Z := 0.
Definition STEM_FLAGS_NO_NAMES : Z := Z.shiftl 1 0.
Definition STEM_FLAGS_READONLY : Z := Z.shiftl 1 1.
Definition STEM_FLAGS_COPY_VALUES : Z := Z.shiftl 1 2.

(** [flags & f] read as a C condition. *)
Definition has_flag (flags f : Z) : bool := negb (Z.land flags f =? 0).

(** ** Internal constants *)

Definition STEM_DEFAULT_BUCKETS : Z := 16.
Definition STEM_MAX_ENTRIES : Z := SIZE_MAX.

(** [STEM_LOAD_FACTOR] is the double constant 0.75, which single
    precision represents as well. *)
Definition f32_three_quarters : spec_float := S754_finite false 12582912 (-24).
Definition f64_three_quarters : spec_float :=
  S754_finite false 6755399441055744 (-53).

(** The conversion of a [size_t] to [float] and to [double]. *)
Definition f32_of_Z (n : Z) : spec_float := binary_normalize 24 128 n 0 false.
Definition f64_of_Z (n : Z) : spec_float := binary_normalize 53 1024 n 0 false.

(** [(float)count / num_buckets > STEM_LOAD_FACTOR]: the count is converted
    to [float], and so is the number of buckets by the usual arithmetic
    conversions; their quotient is a [float], and its comparison with the
    double 0.75 is exact.  With [d = 0] the quotient is infinite for
    [n > 0] and not a number for [n = 0]. *)
Definition load_factor_exceeded (n d : Z) : bool :=
  SFltb f32_three_quarters (SFdiv 24 128 (f32_of_Z n) (f32_of_Z d)).

(** [(size_t)x] for a double [x]: its integral part.  The conversion is
    undefined when that is not a value of [size_t]. *)
Definition size_t_of_f64 (x : spec_float) : option Z :=
  match x with
  | S754_zero _ => Some 0
  | S754_finite s m e =>
      let t := if 0 <=? e then Z.pos m * 2 ^ e else Z.pos m `div` 2 ^ (- e) in
      if s then (if t =? 0 then Some 0 else None)
      else if t <=? SIZE_MAX then Some t else None
  | _ => None
  end.

(** The number of buckets [stdem_create_ex] computes:
    [STEM_DEFAULT_BUCKETS], replaced by
    [(size_t)(enum_count / STEM_LOAD_FACTOR) + 1] if
    [enum_count > num_buckets * STEM_LOAD_FACTOR].  The product, the
    comparison and the quotient are computed in double precision, to which
    [enum_count] and [num_buckets] are converted; [None] when the
    conversion of the quotient is undefined. *)
Definition initial_num_buckets (enum_count : Z) : option Z :=
  if SFltb (SFmul 53 1024 (f64_of_Z STEM_DEFAULT_BUCKETS) f64_three_quarters)
           (f64_of_Z enum_count)
  then quotient ← size_t_of_f64 (SFdiv 53 1024 (f64_of_Z enum_count)
                                       f64_three_quarters);
       Some (to_size_t (quotient + 1))
  else Some STEM_DEFAULT_BUCKETS.

Arguments load_factor_exceeded : simpl never.
Arguments initial_num_buckets : simpl never.

(** ** Pointers and memory

    A [void*] held by the map is either a raw address ([Raw 0] is the null
    pointer), which the map stores and returns but never follows unless it
    is asked to copy from it, or a buffer the map obtained from [malloc],
    identified with its contents. *)

Inductive pointer : Type :=
  | Raw (addr : Z)
  | Heap (bytes : list byte).

Definition NULL : pointer := Raw 0.

Definition is_null (p : pointer) : bool :=
  match p with
  | Raw a => a =? 0
  | Heap _ => false
  end.

#[global] Instance byte_eq_dec : EqDecision byte := Byte.byte_eq_dec.

#[global] Instance pointer_eq_dec : EqDecision pointer.
Proof. solve_decision. Defined.

(** ** Entries and maps *)

Record EnumEntry : Type := mkEntry {
  enum_value : Z;
  name : option string;
  value : pointer
}.

#[global] Instance EnumEntry_eq_dec : EqDecision EnumEntry.
Proof. solve_decision. Defined.

Record EnumMap : Type := mkMap {
  count : Z;
  value_size : Z;
  flags : Z;
  buckets : list (list EnumEntry)
}.

#[global] Instance EnumMap_eq_dec : EqDecision EnumMap.
Proof. solve_decision. Defined.

Definition num_buckets (map : EnumMap) : Z := Z.of_nat (length (buckets map)).

(** Every entry, bucket by bucket and along each chain: the order in which
    the nested [for]/[while] loops of the source visit them. *)
Definition all_entries (map : EnumMap) : list EnumEntry := concat (buckets map).

(** ** The allocation oracle

    A computation reads the outcome of each allocation it performs from a
    list of booleans; once the list is exhausted every allocation succeeds. *)

Definition Alloc (A : Type) : Type := list bool → A * list bool.

#[global] Instance Alloc_ret : MRet Alloc := λ A a o, (a, o).
#[global] Instance Alloc_bind : MBind Alloc :=
  λ A B f c o, let '(a, o') := c o in f a o'.

Definition allocate : Alloc bool :=
  λ o, match o with
       | [] => (true, [])
       | b :: o' => (b, o')
       end.

(** What a function returning a fresh object reports: the object, an error
    code (the C function returns a null pointer), or nothing the model can
    tell: behaviour the C standard leaves undefined (a null pointer handed
    to [memcpy] or [fwrite], a double too large for [size_t]) or that
    depends on the address of a buffer. *)
Inductive result (A : Type) : Type :=
  | Ok (a : A)
  | Err (e : StemError)
  | Undefined.
Arguments Ok {A} a.
Arguments Err {A} e.
Arguments Undefined {A}.

(** ** Hashing *)

Definition stem_hash_int (value : Z) : Z :=
  to_uint32 (to_uint32 value * 2654435761).

(** [hash % num_buckets], as an index into the bucket list. *)
Definition bucket_idx (nb : Z) (enum_value : Z) : nat :=
  Z.to_nat (stem_hash_int enum_value `mod` nb).

Definition chain_at (bs : list (list EnumEntry)) (i : nat) : list EnumEntry :=
  default [] (bs !! i).

(** ** Internal map operations *)

Definition chain_find (key : Z) (chain : list EnumEntry) : option EnumEntry :=
  List.find (λ entry, enum_value entry =? key) chain.

Definition stem_find_entry (map : EnumMap) (key : Z) : option EnumEntry :=
  chain_find key (chain_at (buckets map) (bucket_idx (num_buckets map) key)).

(** [entry->next = bs[idx]; bs[idx] = entry]. *)
Definition link_entry (bs : list (list EnumEntry)) (entry : EnumEntry)
  : list (list EnumEntry) :=
  let idx := bucket_idx (Z.of_nat (length bs)) (enum_value entry) in
  <[idx := entry :: chain_at bs idx]> bs.

Definition rehash (new_size : Z) (bs : list (list EnumEntry))
  : list (list EnumEntry) :=
  foldl (λ new_buckets chain, foldl link_entry new_buckets chain)
        (replicate (Z.to_nat new_size) []) bs.

Definition stem_resize_map (map : EnumMap) (new_size : Z)
  : Alloc (StemError * EnumMap) :=
  if new_size =? 0 then mret (STEM_ERROR_INVALID_ARG, map)
  else
    new_buckets ← allocate;
    if negb new_buckets then mret (STEM_ERROR_OUT_OF_MEMORY, map)
    else mret (STEM_SUCCESS,
               {| count := count map; value_size := value_size map;
                  flags := flags map;
                  buckets := rehash new_size (buckets map) |}).

(** [strdup] copies the characters before the first NUL. *)
Fixpoint c_str (s : string) : string :=
  match s with
  | String.EmptyString => String.EmptyString
  | String.String a s' =>
      if Ascii.eqb a Ascii.zero then String.EmptyString
      else String.String a (c_str s')
  end.

Definition strlen (s : string) : Z := Z.of_nat (String.length (c_str s)).

Section with_caller_memory.

(** The bytes found at each address of the memory the caller manages. *)
Variable mem : Z → byte.

(** The [n] bytes a [memcpy] or [fwrite] reads through [p].  Reading a
    buffer of the map beyond its end is an overrun in C; the buffers a map
    holds have [value_size] bytes. *)
Definition read_bytes (p : pointer) (n : Z) : list byte :=
  match p with
  | Raw a => (λ i, mem (a + i)) <$> seqZ 0 n
  | Heap bytes => take (Z.to_nat n) bytes
  end.

Definition stem_create_entry (map : EnumMap) (enum_value : Z)
    (value : pointer) (name : option string) : Alloc (StemError + EnumEntry) :=
  entry ← allocate;
  if negb entry then mret (inl STEM_ERROR_OUT_OF_MEMORY)
  else
    (* Copy value if needed *)
    stored ← (if (0 <? value_size map) && negb (is_null value)
              then buffer ← allocate;
                   mret (if (buffer : bool)
                         then Some (Heap (read_bytes value (value_size map)))
                         else None)
              else mret (Some value));
    match stored with
    | None => mret (inl STEM_ERROR_OUT_OF_MEMORY)
    | Some stored_value =>
        (* Copy name if provided *)
        match name with
        | Some s =>
            if has_flag (flags map) STEM_FLAGS_NO_NAMES
            then mret (inr (mkEntry enum_value None stored_value))
            else duplicate ← allocate;
                 mret (if (duplicate : bool)
                       then inr (mkEntry enum_value (Some (c_str s)) stored_value)
                       else inl STEM_ERROR_OUT_OF_MEMORY)
        | None => mret (inr (mkEntry enum_value None stored_value))
        end
    end.

(** ** Public API *)

(** The initial bucket size is [initial_num_buckets]; converting a double
    that does not fit [size_t] is undefined. *)
Definition stdem_create_ex (enum_count value_size flags : Z)
  : Alloc (result EnumMap) :=
  if (enum_count =? 0) || (STEM_MAX_ENTRIES <? enum_count)
  then mret (Err STEM_ERROR_INVALID_ARG)
  else
    map ← allocate;
    if negb map then mret (Err STEM_ERROR_OUT_OF_MEMORY)
    else
      (* Calculate initial bucket size based on expected entries *)
      match initial_num_buckets enum_count with
      | None => mret (@Undefined EnumMap)
      | Some num_buckets =>
          array ← allocate;
          if negb array then mret (Err STEM_ERROR_OUT_OF_MEMORY)
          else mret (Ok {| count := 0; value_size := value_size;
                           flags := flags;
                           buckets := replicate (Z.to_nat num_buckets) [] |})
      end.

Definition stdem_associate_ex (map : EnumMap) (enum_value : Z)
    (value : pointer) (name : option string) : Alloc (StemError * EnumMap) :=
  if has_flag (flags map) STEM_FLAGS_READONLY
  then mret (STEM_ERROR_INVALID_ARG, map)
  else
    (* Check if entry already exists *)
    match stem_find_entry map enum_value with
    | Some existing => mret (STEM_ERROR_ALREADY_EXISTS, map)
    | None =>
        (* Check if we need to resize *)
        '(error, map) ←
          (if load_factor_exceeded (count map) (num_buckets map)
           then stem_resize_map map (to_size_t (num_buckets map * 2))
           else mret (STEM_SUCCESS, map));
        if decide (error ≠ STEM_SUCCESS) then mret (error, map)
        else
          (* Create new entry *)
          created ← stem_create_entry map enum_value value name;
          match created with
          | inl error => mret (error, map)
          | inr new_entry =>
              (* Add to bucket *)
              mret (STEM_SUCCESS,
                    {| count := to_size_t (count map + 1);
                       value_size := value_size map; flags := flags map;
                       buckets := link_entry (buckets map) new_entry |})
          end
    end.

Definition stdem_get_value_ex (map : EnumMap) (enum_value : Z)
  : pointer * StemError :=
  match stem_find_entry map enum_value with
  | None => (NULL, STEM_ERROR_NOT_FOUND)
  | Some entry => (value entry, STEM_SUCCESS)
  end.

Definition stdem_get_name_ex (map : EnumMap) (enum_value : Z)
  : option string * StemError :=
  if has_flag (flags map) STEM_FLAGS_NO_NAMES then (None, STEM_ERROR_NOT_FOUND)
  else
    match stem_find_entry map enum_value with
    | None => (None, STEM_ERROR_NOT_FOUND)
    | Some entry => (name entry, STEM_SUCCESS)
    end.

Definition stdem_count (map : EnumMap) : Z := count map.

Definition stdem_clear (map : EnumMap) : StemError * EnumMap :=
  if has_flag (flags map) STEM_FLAGS_READONLY
  then (STEM_ERROR_INVALID_ARG, map)
  else (STEM_SUCCESS,
        {| count := 0; value_size := value_size map; flags := flags map;
           buckets := (λ _, []) <$> buckets map |}).

(** The loop that replays entries through [stdem_associate_ex] and stops at
    the first error; [entries] is the bucket-by-bucket, chain-by-chain
    sequence [all_entries] of the source map. *)
Fixpoint associate_all (new_map : EnumMap) (entries : list EnumEntry)
  : Alloc (StemError * EnumMap) :=
  match entries with
  | [] => mret (STEM_SUCCESS, new_map)
  | entry :: rest =>
      '(err, new_map) ← stdem_associate_ex new_map (enum_value entry)
                                           (value entry) (name entry);
      if decide (err ≠ STEM_SUCCESS) then mret (err, new_map)
      else associate_all new_map rest
  end.

Definition stdem_copy (map : EnumMap) : Alloc (result EnumMap) :=
  created ← stdem_create_ex (count map) (value_size map) (flags map);
  match created with
  | Ok new_map =>
      (* Copy all entries *)
      '(err, new_map) ← associate_all new_map (all_entries map);
      if decide (err ≠ STEM_SUCCESS) then mret (Err err)
      else mret (Ok new_map)
  | failure => mret failure
  end.

(** The write [existing->field = ...] through the pointer that
    [stem_find_entry] returned: the first entry with that key in the chain
    of its bucket is replaced. *)
Fixpoint chain_replace (updated : EnumEntry) (chain : list EnumEntry)
  : list EnumEntry :=
  match chain with
  | [] => []
  | entry :: rest =>
      if enum_value entry =? enum_value updated then updated :: rest
      else entry :: chain_replace updated rest
  end.

Definition store_entry (map : EnumMap) (updated : EnumEntry) : EnumMap :=
  let idx := bucket_idx (num_buckets map) (enum_value updated) in
  {| count := count map; value_size := value_size map; flags := flags map;
     buckets := <[idx := chain_replace updated (chain_at (buckets map) idx)]>
                  (buckets map) |}.

(** [memcpy(dest, src, n)] into a buffer of the map.  A null source or
    destination is undefined; a destination in caller memory does not occur
    in a map that copies values and is not represented. *)
Definition memcpy (dest src : pointer) (n : Z) : option pointer :=
  match dest with
  | Heap old =>
      if is_null src then None
      else Some (Heap (read_bytes src n ++ drop (Z.to_nat n) old))
  | Raw _ => None
  end.

(** The body of [if (overwrite) { ... }] in [stdem_merge]. *)
Definition merge_overwrite (new_map : EnumMap) (existing entry : EnumEntry)
  : Alloc (result EnumMap) :=
  match (if 0 <? value_size new_map
         then memcpy (value existing) (value entry) (value_size new_map)
         else Some (value entry)) with
  | None => mret (@Undefined EnumMap)
  | Some updated_value =>
      (* Update name if needed *)
      match name entry with
      | Some s =>
          if has_flag (flags new_map) STEM_FLAGS_NO_NAMES
          then mret (Ok (store_entry new_map
                           (mkEntry (enum_value existing) None updated_value)))
          else duplicate ← allocate;
               mret (if (duplicate : bool)
                     then Ok (store_entry new_map
                                (mkEntry (enum_value existing) (Some (c_str s))
                                         updated_value))
                     else Err STEM_ERROR_OUT_OF_MEMORY)
      | None =>
          mret (Ok (store_entry new_map
                      (mkEntry (enum_value existing) None updated_value)))
      end
  end.

(** The loop "Copy from second map". *)
Fixpoint merge_second (overwrite : bool) (new_map : EnumMap)
    (entries : list EnumEntry) : Alloc (result EnumMap) :=
  match entries with
  | [] => mret (Ok new_map)
  | entry :: rest =>
      match stem_find_entry new_map (enum_value entry) with
      | Some existing =>
          if overwrite
          then updated ← merge_overwrite new_map existing entry;
               match updated with
               | Ok new_map => merge_second overwrite new_map rest
               | failure => mret failure
               end
          else merge_second overwrite new_map rest
      | None =>
          '(err, new_map) ← stdem_associate_ex new_map (enum_value entry)
                                               (value entry) (name entry);
          if decide (err ≠ STEM_SUCCESS) then mret (Err err)
          else merge_second overwrite new_map rest
      end
  end.

Definition stdem_merge (map1 map2 : EnumMap) (overwrite : bool)
  : Alloc (result EnumMap) :=
  if decide (value_size map1 ≠ value_size map2)
  then mret (Err STEM_ERROR_INVALID_ARG)
  else
    let flags := Z.lor (flags map1) (flags map2) in
    created ← stdem_create_ex (to_size_t (count map1 + count map2))
                              (value_size map1) flags;
    match created with
    | Ok new_map =>
        (* Copy from first map *)
        '(err, new_map) ← associate_all new_map (all_entries map1);
        if decide (err ≠ STEM_SUCCESS) then mret (Err err)
        else merge_second overwrite new_map (all_entries map2)
    | failure => mret failure
    end.

(** ** Binary streams *)

Definition byte_of_Z (x : Z) : byte :=
  default x00 (Byte.of_N (Z.to_N (x `mod` 256))).

Definition Z_of_byte (b : byte) : Z := Z.of_N (Byte.to_N b).

(** The [n]-byte little-endian object representation of [x]. *)
Fixpoint le_bytes (n : nat) (x : Z) : list byte :=
  match n with
  | O => []
  | S n' => byte_of_Z x :: le_bytes n' (x `div` 256)
  end.

Fixpoint le_value (bs : list byte) : Z :=
  match bs with
  | [] => 0
  | b :: bs' => Z_of_byte b + 256 * le_value bs'
  end.

#[global] Instance result_bind : MBind result :=
  λ A B f r, match r with
             | Ok a => f a
             | Err e => Err e
             | Undefined => Undefined
             end.

(** An output [FILE*]: what has been written, and how many more bytes the
    stream accepts.  Each failed [fwrite] of the source yields
    [STEM_ERROR_INVALID_ARG]. *)
Record ostream : Type := mkOstream { written : list byte; room : nat }.

Definition fwrite (data : list byte) (stream : ostream) : result ostream :=
  if decide (length data ≤ room stream)%nat
  then Ok {| written := written stream ++ data;
             room := room stream - length data |}
  else Err STEM_ERROR_INVALID_ARG.

(** An input [FILE*] is the list of bytes still to be read; a short read
    yields [STEM_ERROR_INVALID_ARG]. *)
Definition fread (n : Z) (stream : list byte) : result (list byte * list byte) :=
  if decide (Z.to_nat n ≤ length stream)%nat
  then Ok (take (Z.to_nat n) stream, drop (Z.to_nat n) stream)
  else Err STEM_ERROR_INVALID_ARG.

Definition ENUM_MAGIC : Z := 0x454E554D.
Definition FORMAT_VERSION : Z := 1.

Definition serialize_entry (map : EnumMap) (stream : ostream)
    (entry : EnumEntry) : result ostream :=
  stream ← fwrite (le_bytes 4 (enum_value entry)) stream;
  (* Write name length and name *)
  let name_len := match name entry with
                  | Some s => to_uint16 (strlen s)
                  | None => 0
                  end in
  stream ← fwrite (le_bytes 2 name_len) stream;
  stream ← (if 0 <? name_len
            then fwrite (take (Z.to_nat name_len)
                           (String.list_byte_of_string
                              (c_str (default String.EmptyString (name entry)))))
                        stream
            else Ok stream);
  (* Write value *)
  if 0 <? value_size map
  then if is_null (value entry) then Undefined
       else fwrite (read_bytes (value entry) (value_size map)) stream
  else match value entry with
       | Raw addr => fwrite (le_bytes 8 addr) stream
       | Heap _ => Undefined
       end.

Fixpoint serialize_entries (map : EnumMap) (stream : ostream)
    (entries : list EnumEntry) : result ostream :=
  match entries with
  | [] => Ok stream
  | entry :: rest =>
      stream ← serialize_entry map stream entry;
      serialize_entries map stream rest
  end.

(** In a map that stores raw pointers (value size 0) the source writes the
    bit pattern of [entry->value]; the address of a buffer obtained from
    [malloc] is not part of this model, so the outcome is left undefined
    should such a map hold one. *)
Definition stdem_serialize (map : EnumMap) (stream : ostream) : result ostream :=
  stream ← fwrite (le_bytes 4 ENUM_MAGIC) stream;
  stream ← fwrite (le_bytes 2 FORMAT_VERSION) stream;
  stream ← fwrite (le_bytes 8 (count map)) stream;
  stream ← fwrite (le_bytes 8 (value_size map)) stream;
  stream ← fwrite (le_bytes 4 (flags map)) stream;
  serialize_entries map stream (all_entries map).

Definition result_map {A B : Type} (f : A → B) (r : result A) : result B :=
  match r with
  | Ok a => Ok (f a)
  | Err e => Err e
  | Undefined => Undefined
  end.

(** The three blocks of one turn of the loop "Read entries": the optional
    name (into a temporary buffer that is NUL-terminated), the value (into
    a temporary buffer, or the raw pointer itself when the value size is 0)
    and the association. *)
Definition read_name (name_len : Z) (stream : list byte)
  : Alloc (result (option string * list byte)) :=
  if 0 <? name_len
  then buffer ← allocate;
       mret (if negb buffer then Err STEM_ERROR_OUT_OF_MEMORY
             else result_map
                    (λ '(bytes, rest),
                       (Some (String.string_of_list_byte bytes), rest))
                    (fread name_len stream))
  else mret (Ok (None, stream)).

Definition read_value (value_size : Z) (stream : list byte)
  : Alloc (result (pointer * list byte)) :=
  if 0 <? value_size
  then buffer ← allocate;
       mret (if negb buffer then Err STEM_ERROR_OUT_OF_MEMORY
             else result_map (λ '(bytes, rest), (Heap bytes, rest))
                             (fread value_size stream))
  else mret (result_map (λ '(bytes, rest), (Raw (le_value bytes), rest))
                        (fread 8 stream)).

Definition deserialize_entry (value_size : Z) (map : EnumMap)
    (stream : list byte) : Alloc (result (EnumMap * list byte)) :=
  match fread 4 stream with
  | Ok (key_bytes, stream) =>
      let enum_value := to_int (le_value key_bytes) in
      match fread 2 stream with
      | Ok (len_bytes, stream) =>
          named ← read_name (le_value len_bytes) stream;
          match named with
          | Ok (name, stream) =>
              valued ← read_value value_size stream;
              match valued with
              | Ok (value, stream) =>
                  '(err, map) ← stdem_associate_ex map enum_value value name;
                  if decide (err ≠ STEM_SUCCESS) then mret (Err err)
                  else mret (Ok (map, stream))
              | Err e => mret (Err e)
              | Undefined => mret Undefined
              end
          | Err e => mret (Err e)
          | Undefined => mret Undefined
          end
      | Err e => mret (Err e)
      | Undefined => mret Undefined
      end
  | Err e => mret (Err e)
  | Undefined => mret Undefined
  end.

Fixpoint deserialize_entries (remaining : nat) (value_size : Z)
    (map : EnumMap) (stream : list byte) : Alloc (result EnumMap) :=
  match remaining with
  | O => mret (Ok map)
  | S remaining' =>
      step ← deserialize_entry value_size map stream;
      match step with
      | Ok (map, stream) => deserialize_entries remaining' value_size map stream
      | Err e => mret (Err e)
      | Undefined => mret Undefined
      end
  end.

Definition stdem_deserialize (stream : list byte) : Alloc (result EnumMap) :=
  (* Read and validate header *)
  let header :=
    '(magic, stream) ← fread 4 stream;
    if decide (le_value magic ≠ ENUM_MAGIC) then Err STEM_ERROR_INVALID_ARG
    else
      '(version, stream) ← fread 2 stream;
      if decide (le_value version ≠ FORMAT_VERSION)
      then Err STEM_ERROR_INVALID_ARG
      else
        '(count, stream) ← fread 8 stream;
        '(value_size, stream) ← fread 8 stream;
        '(flags, stream) ← fread 4 stream;
        Ok (le_value count, le_value value_size, le_value flags, stream) in
  match header with
  | Ok (count, value_size, flags, stream) =>
      (* Create new map *)
      created ← stdem_create_ex count value_size flags;
      match created with
      | Ok map => deserialize_entries (Z.to_nat count) value_size map stream
      | failure => mret failure
      end
  | Err e => mret (Err e)
  | Undefined => mret Undefined
  end.

End with_caller_memory.

(** * Specification-side definitions *)

(** ** The representation invariant *)

(** Every entry sits in the bucket its key hashes to. *)
Definition placed (bs : list (list EnumEntry)) : Prop :=
  ∀ i chain entry,
    bs !! i = Some chain → entry ∈ chain →
    bucket_idx (Z.of_nat (length bs)) (enum_value entry) = i.

(** What [stem_create_entry] stores for the arguments [value] and [name]. *)
Definition stored_value (mem : Z → byte) (vs : Z) (value : pointer) : pointer :=
  if (0 <? vs) && negb (is_null value) then Heap (read_bytes mem value vs)
  else value.

Definition stored_name (fl : Z) (name : option string) : option string :=
  match name with
  | Some s => if has_flag fl STEM_FLAGS_NO_NAMES then None else Some (c_str s)
  | None => None
  end.

(** The precondition of passing [value] to a function that copies [vs]
    bytes from it: a buffer must be long enough. *)
Definition readable (vs : Z) (value : pointer) : Prop :=
  match value with
  | Raw _ => True
  | Heap bytes => vs ≤ Z.of_nat (length bytes)
  end.

(** An entry as [stem_create_entry] builds it in a map with value size [vs]
    and flags [fl]: the key is an [int], the name is a C string and absent
    under [STEM_FLAGS_NO_NAMES], and a map that copies values holds a
    buffer of [vs] bytes or the null pointer it was given. *)
Record entry_ok (vs fl : Z) (entry : EnumEntry) : Prop := mkEntryOk {
  key_is_int : INT_MIN ≤ enum_value entry ≤ INT_MAX;
  name_is_stored : stored_name fl (name entry) = name entry;
  value_is_stored :
    0 < vs →
    value entry = NULL ∨
    ∃ bytes, value entry = Heap bytes ∧ Z.of_nat (length bytes) = vs
}.

Record map_ok (map : EnumMap) : Prop := mkMapOk {
  ok_buckets : (0 < length (buckets map))%nat;
  ok_placed : placed (buckets map);
  ok_unique : NoDup (enum_value <$> all_entries map);
  ok_count : count map = to_size_t (Z.of_nat (length (all_entries map)));
  ok_writable :
    all_entries map ≠ [] → has_flag (flags map) STEM_FLAGS_READONLY = false;
  ok_value_size : 0 ≤ value_size map ≤ SIZE_MAX;
  ok_flags : 0 ≤ flags map < 2 ^ 32;
  ok_entries : Forall (entry_ok (value_size map) (flags map)) (all_entries map)
}.

(** ** Reachable maps

    The maps a client can obtain through the public functions, called with
    arguments of their C types (the caller memory may differ from call to
    call). *)
Inductive reachable : EnumMap → Prop :=
  | reach_create n vs fl o map o' :
      0 ≤ n ≤ SIZE_MAX → 0 ≤ vs ≤ SIZE_MAX → 0 ≤ fl < 2 ^ 32 →
      stdem_create_ex n vs fl o = (Ok map, o') →
      reachable map
  | reach_associate mem map key value name o err map' o' :
      reachable map →
      INT_MIN ≤ key ≤ INT_MAX → readable (value_size map) value →
      stdem_associate_ex mem map key value name o = (err, map', o') →
      reachable map'
  | reach_clear map err map' :
      reachable map → stdem_clear map = (err, map') → reachable map'
  | reach_copy mem map o map' o' :
      reachable map → stdem_copy mem map o = (Ok map', o') →
      reachable map'
  | reach_merge mem map1 map2 overwrite o map' o' :
      reachable map1 → reachable map2 →
      stdem_merge mem map1 map2 overwrite o = (Ok map', o') →
      reachable map'
  | reach_deserialize mem stream o map o' :
      stdem_deserialize mem stream o = (Ok map, o') →
      reachable map.

(** The bucket array [stdem_associate_ex] links the new entry into: the
    array of the map, rehashed into twice as many buckets when the load
    factor is exceeded. *)
Definition grown (map : EnumMap) : list (list EnumEntry) :=
  if load_factor_exceeded (count map) (num_buckets map)
  then rehash (to_size_t (num_buckets map * 2)) (buckets map)
  else buckets map.

Definition with_buckets (map : EnumMap) (bs : list (list EnumEntry)) : EnumMap :=
  {| count := count map; value_size := value_size map; flags := flags map;
     buckets := bs |}.

(** The map after a successful association of [entry]. *)
Definition linked (map : EnumMap) (entry : EnumEntry) : EnumMap :=
  {| count := to_size_t (count map + 1); value_size := value_size map;
     flags := flags map; buckets := link_entry (grown map) entry |}.

(** The entry [stem_create_entry] builds in [map]. *)
Definition new_entry (mem : Z → byte) (map : EnumMap) (key : Z)
    (value : pointer) (name : option string) : EnumEntry :=
  mkEntry key (stored_name (flags map) name)
          (stored_value mem (value_size map) value).

(** The number of buckets [stdem_create_ex] allocates for [enum_count]
    expected entries (0 where the computation is undefined). *)
Definition initial_buckets (enum_count : Z) : Z :=
  default 0 (initial_num_buckets enum_count).

(** ** Rounding

    What the rounding steps of [Floats.SpecFloat] compute, on integers. *)

(** Round to nearest, ties to even, of the quotient [X / D]. *)
Definition rne (X D : Z) : Z :=
  let q := X `div` D in
  let r := X `mod` D in
  if 2 * r <? D then q
  else if 2 * r =? D then (if Z.even q then q else q + 1)
  else q + 1.

(** The record [mrs] holds the integral part of [X / D], whether the
    fractional part reaches one half, and whether it is neither 0 nor one
    half. *)
Definition represents (X D : Z) (mrs : shr_record) : Prop :=
  0 < D ∧ 0 ≤ X ∧ shr_m mrs = X `div` D ∧
  shr_r mrs = (D <=? 2 * (X `mod` D)) ∧
  shr_s mrs = negb ((X `mod` D =? 0) || (2 * (X `mod` D) =? D)).

(** The arguments [stdem_copy] and [stdem_merge] pass to
    [stdem_associate_ex] for [entry]. *)
Definition replayed (mem : Z → byte) (vs fl : Z) (entry : EnumEntry) : EnumEntry :=
  mkEntry (enum_value entry) (stored_name fl (name entry))
          (stored_value mem vs (value entry)).

(** The bucket in which [stem_find_entry] looks for the key of [entry]. *)
Definition slot_of (map : EnumMap) (entry : EnumEntry) : nat :=
  bucket_idx (num_buckets map) (enum_value entry).

(** The entry that the overwriting branch of [stdem_merge] leaves in place
    of [existing] when it takes value and name from [entry]. *)
Definition overwritten (fl : Z) (existing entry : EnumEntry) : EnumEntry :=
  mkEntry (enum_value existing) (stored_name fl (name entry)) (value entry).

(** ** The binary format, entry by entry *)

(** What [stdem_deserialize] finds for an entry whose name was written with
    length 0: no name.  An empty name is read back as an absent one. *)
Definition reread_name (name : option string) : option string :=
  match name with
  | Some s => if decide (s = String.EmptyString) then None else Some s
  | None => None
  end.

Definition reread (entry : EnumEntry) : EnumEntry :=
  mkEntry (enum_value entry) (reread_name (name entry)) (value entry).

Definition name_length (entry : EnumEntry) : Z :=
  match name entry with
  | Some s => to_uint16 (strlen s)
  | None => 0
  end.

(** The bytes [stdem_serialize] writes for an entry of a map that copies
    values. *)
Definition encode_entry (entry : EnumEntry) : list byte :=
  le_bytes 4 (enum_value entry) ++ le_bytes 2 (name_length entry) ++
  (if 0 <? name_length entry
   then take (Z.to_nat (name_length entry))
             (String.list_byte_of_string
                (c_str (default String.EmptyString (name entry))))
   else []) ++
  match value entry with
  | Heap bytes => bytes
  | Raw _ => []
  end.

Definition encode_header (map : EnumMap) : list byte :=
  le_bytes 4 ENUM_MAGIC ++ le_bytes 2 FORMAT_VERSION ++
  le_bytes 8 (count map) ++ le_bytes 8 (value_size map) ++
  le_bytes 4 (flags map).

(** What one turn of the reading loop extracts from the stream, allocation
    aside: the name, the value, and the whole entry with the remaining
    stream. *)
Definition parse_name (name_len : Z) (stream : list byte)
  : result (option string * list byte) :=
  if 0 <? name_len
  then result_map
         (λ '(bytes, rest), (Some (String.string_of_list_byte bytes), rest))
         (fread name_len stream)
  else Ok (None, stream).

Definition parse_value (vs : Z) (stream : list byte)
  : result (pointer * list byte) :=
  if 0 <? vs
  then result_map (λ '(bytes, rest), (Heap bytes, rest)) (fread vs stream)
  else result_map (λ '(bytes, rest), (Raw (le_value bytes), rest))
                  (fread 8 stream).

Definition parse_entry (vs : Z) (stream : list byte)
  : result (Z * option string * pointer * list byte) :=
  '(key_bytes, stream) ← fread 4 stream;
  '(len_bytes, stream) ← fread 2 stream;
  '(name, stream) ← parse_name (le_value len_bytes) stream;
  '(value, stream) ← parse_value vs stream;
  Ok (to_int (le_value key_bytes), name, value, stream).

(** An entry whose name the 16-bit length field can hold. *)
Definition name_fits (entry : EnumEntry) : Prop :=
  match name entry with
  | Some s => strlen s < 2 ^ 16
  | None => True
  end.

(** The entries the codec round-trips: built by [stem_create_entry] for
    value size [vs] and flags [fl], with a name that fits the length field
    and a value buffer. *)
Definition encodable (vs fl : Z) (entry : EnumEntry) : Prop :=
  entry_ok vs fl entry ∧ name_fits entry ∧ ∃ bytes, value entry = Heap bytes.

(** [ceil(enum_count / 0.75)], the bucket count the specification names. *)
Definition ceil_over_load_factor (enum_count : Z) : Z :=
  (4 * enum_count + 2) `div` 3.

(** [map] with [flag] added to its flags. *)
Definition with_flag (flag : Z) (map : EnumMap) : EnumMap :=
  {| count := count map; value_size := value_size map;
     flags := Z.lor (flags map) flag; buckets := buckets map |}.

(** ** Example maps *)

(** Caller memory in which the byte at address [a] is [a mod 256]. *)
Definition sample_memory : Z → byte := byte_of_Z.

(** [map] after associating, for each [(key, addr, name)] of the list, the
    key with the pointer [addr] and the name, every allocation succeeding. *)
Definition with_entries (map : EnumMap) (l : list (Z * Z * option string))
  : EnumMap :=
  foldl (λ m '(key, addr, name),
           (stdem_associate_ex sample_memory m key (Raw addr) name []).1.2)
        map l.

(** A fresh map of 16 buckets storing raw pointers, as
    [stdem_create_ex 1 0 STEM_FLAGS_NONE] returns it, and the same map
    after 12 and 13 associations. *)
Definition sample_empty : EnumMap :=
  {| count := 0; value_size := 0; flags := STEM_FLAGS_NONE;
     buckets := replicate 16 [] |}.

Definition sample_twelve : EnumMap :=
  with_entries sample_empty ((λ key, (key, 100, None)) <$> seqZ 0 12).

Definition sample_thirteen : EnumMap :=
  with_entries sample_empty ((λ key, (key, 100, None)) <$> seqZ 0 13).

(** Maps that copy values of 4 bytes, as [stdem_create_ex 5 4
    STEM_FLAGS_NONE] returns them: the five states of the specification's
    scenario, a second map sharing key 3 with it, and a map with an entry
    whose name is the empty string. *)
Definition sample_copying : EnumMap :=
  {| count := 0; value_size := 4; flags := STEM_FLAGS_NONE;
     buckets := replicate 16 [] |}.

Definition sample_states : EnumMap :=
  with_entries sample_copying
    [(1, 100, Some "STATE_IDLE"); (2, 200, Some "STATE_ACTIVE");
     (3, 44, Some "STATE_ERROR"); (4, 144, Some "STATE_DONE");
     (5, 244, Some "STATE_INIT")]%string.

Definition sample_others : EnumMap :=
  with_entries sample_copying
    [(3, 60, Some "OTHER_ERROR"); (6, 80, None)]%string.

Definition sample_unnamed : EnumMap :=
  with_entries sample_copying
    [(1, 100, Some "STATE_IDLE"); (2, 200, Some "")]%string.

(** A map created with [STEM_FLAGS_NO_NAMES], after one association that
    supplies a name. *)
Definition sample_nameless : EnumMap :=
  with_entries {| count := 0; value_size := 0; flags := STEM_FLAGS_NO_NAMES;
                  buckets := replicate 16 [] |}
               [(3, 100, Some "THREE")]%string.

(** * Further functions of the library *)

(** ** Name search and iteration ([src/stdem.c]) *)

(** [entry->name && strcmp(entry->name, wanted) == 0]. *)
Definition name_matches (wanted : string) (entry : EnumEntry) : bool :=
  match name entry with
  | Some s => String.eqb (c_str s) (c_str wanted)
  | None => false
  end.

(** The nested loops return at the first match, buckets in ascending order
    and each chain from its head; the result is the key, 0 on error. *)
Definition stdem_find_by_name (map : EnumMap) (wanted : option string)
  : Z * StemError :=
  match wanted with
  | None => (0, STEM_ERROR_INVALID_ARG)
  | Some wanted =>
      if has_flag (flags map) STEM_FLAGS_NO_NAMES
      then (0, STEM_ERROR_NOT_FOUND)
      else match List.find (name_matches wanted) (all_entries map) with
           | Some entry => (enum_value entry, STEM_SUCCESS)
           | None => (0, STEM_ERROR_NOT_FOUND)
           end
  end.

(** An [EnumMapIterator] receives the key, the name, the value, the value
    size and [user_data]; what it does to the state it reaches through
    [user_data] is a function on that state.  A null iterator is [None]. *)
Definition EnumMapIterator (U : Type) : Type :=
  Z → option string → pointer → Z → U → U.

Definition stdem_foreach {U : Type} (map : EnumMap)
    (iterator : option (EnumMapIterator U)) (user_data : U) : StemError * U :=
  match iterator with
  | None => (STEM_ERROR_INVALID_ARG, user_data)
  | Some iterator =>
      (STEM_SUCCESS,
       foldl (λ state entry,
                iterator (enum_value entry) (name entry) (value entry)
                         (value_size map) state)
             user_data (all_entries map))
  end.

Definition stdem_value_size (map : EnumMap) : Z := value_size map.

(** ** Inline helpers ([include/stdem.h]) *)

(** [stdem_get_value_ex(map, enum_value, NULL) != NULL]. *)
Definition stdem_exists (map : EnumMap) (enum_value : Z) : bool :=
  negb (is_null (stdem_get_value_ex map enum_value).1).

Definition stdem_get_value_or (map : EnumMap) (enum_value : Z)
    (default_value : pointer) : pointer :=
  let value := (stdem_get_value_ex map enum_value).1 in
  if is_null value then default_value else value.

(** ** The C++ wrapper ([stem::EnumMap] in [include/stdem.h]) *)

Module stem.

(** [keys()] and [names()] collect through [for_each], which forwards to
    [stdem_foreach]; [push_back] appends, and a [std::string] made from a
    [const char*] holds the characters before the first NUL. *)
Definition keys (map : EnumMap) : list Z :=
  (stdem_foreach map (Some (λ ev _ _ _ result, result ++ [ev])) []).2.

Definition names (map : EnumMap) : list string :=
  (stdem_foreach map
     (Some (λ _ en _ _ result,
              match en with
              | Some en => result ++ [c_str en]
              | None => result
              end)) []).2.

End stem.

(** ** Specification-side definitions for the further properties *)

(** The visits of [stdem_foreach], recorded in order by an iterator that
    appends its arguments to a list. *)
Definition visits (map : EnumMap) : list (Z * option string * pointer * Z) :=
  (stdem_foreach map
     (Some (λ ev en v vs seen, seen ++ [(ev, en, v, vs)])) []).2.

(** A fresh read-only map, as [stdem_create_ex 4 0 STEM_FLAGS_READONLY]
    returns it. *)
Definition sample_readonly : EnumMap :=
  {| count := 0; value_size := 0; flags := STEM_FLAGS_READONLY;
     buckets := replicate 16 [] |}.

(** * Proofs *)

(** ** The oracle monad *)

Ltac alloc_unfold :=
  unfold mbind, mret, Alloc_bind, Alloc_ret, allocate in *.

Lemma allocate_spec o ok o' :
  allocate o = (ok, o') → o = ok :: o' ∨ (o = [] ∧ ok = true ∧ o' = []).
Proof. destruct o; inversion 1; subst; auto. Qed.

(** ** Machine integers and hashing *)

Lemma to_size_t_range x : 0 ≤ to_size_t x ≤ SIZE_MAX.
Proof. unfold to_size_t, SIZE_MAX. pose proof (Z.mod_pos_bound x (2 ^ 64)). lia. Qed.

Lemma to_size_t_small x : 0 ≤ x ≤ SIZE_MAX → to_size_t x = x.
Proof. unfold to_size_t, SIZE_MAX. intros. apply Z.mod_small. lia. Qed.

Lemma to_size_t_succ x : to_size_t (to_size_t x + 1) = to_size_t (x + 1).
Proof. unfold to_size_t. by rewrite Zplus_mod_idemp_l. Qed.

(** ** Floating-point arithmetic

    The rounding of [Floats.SpecFloat], characterised on integers. *)

Ltac bool_lia :=
  repeat match goal with
    | |- context [?a <=? ?b] => destruct (Z.leb_spec a b)
    | |- context [?a <? ?b] => destruct (Z.ltb_spec a b)
    | |- context [?a =? ?b] => destruct (Z.eqb_spec a b)
    | H : context [?a <=? ?b] |- _ => destruct (Z.leb_spec a b)
    | H : context [?a <? ?b] |- _ => destruct (Z.ltb_spec a b)
    | H : context [?a =? ?b] |- _ => destruct (Z.eqb_spec a b)
    end; simpl in *; try done; try lia.

Lemma div_mod_eq X D q r :
  0 ≤ r < D → X = D * q + r → X `div` D = q ∧ X `mod` D = r.
Proof.
  intros Hr ->. split.
  - symmetry. by apply (Z.div_unique_pos _ _ q r).
  - symmetry. by apply (Z.mod_unique_pos _ _ q r).
Qed.

Lemma shr_1_represents X D mrs :
  represents X D mrs → represents X (2 * D) (shr_1 mrs).
Proof.
  destruct mrs as [m r s]. intros (HD & HX & Hm & Hr & Hs). simpl in *.
  pose proof (Z.div_mod X D ltac:(lia)) as Hdm.
  pose proof (Z.mod_pos_bound X D HD) as Hb.
  pose proof (Z.div_pos X D HX HD) as Hq.
  set (q := X `div` D) in *. set (r0 := X `mod` D) in *.
  subst m r s. unfold represents.
  destruct q as [|[p|p|]|p] eqn:Eq; simpl; try lia.
  - destruct (div_mod_eq X (2 * D) 0 r0) as [-> ->]; [lia|lia|].
    split_and!; [lia|lia|done|bool_lia|bool_lia].
  - destruct (div_mod_eq X (2 * D) (Z.pos p) (D + r0)) as [-> ->]; [lia|lia|].
    split_and!; [lia|lia|done|bool_lia|bool_lia].
  - destruct (div_mod_eq X (2 * D) (Z.pos p) r0) as [-> ->]; [lia|lia|].
    split_and!; [lia|lia|done|bool_lia|bool_lia].
  - destruct (div_mod_eq X (2 * D) 0 (D + r0)) as [-> ->]; [lia|lia|].
    split_and!; [lia|lia|done|bool_lia|bool_lia].
Qed.

Lemma iter_shr_1_represents p :
  ∀ X D mrs,
    represents X D mrs →
    represents X (2 ^ Z.pos p * D) (iter_pos shr_1 p mrs).
Proof.
  induction p as [p IH|p IH|]; intros X D mrs H; simpl iter_pos.
  - apply shr_1_represents in H. apply IH, IH in H.
    replace (2 ^ Z.pos p~1 * D) with (2 ^ Z.pos p * (2 ^ Z.pos p * (2 * D))); [done|].
    replace (Z.pos p~1) with (Z.pos p + Z.pos p + 1) by lia.
    rewrite !Z.pow_add_r by lia. ring.
  - apply IH, IH in H.
    replace (2 ^ Z.pos p~0 * D) with (2 ^ Z.pos p * (2 ^ Z.pos p * D)); [done|].
    replace (Z.pos p~0) with (Z.pos p + Z.pos p) by lia.
    rewrite !Z.pow_add_r by lia. ring.
  - apply shr_1_represents in H. by rewrite Z.pow_1_r.
Qed.

Lemma shr_represents X D mrs e n :
  represents X D mrs →
  ∃ mrs', shr mrs e n = (mrs', e + Z.max 0 n) ∧
          represents X (2 ^ Z.max 0 n * D) mrs'.
Proof.
  intros H. destruct n as [|p|p]; simpl shr.
  - exists mrs. rewrite Z.add_0_r. split; [done|].
    change (2 ^ Z.max 0 0) with 1. by rewrite Z.mul_1_l.
  - exists (iter_pos shr_1 p mrs). rewrite Z.max_r by lia. split; [done|].
    by apply iter_shr_1_represents.
  - exists mrs. rewrite Z.max_l by lia. rewrite Z.add_0_r. split; [done|].
    change (2 ^ 0) with 1. by rewrite Z.mul_1_l.
Qed.

Lemma round_represents X D mrs :
  represents X D mrs →
  round_nearest_even (shr_m mrs) (loc_of_shr_record mrs) = rne X D.
Proof.
  destruct mrs as [m r s]. intros (HD & HX & Hm & Hr & Hs). simpl in *.
  pose proof (Z.mod_pos_bound X D HD) as Hb.
  unfold rne. subst m.
  destruct r, s; simpl; bool_lia.
Qed.

Lemma exact_represents m : 0 ≤ m → represents m 1 (shr_record_of_loc m loc_Exact).
Proof.
  intros Hm. unfold represents. simpl.
  rewrite Z.div_1_r, Z.mod_1_r. split_and!; [lia|done..].
Qed.

Lemma new_location_represents X D :
  0 ≤ X → 0 < D →
  represents X D (shr_record_of_loc (X `div` D) (new_location D (X `mod` D))).
Proof.
  intros HX HD. pose proof (Z.mod_pos_bound X D HD) as Hb.
  unfold represents, new_location, new_location_even, new_location_odd.
  set (r := X `mod` D) in *. clearbody r.
  assert (∀ l, shr_m (shr_record_of_loc (X `div` D) l) = X `div` D) as Hm.
  { by intros [|[]]. }
  split_and!; [done..|apply Hm| |].
  - destruct (Z.even D) eqn:Hev.
    + destruct (Z.eqb_spec r 0); simpl; [bool_lia|].
      destruct (Z.compare_spec (2 * r) D); simpl; bool_lia.
    + destruct (Z.eqb_spec r 0); simpl; [bool_lia|].
      destruct (Z.compare_spec (2 * r + 1) D); simpl; bool_lia.
  - destruct (Z.even D) eqn:Hev.
    + destruct (Z.eqb_spec r 0) as [E|E]; simpl; [bool_lia|].
      destruct (Z.compare_spec (2 * r) D); simpl; bool_lia.
    + assert (2 * r ≠ D) as Hodd.
      { intros <-. by rewrite Z.even_mul in Hev. }
      destruct (Z.eqb_spec r 0) as [E|E]; simpl; [bool_lia|].
      destruct (Z.compare_spec (2 * r + 1) D); simpl; bool_lia.
Qed.

(** ** Digits *)

Lemma digits2_pos_spec p :
  2 ^ (Z.pos (digits2_pos p) - 1) ≤ Z.pos p < 2 ^ Z.pos (digits2_pos p).
Proof.
  induction p as [p IH|p IH|]; simpl digits2_pos.
  - rewrite Pos2Z.inj_succ. replace (Z.succ (Z.pos (digits2_pos p)) - 1)
      with (Z.succ (Z.pos (digits2_pos p) - 1)) by lia.
    rewrite !Z.pow_succ_r by lia. lia.
  - rewrite Pos2Z.inj_succ. replace (Z.succ (Z.pos (digits2_pos p)) - 1)
      with (Z.succ (Z.pos (digits2_pos p) - 1)) by lia.
    rewrite !Z.pow_succ_r by lia. lia.
  - simpl. lia.
Qed.

Lemma Zdigits2_spec m :
  0 < m → 0 < Zdigits2 m ∧ 2 ^ (Zdigits2 m - 1) ≤ m < 2 ^ Zdigits2 m.
Proof.
  destruct m as [|p|p]; [lia| |lia]. intros _. simpl.
  split; [lia|apply digits2_pos_spec].
Qed.

Lemma Zdigits2_unique m k :
  0 < k → 2 ^ (k - 1) ≤ m < 2 ^ k → Zdigits2 m = k.
Proof.
  intros Hk Hm.
  assert (0 < m) as Hpos.
  { pose proof (Z.pow_pos_nonneg 2 (k - 1) ltac:(lia) ltac:(lia)). lia. }
  destruct (Zdigits2_spec m Hpos) as [Hd Hr].
  destruct (Z.lt_trichotomy (Zdigits2 m) k) as [Hlt|[?|Hgt]]; [|done|].
  - pose proof (Z.pow_le_mono_r 2 (Zdigits2 m) (k - 1) ltac:(lia) ltac:(lia)). lia.
  - pose proof (Z.pow_le_mono_r 2 k (Zdigits2 m - 1) ltac:(lia) ltac:(lia)). lia.
Qed.

(** ** Rounding *)

Lemma rne_bounds X D :
  0 ≤ X → 0 < D → X `div` D ≤ rne X D ≤ X `div` D + 1.
Proof.
  intros HX HD. unfold rne.
  destruct (_ <? _); [lia|]. destruct (_ =? _); [|lia]. destruct (Z.even _); lia.
Qed.

Lemma rne_between X D A B :
  0 < D → 0 ≤ X → A * D ≤ X < B * D → A ≤ rne X D ≤ B.
Proof.
  intros HD HX [Hl Hu]. pose proof (rne_bounds X D HX HD) as Hr.
  assert (A ≤ X `div` D) by (apply Z.div_le_lower_bound; lia).
  assert (X `div` D < B) by (apply Z.div_lt_upper_bound; lia).
  lia.
Qed.

Lemma rne_exact m D : 0 < D → rne (m * D) D = m.
Proof.
  intros HD. unfold rne. rewrite Z.div_mul, Z.mod_mul by lia.
  by destruct (Z.ltb_spec (2 * 0) D); [|lia].
Qed.

Lemma rne_scale c X D : 0 < c → 0 < D → rne (c * X) (c * D) = rne X D.
Proof.
  intros Hc HD. unfold rne.
  rewrite Z.div_mul_cancel_l, Zmult_mod_distr_l by lia.
  pose proof (Z.mod_pos_bound X D HD).
  replace (2 * (c * (X `mod` D))) with (c * (2 * (X `mod` D))) by lia.
  destruct (Z.ltb_spec (2 * (X `mod` D)) D), (Z.ltb_spec (c * (2 * (X `mod` D))) (c * D));
    try done; try nia.
  destruct (Z.eqb_spec (2 * (X `mod` D)) D), (Z.eqb_spec (c * (2 * (X `mod` D))) (c * D));
    try done; try nia.
Qed.

(** [N < rne X D] for an even [N]: the quotient lies above [N + 1/2]. *)
Lemma rne_gt_even X D N :
  0 ≤ X → 0 < D → Z.even N = true →
  (N <? rne X D) = ((2 * N + 1) * D <? 2 * X).
Proof.
  intros HX HD Hev. unfold rne.
  pose proof (Z.div_mod X D ltac:(lia)) as Hdm.
  pose proof (Z.mod_pos_bound X D HD) as Hb.
  set (q := X `div` D) in *. set (r := X `mod` D) in *.
  destruct (Z.ltb_spec (2 * r) D).
  { destruct (Z.ltb_spec N q), (Z.ltb_spec ((2 * N + 1) * D) (2 * X)); try done; nia. }
  destruct (Z.eqb_spec (2 * r) D).
  { destruct (Z.even q) eqn:Eq.
    - destruct (Z.ltb_spec N q), (Z.ltb_spec ((2 * N + 1) * D) (2 * X)); try done; try nia.
    - assert (q ≠ N) by (intros ->; congruence).
      destruct (Z.ltb_spec N (q + 1)), (Z.ltb_spec ((2 * N + 1) * D) (2 * X)); try done; nia. }
  destruct (Z.ltb_spec N (q + 1)), (Z.ltb_spec ((2 * N + 1) * D) (2 * X)); try done; nia.
Qed.

Lemma iter_xO p d : Z.pos (Pos.iter xO p d) = Z.pos p * 2 ^ Z.pos d.
Proof.
  induction d as [|d IH] using Pos.peano_ind.
  - simpl. lia.
  - rewrite Pos.iter_succ, Pos2Z.inj_xO, IH, Pos2Z.inj_succ, Z.pow_succ_r by lia. lia.
Qed.

Lemma finite_ltb ma ea mb eb :
  SFltb (S754_finite false ma ea) (S754_finite false mb eb)
  = (ea <? eb) || ((ea =? eb) && (Z.pos ma <? Z.pos mb)).
Proof.
  unfold SFltb, SFcompare.
  destruct (Z.compare_spec ea eb) as [->|?|?].
  - rewrite Z.ltb_irrefl, Z.eqb_refl. simpl.
    change (Pos.compare_cont Eq ma mb) with (Pos.compare ma mb).
    rewrite Pos2Z.inj_compare.
    destruct (Z.compare_spec (Z.pos ma) (Z.pos mb)); bool_lia.
  - bool_lia.
  - bool_lia.
Qed.

Section format.

Variables prec emax : Z.
Hypothesis Hprec : 1 < prec.
Hypothesis Hemax : prec < emax.

Lemma binary_round_aux_spec sx mx ex lx X D :
  represents X D (shr_record_of_loc mx lx) →
  binary_round_aux prec emax sx mx ex lx
  = let n1 := Z.max 0 (fexp prec emax (Zdigits2 mx + ex) - ex) in
    let m2 := rne X (2 ^ n1 * D) in
    let e2 := ex + n1 in
    let n2 := Z.max 0 (fexp prec emax (Zdigits2 m2 + e2) - e2) in
    match m2 `div` 2 ^ n2 with
    | 0 => S754_zero sx
    | Z.pos m =>
        if e2 + n2 <=? emax - prec then S754_finite sx m (e2 + n2)
        else S754_infinity sx
    | Z.neg _ => S754_nan
    end.
Proof.
  intros H. unfold binary_round_aux, shr_fexp. cbv zeta.
  destruct (shr_represents X D _ ex
              (fexp prec emax (Zdigits2 mx + ex) - ex) H) as (mrs1 & -> & H1).
  rewrite (round_represents _ _ _ H1).
  set (n1 := Z.max 0 (fexp prec emax (Zdigits2 mx + ex) - ex)) in *.
  set (m2 := rne X (2 ^ n1 * D)).
  assert (0 ≤ m2) as Hm2.
  { destruct H1 as (HD & HX & _). pose proof (rne_bounds X _ HX HD).
    pose proof (Z.div_pos X _ HX HD). unfold m2. lia. }
  destruct (shr_represents m2 1 _ (ex + n1)
              (fexp prec emax (Zdigits2 m2 + (ex + n1)) - (ex + n1))
              (exact_represents m2 Hm2)) as (mrs2 & -> & H2).
  destruct H2 as (_ & _ & -> & _). by rewrite Z.mul_1_r.
Qed.

(** Rounding a quotient whose integer part, after the shift, has [prec]
    digits. *)
Lemma round_normal sx mx ex lx X D n1 :
  represents X D (shr_record_of_loc mx lx) →
  Z.max 0 (fexp prec emax (Zdigits2 mx + ex) - ex) = n1 →
  2 ^ (prec - 1) ≤ rne X (2 ^ n1 * D) ≤ 2 ^ prec →
  emin prec emax ≤ ex + n1 → ex + n1 + 1 ≤ emax - prec →
  binary_round_aux prec emax sx mx ex lx
  = if rne X (2 ^ n1 * D) =? 2 ^ prec
    then S754_finite sx (Z.to_pos (2 ^ (prec - 1))) (ex + n1 + 1)
    else S754_finite sx (Z.to_pos (rne X (2 ^ n1 * D))) (ex + n1).
Proof.
  intros H Hn1 HM Hlo Hhi. rewrite (binary_round_aux_spec _ _ _ _ X D H).
  cbv zeta. rewrite Hn1. set (M := rne X (2 ^ n1 * D)) in *.
  assert (0 < 2 ^ (prec - 1)) as Hpos by (apply Z.pow_pos_nonneg; lia).
  assert (2 ^ prec = 2 * 2 ^ (prec - 1)) as Hdouble.
  { rewrite <- Z.pow_succ_r by lia. f_equal. lia. }
  destruct (Z.eqb_spec M (2 ^ prec)) as [HMeq|HMne].
  - assert (Zdigits2 M = prec + 1) as ->.
    { apply Zdigits2_unique; [lia|]. replace (prec + 1 - 1) with prec by lia.
      rewrite Z.pow_add_r by lia. lia. }
    replace (Z.max 0 (fexp prec emax (prec + 1 + (ex + n1)) - (ex + n1))) with 1
      by (unfold fexp; lia).
    rewrite HMeq, Hdouble, Z.pow_1_r, Z.mul_comm, Z.div_mul by lia.
    destruct (2 ^ (prec - 1)) as [|p|p] eqn:E; [lia| |lia].
    destruct (Z.leb_spec (ex + n1 + 1) (emax - prec)); [|lia].
    done.
  - assert (Zdigits2 M = prec) as ->.
    { apply Zdigits2_unique; lia. }
    replace (Z.max 0 (fexp prec emax (prec + (ex + n1)) - (ex + n1))) with 0
      by (unfold fexp; lia).
    rewrite Z.pow_0_r, Z.div_1_r, Z.add_0_r.
    destruct M as [|p|p] eqn:E; [lia| |lia].
    destruct (Z.leb_spec (ex + n1) (emax - prec)); [|lia]. done.
Qed.

(** The conversion of a positive integer. *)
Lemma of_Z_spec n :
  0 < n → Zdigits2 n < emax →
  binary_normalize prec emax n 0 false
  = (if Zdigits2 n <=? prec
     then S754_finite false (Z.to_pos (n * 2 ^ (prec - Zdigits2 n)))
                      (Zdigits2 n - prec)
     else if rne n (2 ^ (Zdigits2 n - prec)) =? 2 ^ prec
     then S754_finite false (Z.to_pos (2 ^ (prec - 1))) (Zdigits2 n - prec + 1)
     else S754_finite false (Z.to_pos (rne n (2 ^ (Zdigits2 n - prec))))
                      (Zdigits2 n - prec)) ∧
  (prec < Zdigits2 n →
   2 ^ (prec - 1) ≤ rne n (2 ^ (Zdigits2 n - prec)) ≤ 2 ^ prec).
Proof.
  intros Hn Hk. destruct (Zdigits2_spec n Hn) as [Hk0 Hr].
  set (k := Zdigits2 n) in *.
  assert (0 < 2 ^ (prec - 1)) as Hpos by (apply Z.pow_pos_nonneg; lia).
  assert (2 ^ prec = 2 * 2 ^ (prec - 1)) as Hdouble.
  { rewrite <- Z.pow_succ_r by lia. f_equal. lia. }
  assert (prec < k → 2 ^ (prec - 1) ≤ rne n (2 ^ (k - prec)) ≤ 2 ^ prec) as HM.
  { intros Hlt.
    assert (0 < 2 ^ (k - prec)) by (apply Z.pow_pos_nonneg; lia).
    apply rne_between; [done|lia|].
    rewrite <- !Z.pow_add_r by lia.
    replace (prec - 1 + (k - prec)) with (k - 1) by lia.
    replace (prec + (k - prec)) with k by lia. done. }
  split; [|done].
  destruct n as [|p|p]; [lia| |lia]. unfold binary_normalize, binary_round.
  change (Z.pos (digits2_pos p)) with k. rewrite Z.add_0_r.
  assert (fexp prec emax k = k - prec) as -> by (unfold fexp, emin; lia).
  unfold shl_align. destruct (Z.leb_spec k prec) as [Hle|Hgt].
  - assert (∃ mz, (match k - prec - 0 with
                   | Z.neg d => (Pos.iter xO p d, k - prec)
                   | _ => (p, 0)
                   end) = (mz, k - prec) ∧
                  Z.pos mz = Z.pos p * 2 ^ (prec - k)) as (mz & -> & Hmz).
    { destruct (k - prec - 0) as [|d|d] eqn:E; [|lia|].
      - exists p. assert (k - prec = 0) as -> by lia. split; [done|].
        replace (prec - k) with 0 by lia. simpl. lia.
      - exists (Pos.iter xO p d). split; [done|].
        rewrite iter_xO. f_equal. f_equal. lia. }
    assert (2 ^ (prec - 1) ≤ Z.pos mz < 2 ^ prec) as Hrange.
    { rewrite Hmz.
      assert (0 < 2 ^ (prec - k)) by (apply Z.pow_pos_nonneg; lia).
      assert (2 ^ (prec - 1) = 2 ^ (k - 1) * 2 ^ (prec - k)) as ->.
      { rewrite <- Z.pow_add_r by lia. f_equal. lia. }
      assert (2 ^ prec = 2 ^ k * 2 ^ (prec - k)) as ->.
      { rewrite <- Z.pow_add_r by lia. f_equal. lia. }
      split; [apply Z.mul_le_mono_nonneg_r; lia|apply Z.mul_lt_mono_pos_r; lia]. }
    rewrite (round_normal false (Z.pos mz) (k - prec) loc_Exact (Z.pos mz) 1 0).
    + rewrite Z.pow_0_r, Z.mul_1_l, Z.add_0_r.
      replace (rne (Z.pos mz) 1) with (Z.pos mz)
        by (rewrite <- (Z.mul_1_r (Z.pos mz)) at 2; by rewrite rne_exact).
      destruct (Z.eqb_spec (Z.pos mz) (2 ^ prec)); [lia|].
      by rewrite <- Hmz.
    + by apply exact_represents.
    + rewrite (Zdigits2_unique (Z.pos mz) prec) by (done || lia).
      unfold fexp, emin. lia.
    + rewrite Z.pow_0_r, Z.mul_1_l.
      replace (rne (Z.pos mz) 1) with (Z.pos mz)
        by (rewrite <- (Z.mul_1_r (Z.pos mz)) at 2; by rewrite rne_exact).
      lia.
    + unfold emin. lia.
    + lia.
  - assert ((match k - prec - 0 with
             | Z.neg d => (Pos.iter xO p d, k - prec)
             | _ => (p, 0)
             end) = (p, 0)) as ->.
    { destruct (k - prec - 0) eqn:E; [done|done|lia]. }
    specialize (HM Hgt).
    rewrite (round_normal false (Z.pos p) 0 loc_Exact (Z.pos p) 1 (k - prec)).
    + rewrite Z.mul_1_r, !Z.add_0_l. done.
    + by apply exact_represents.
    + change (Zdigits2 (Z.pos p)) with k. unfold fexp, emin. lia.
    + by rewrite Z.mul_1_r.
    + unfold emin. lia.
    + lia.
Qed.

(** The quotient of two positive numbers with full mantissas. *)
Lemma div_spec m1 e1 m2 e2 :
  2 ^ (prec - 1) ≤ Z.pos m1 < 2 ^ prec →
  2 ^ (prec - 1) ≤ Z.pos m2 < 2 ^ prec →
  emin prec emax ≤ e1 - e2 - prec → e1 - e2 + 2 ≤ emax →
  let n1 := if Z.pos m2 <=? Z.pos m1 then 1 else 0 in
  let M := rne (Z.pos m1 * 2 ^ prec) (2 ^ n1 * Z.pos m2) in
  SFdiv prec emax (S754_finite false m1 e1) (S754_finite false m2 e2)
  = (if M =? 2 ^ prec
     then S754_finite false (Z.to_pos (2 ^ (prec - 1))) (e1 - e2 - prec + n1 + 1)
     else S754_finite false (Z.to_pos M) (e1 - e2 - prec + n1)) ∧
  2 ^ (prec - 1) ≤ M ≤ 2 ^ prec.
Proof.
  intros H1 H2 Hlo Hhi n1 M.
  assert (0 < 2 ^ (prec - 1)) as Hpos by (apply Z.pow_pos_nonneg; lia).
  assert (2 ^ prec = 2 * 2 ^ (prec - 1)) as Hdouble.
  { rewrite <- Z.pow_succ_r by lia. f_equal. lia. }
  set (P := 2 ^ prec) in *. set (H := 2 ^ (prec - 1)) in *.
  assert (2 ^ n1 = if Z.pos m2 <=? Z.pos m1 then 2 else 1) as Hn1.
  { unfold n1. by destruct (_ <=? _). }
  assert (H ≤ M ≤ P) as HM.
  { unfold M. rewrite Hn1. apply rne_between.
    - destruct (_ <=? _); lia.
    - lia.
    - destruct (Z.leb_spec (Z.pos m2) (Z.pos m1)); nia. }
  split; [|done].
  unfold SFdiv, SFdiv_core_binary. cbv zeta.
  rewrite (Zdigits2_unique (Z.pos m1) prec), (Zdigits2_unique (Z.pos m2) prec)
    by (done || lia).
  replace (Z.min (fexp prec emax (prec + e1 - (prec + e2))) (e1 - e2))
    with (e1 - e2 - prec) by (unfold fexp; lia).
  replace (e1 - e2 - (e1 - e2 - prec)) with prec by lia.
  assert ((match prec with
           | 0 => Z.pos m1
           | Z.pos _ => Z.shiftl (Z.pos m1) prec
           | Z.neg _ => 0
           end) = Z.pos m1 * P) as ->.
  { destruct prec eqn:E; [lia| |lia]. by rewrite Z.shiftl_mul_pow2. }
  pose proof (Z.div_eucl_eq (Z.pos m1 * P) (Z.pos m2) ltac:(lia)) as Heq.
  assert (Z.div_eucl (Z.pos m1 * P) (Z.pos m2)
          = ((Z.pos m1 * P) `div` Z.pos m2, (Z.pos m1 * P) `mod` Z.pos m2)) as ->.
  { unfold Z.div, Z.modulo. by destruct (Z.div_eucl _ _). }
  simpl xorb.
  assert (Zdigits2 ((Z.pos m1 * P) `div` Z.pos m2) = prec + n1) as Hdig.
  { apply Zdigits2_unique; [unfold n1; destruct (_ <=? _); lia|].
    unfold n1. destruct (Z.leb_spec (Z.pos m2) (Z.pos m1)).
    - replace (prec + 1 - 1) with prec by lia. rewrite Z.pow_add_r by lia.
      fold P. split.
      + apply Z.div_le_lower_bound; [lia|nia].
      + apply Z.div_lt_upper_bound; [lia|]. change (2 ^ 1) with 2. nia.
    - rewrite Z.add_0_r. fold P H. split.
      + apply Z.div_le_lower_bound; [lia|nia].
      + apply Z.div_lt_upper_bound; [lia|nia]. }
  rewrite (round_normal false _ (e1 - e2 - prec) _ (Z.pos m1 * P) (Z.pos m2) n1).
  - fold M P H. done.
  - apply new_location_represents; lia.
  - rewrite Hdig. unfold fexp. unfold n1. destruct (_ <=? _); lia.
  - fold M. done.
  - unfold n1. destruct (_ <=? _); lia.
  - unfold n1. destruct (_ <=? _); lia.
Qed.

End format.

Lemma rne_3 X : 0 ≤ X → rne X 3 = (X + 1) `div` 3.
Proof.
  intros HX. unfold rne.
  pose proof (Z.div_mod X 3 ltac:(lia)) as Hdm.
  pose proof (Z.mod_pos_bound X 3 ltac:(lia)) as Hb.
  set (q := X `div` 3) in *. set (r := X `mod` 3) in *. clearbody q r.
  assert ((X + 1) `div` 3 = if r =? 2 then q + 1 else q) as ->.
  { destruct (Z.eqb_spec r 2).
    - symmetry. apply (Z.div_unique_pos _ _ _ 0); lia.
    - symmetry. apply (Z.div_unique_pos _ _ _ (r + 1)); lia. }
  bool_lia.
Qed.

(** ** Single precision: the load-factor test *)

(** The conversion of a positive integer below 2^64 to a format with
    [prec] digits: a full mantissa, and an exponent fixed by the number of
    digits of the integer. *)
Lemma of_Z_structure prec emax n :
  1 < prec → prec < emax → 0 < n → Zdigits2 n < emax →
  ∃ m e,
    binary_normalize prec emax n 0 false = S754_finite false m e ∧
    2 ^ (prec - 1) ≤ Z.pos m < 2 ^ prec ∧
    (e = Zdigits2 n - prec ∨
     (e = Zdigits2 n - prec + 1 ∧ Z.pos m = 2 ^ (prec - 1))) ∧
    (Zdigits2 n ≤ prec → Z.pos m = n * 2 ^ (prec - Zdigits2 n) ∧
                          e = Zdigits2 n - prec).
Proof.
  intros Hprec Hemax Hn Hk.
  destruct (of_Z_spec prec emax Hprec Hemax n Hn Hk) as [-> HM].
  destruct (Zdigits2_spec n Hn) as [Hk0 Hr]. set (k := Zdigits2 n) in *.
  assert (0 < 2 ^ (prec - 1)) as Hpos by (apply Z.pow_pos_nonneg; lia).
  assert (2 ^ prec = 2 * 2 ^ (prec - 1)) as Hdouble.
  { rewrite <- Z.pow_succ_r by lia. f_equal. lia. }
  destruct (Z.leb_spec k prec) as [Hle|Hgt].
  - assert (2 ^ (prec - 1) ≤ n * 2 ^ (prec - k) < 2 ^ prec) as Hrange.
    { assert (0 < 2 ^ (prec - k)) by (apply Z.pow_pos_nonneg; lia).
      assert (2 ^ (prec - 1) = 2 ^ (k - 1) * 2 ^ (prec - k)) as ->.
      { rewrite <- Z.pow_add_r by lia. f_equal. lia. }
      assert (2 ^ prec = 2 ^ k * 2 ^ (prec - k)) as ->.
      { rewrite <- Z.pow_add_r by lia. f_equal. lia. }
      split; [apply Z.mul_le_mono_nonneg_r; lia|apply Z.mul_lt_mono_pos_r; lia]. }
    eexists _, _. split; [done|]. rewrite Z2Pos.id by lia.
    split_and!; [lia|lia|by left|done].
  - specialize (HM Hgt).
    destruct (Z.eqb_spec (rne n (2 ^ (k - prec))) (2 ^ prec)).
    + eexists _, _. split; [done|]. rewrite Z2Pos.id by lia.
      split_and!; [lia|lia|by right|lia].
    + eexists _, _. split; [done|]. rewrite Z2Pos.id by lia.
      split_and!; [lia|lia|by left|lia].
Qed.

Lemma digits_below n t : 0 < n < 2 ^ t → Zdigits2 n ≤ t.
Proof.
  intros [Hn Ht]. destruct (Zdigits2_spec n Hn) as [Hk Hr].
  destruct (Z.le_gt_cases (Zdigits2 n) t) as [|Hgt]; [done|].
  assert (0 ≤ t).
  { destruct (Z.le_gt_cases 0 t); [done|]. rewrite Z.pow_neg_r in Ht; lia. }
  pose proof (Z.pow_le_mono_r 2 t (Zdigits2 n - 1) ltac:(lia) ltac:(lia)). lia.
Qed.

Lemma digits_above n t : 0 ≤ t → 2 ^ t ≤ n → t + 1 ≤ Zdigits2 n.
Proof.
  intros Ht Hn.
  assert (0 < n) as Hpos.
  { pose proof (Z.pow_pos_nonneg 2 t ltac:(lia) Ht). lia. }
  destruct (Zdigits2_spec n Hpos) as [Hk Hr].
  destruct (Z.le_gt_cases (t + 1) (Zdigits2 n)) as [|Hlt]; [done|].
  pose proof (Z.pow_le_mono_r 2 (Zdigits2 n) t ltac:(lia) ltac:(lia)). lia.
Qed.

Lemma scale_ltb a b B : 0 < B → (a * B <? b * B) = (a <? b).
Proof.
  intros HB. destruct (Z.ltb_spec a b), (Z.ltb_spec (a * B) (b * B)); try done; nia.
Qed.

(** The test on two positive single-precision numbers: the quotient is
    rounded to a number above 0.75 exactly when it lies above the midpoint
    [0.75 + 2^-25] between 0.75 and its successor. *)
Lemma f32_test_spec m1 e1 m2 e2 :
  2 ^ 23 ≤ Z.pos m1 < 2 ^ 24 → 2 ^ 23 ≤ Z.pos m2 < 2 ^ 24 →
  -23 ≤ e1 ≤ 41 → -23 ≤ e2 ≤ 41 →
  SFltb f32_three_quarters
        (SFdiv 24 128 (S754_finite false m1 e1) (S754_finite false m2 e2))
  = (25165825 * (Z.pos m2 * 2 ^ (e2 + 23)) <? 2 ^ 25 * (Z.pos m1 * 2 ^ (e1 + 23))).
Proof.
  intros H1 H2 He1 He2.
  destruct (div_spec 24 128 ltac:(lia) ltac:(lia) m1 e1 m2 e2 H1 H2
              ltac:(unfold emin; lia) ltac:(lia)) as [-> HM].
  set (n1 := if Z.pos m2 <=? Z.pos m1 then 1 else 0) in *.
  set (M := rne (Z.pos m1 * 2 ^ 24) (2 ^ n1 * Z.pos m2)) in *.
  set (E := e1 - e2 - 24 + n1).
  assert (0 < 2 ^ n1) as Hn1pos by (unfold n1; by destruct (_ <=? _)).
  assert (SFltb f32_three_quarters
            (if M =? 2 ^ 24
             then S754_finite false (Z.to_pos (2 ^ (24 - 1))) (E + 1)
             else S754_finite false (Z.to_pos M) E)
          = (-24 <? E) || ((E =? -24)
               && (25165825 * (2 ^ n1 * Z.pos m2) <? 2 ^ 25 * Z.pos m1))) as ->.
  { pose proof (rne_gt_even (Z.pos m1 * 2 ^ 24) (2 ^ n1 * Z.pos m2) 12582912
                  ltac:(lia) ltac:(lia) eq_refl) as Hgt.
    fold M in Hgt.
    replace ((2 * 12582912 + 1) * (2 ^ n1 * Z.pos m2) <? 2 * (Z.pos m1 * 2 ^ 24))
      with (25165825 * (2 ^ n1 * Z.pos m2) <? 2 ^ 25 * Z.pos m1) in Hgt
      by (f_equal; lia).
    rewrite <- Hgt. unfold f32_three_quarters.
    destruct (Z.eqb_spec M (2 ^ 24)) as [HMeq|HMne].
    - rewrite finite_ltb, HMeq. change (Z.pos (Z.to_pos (2 ^ (24 - 1)))) with 8388608.
      bool_lia.
    - rewrite finite_ltb, Z2Pos.id by lia. bool_lia. }
  subst E.
  assert (0 < 2 ^ (e1 + 23) ∧ 0 < 2 ^ (e2 + 23)) as [Hp1 Hp2].
  { split; apply Z.pow_pos_nonneg; lia. }
  change (2 ^ 25) with 33554432. change (2 ^ 23) with 8388608 in H1, H2.
  change (2 ^ 24) with 16777216 in H1, H2.
  destruct (Z.lt_trichotomy e1 e2) as [Hlt|[->|Hgt]].
  - (* the dividend has the smaller exponent *)
    assert (2 ^ (e2 + 23) = 2 ^ (e2 - e1) * 2 ^ (e1 + 23)) as ->.
    { rewrite <- Z.pow_add_r by lia. f_equal. lia. }
    replace (25165825 * (Z.pos m2 * (2 ^ (e2 - e1) * 2 ^ (e1 + 23))))
      with (25165825 * (2 ^ (e2 - e1) * Z.pos m2) * 2 ^ (e1 + 23)) by ring.
    replace (33554432 * (Z.pos m1 * 2 ^ (e1 + 23)))
      with (33554432 * Z.pos m1 * 2 ^ (e1 + 23)) by ring.
    rewrite scale_ltb by done.
    destruct (Z.eq_dec (e2 - e1) 1) as [Hone|Hmore].
    + rewrite Hone. change (2 ^ 1) with 2.
      replace (e1 - e2) with (-1) by lia. unfold n1.
      destruct (Z.leb_spec (Z.pos m2) (Z.pos m1)); simpl; [done|].
      symmetry. apply Z.ltb_ge. lia.
    + assert (4 ≤ 2 ^ (e2 - e1)).
      { change 4 with (2 ^ 2). apply Z.pow_le_mono_r; lia. }
      assert ((-24 <? e1 - e2 - 24 + n1) = false) as ->.
      { unfold n1. destruct (_ <=? _); apply Z.ltb_ge; lia. }
      assert ((e1 - e2 - 24 + n1 =? -24) = false) as ->.
      { unfold n1. destruct (_ <=? _); apply Z.eqb_neq; lia. }
      simpl. symmetry. apply Z.ltb_ge.
      assert (4 * Z.pos m2 ≤ 2 ^ (e2 - e1) * Z.pos m2)
        by (apply Z.mul_le_mono_nonneg_r; lia).
      lia.
  - (* equal exponents *)
    replace (e2 - e2 - 24 + n1) with (n1 - 24) by lia.
    replace (25165825 * (Z.pos m2 * 2 ^ (e2 + 23)))
      with (25165825 * Z.pos m2 * 2 ^ (e2 + 23)) by ring.
    replace (33554432 * (Z.pos m1 * 2 ^ (e2 + 23)))
      with (33554432 * Z.pos m1 * 2 ^ (e2 + 23)) by ring.
    rewrite scale_ltb by done. unfold n1.
    destruct (Z.leb_spec (Z.pos m2) (Z.pos m1)); simpl.
    + symmetry. apply Z.ltb_lt. lia.
    + first [done|f_equal; lia].
  - (* the dividend has the larger exponent *)
    assert (2 ^ (e1 + 23) = 2 ^ (e1 - e2) * 2 ^ (e2 + 23)) as ->.
    { rewrite <- Z.pow_add_r by lia. f_equal. lia. }
    assert (2 ≤ 2 ^ (e1 - e2)).
    { change 2 with (2 ^ 1) at 1. apply Z.pow_le_mono_r; lia. }
    replace (25165825 * (Z.pos m2 * 2 ^ (e2 + 23)))
      with (25165825 * Z.pos m2 * 2 ^ (e2 + 23)) by ring.
    replace (33554432 * (Z.pos m1 * (2 ^ (e1 - e2) * 2 ^ (e2 + 23))))
      with (33554432 * (2 ^ (e1 - e2) * Z.pos m1) * 2 ^ (e2 + 23)) by ring.
    rewrite scale_ltb by done.
    assert ((-24 <? e1 - e2 - 24 + n1) = true) as ->.
    { unfold n1. destruct (_ <=? _); apply Z.ltb_lt; lia. }
    simpl. symmetry. apply Z.ltb_lt.
    assert (2 * Z.pos m1 ≤ 2 ^ (e1 - e2) * Z.pos m1)
      by (apply Z.mul_le_mono_nonneg_r; lia).
    lia.
Qed.

Lemma f32_of_Z_structure n :
  0 < n < 2 ^ 64 →
  ∃ m e,
    f32_of_Z n = S754_finite false m e ∧
    2 ^ 23 ≤ Z.pos m < 2 ^ 24 ∧ -23 ≤ e ≤ 41 ∧
    2 ^ (Zdigits2 n + 22) ≤ Z.pos m * 2 ^ (e + 23) ≤ 2 ^ (Zdigits2 n + 23) ∧
    (n < 2 ^ 24 → Z.pos m * 2 ^ (e + 23) = n * 2 ^ 23).
Proof.
  intros Hn. pose proof (digits_below n 64 Hn) as Hk.
  destruct (Zdigits2_spec n ltac:(lia)) as [Hk0 Hr].
  destruct (of_Z_structure 24 128 n ltac:(lia) ltac:(lia) ltac:(lia) ltac:(lia))
    as (m & e & Heq & Hm & He & Hexact).
  exists m, e. set (k := Zdigits2 n) in *.
  change (2 ^ (24 - 1)) with (2 ^ 23) in *.
  split; [done|]. split; [lia|].
  assert (-23 ≤ e ≤ 41) as Hrange by lia.
  split; [done|]. split.
  - destruct He as [->|[-> ->]].
    + replace (k - 24 + 23) with (k - 1) by lia.
      replace (k + 22) with (23 + (k - 1)) by lia.
      replace (k + 23) with (24 + (k - 1)) by lia.
      rewrite !Z.pow_add_r by lia.
      assert (0 < 2 ^ (k - 1)) by (apply Z.pow_pos_nonneg; lia). nia.
    + replace (k - 24 + 1 + 23) with k by lia.
      replace (k + 22) with (22 + k) by lia.
      replace (k + 23) with (23 + k) by lia.
      rewrite !Z.pow_add_r by lia.
      assert (0 < 2 ^ k) by (apply Z.pow_pos_nonneg; lia). nia.
  - intros Hsmall. pose proof (digits_below n 24 ltac:(lia)) as Hk24.
    destruct (Hexact Hk24) as [-> ->].
    replace (k - 24 + 23) with (k - 1) by lia.
    rewrite <- Z.mul_assoc, <- Z.pow_add_r by lia. do 2 f_equal. lia.
Qed.

Lemma load_factor_zero d : 0 < d < 2 ^ 64 → load_factor_exceeded 0 d = false.
Proof.
  intros Hd. destruct (f32_of_Z_structure d Hd) as (m & e & Heq & _).
  unfold load_factor_exceeded. by rewrite Heq.
Qed.

(** In tables of fewer than 2^23 buckets holding fewer than 2^24 entries
    the single-precision test decides [n / d > 0.75] exactly. *)
Lemma load_factor_exact n d :
  0 ≤ n < 2 ^ 24 → 0 < d < 2 ^ 23 →
  load_factor_exceeded n d = (3 * d <? 4 * n).
Proof.
  intros Hn Hd. destruct (Z.eq_dec n 0) as [->|Hn0].
  { rewrite load_factor_zero by lia. symmetry. apply Z.ltb_ge. lia. }
  destruct (f32_of_Z_structure n ltac:(lia)) as (m1 & e1 & Heq1 & Hm1 & He1 & _ & Hv1).
  destruct (f32_of_Z_structure d ltac:(lia)) as (m2 & e2 & Heq2 & Hm2 & He2 & _ & Hv2).
  unfold load_factor_exceeded. rewrite Heq1, Heq2, f32_test_spec by done.
  rewrite Hv1, Hv2 by lia.
  destruct (Z.ltb_spec (25165825 * (d * 2 ^ 23)) (2 ^ 25 * (n * 2 ^ 23))),
           (Z.ltb_spec (3 * d) (4 * n)); try done; lia.
Qed.

(** A table of 2^63 buckets or more is never found over its load factor
    by fewer than 2^62 entries. *)
Lemma load_factor_large n d :
  0 ≤ n < 2 ^ 62 → 2 ^ 63 ≤ d < 2 ^ 64 → load_factor_exceeded n d = false.
Proof.
  intros Hn Hd. destruct (Z.eq_dec n 0) as [->|Hn0].
  { apply load_factor_zero. lia. }
  destruct (f32_of_Z_structure n ltac:(lia)) as (m1 & e1 & Heq1 & Hm1 & He1 & Hv1 & _).
  destruct (f32_of_Z_structure d ltac:(lia)) as (m2 & e2 & Heq2 & Hm2 & He2 & Hv2 & _).
  unfold load_factor_exceeded. rewrite Heq1, Heq2, f32_test_spec by done.
  pose proof (digits_below n 62 ltac:(lia)) as Hk1.
  pose proof (digits_above d 63 ltac:(lia) ltac:(lia)) as Hk2.
  pose proof (Z.pow_le_mono_r 2 (Zdigits2 n + 23) 85 ltac:(lia) ltac:(lia)).
  pose proof (Z.pow_le_mono_r 2 86 (Zdigits2 d + 22) ltac:(lia) ltac:(lia)).
  apply Z.ltb_ge. lia.
Qed.

(** ** Double precision: the initial number of buckets *)

Lemma f64_of_Z_structure n :
  0 < n < 2 ^ 64 →
  ∃ m e,
    f64_of_Z n = S754_finite false m e ∧
    2 ^ 52 ≤ Z.pos m < 2 ^ 53 ∧
    (e = Zdigits2 n - 53 ∨ (e = Zdigits2 n - 52 ∧ Z.pos m = 2 ^ 52)) ∧
    (Zdigits2 n ≤ 53 → Z.pos m = n * 2 ^ (53 - Zdigits2 n) ∧
                        e = Zdigits2 n - 53).
Proof.
  intros Hn. pose proof (digits_below n 64 Hn) as Hk.
  destruct (of_Z_structure 53 1024 n ltac:(lia) ltac:(lia) ltac:(lia) ltac:(lia))
    as (m & e & Heq & Hm & He & Hexact).
  exists m, e. change (2 ^ (53 - 1)) with (2 ^ 52) in *.
  split; [done|]. split; [done|]. split; [|done].
  destruct He as [?|[? ?]]; [by left|right; split; [lia|done]].
Qed.

(** [enum_count > 16 * 0.75] is decided as on the integers. *)
Lemma f64_above_twelve n :
  0 < n < 2 ^ 64 →
  SFltb (SFmul 53 1024 (f64_of_Z STEM_DEFAULT_BUCKETS) f64_three_quarters)
        (f64_of_Z n)
  = (12 <? n).
Proof.
  intros Hn.
  assert (SFmul 53 1024 (f64_of_Z STEM_DEFAULT_BUCKETS) f64_three_quarters
          = S754_finite false 6755399441055744 (-49)) as ->
    by (vm_compute; reflexivity).
  destruct (Z.le_gt_cases 16 n) as [Hbig|Hsmall].
  - destruct (f64_of_Z_structure n Hn) as (m & e & -> & Hm & He & _).
    pose proof (digits_above n 4 ltac:(lia) Hbig) as Hk.
    rewrite finite_ltb.
    assert ((-49 <? e) = true) as -> by (apply Z.ltb_lt; lia).
    symmetry. apply Z.ltb_lt. lia.
  - assert (n = 1 ∨ n = 2 ∨ n = 3 ∨ n = 4 ∨ n = 5 ∨ n = 6 ∨ n = 7 ∨ n = 8 ∨
            n = 9 ∨ n = 10 ∨ n = 11 ∨ n = 12 ∨ n = 13 ∨ n = 14 ∨ n = 15)
      as Hcases by lia.
    repeat (destruct Hcases as [->|Hcases]; [vm_compute; reflexivity|]).
    subst n. vm_compute. reflexivity.
Qed.

(** Dividing a positive double by 0.75. *)
Lemma f64_div_three_quarters m1 e1 :
  2 ^ 52 ≤ Z.pos m1 < 2 ^ 53 → -52 ≤ e1 ≤ 12 →
  let n1 := if 6755399441055744 <=? Z.pos m1 then 1 else 0 in
  let M := (2 ^ (2 - n1) * Z.pos m1 + 1) `div` 3 in
  SFdiv 53 1024 (S754_finite false m1 e1) f64_three_quarters
  = S754_finite false (Z.to_pos M) (e1 + n1) ∧
  2 ^ 52 ≤ M < 2 ^ 53.
Proof.
  intros H1 He1 n1 M. unfold f64_three_quarters.
  destruct (div_spec 53 1024 ltac:(lia) ltac:(lia) m1 e1 6755399441055744 (-53)
              H1 ltac:(done) ltac:(unfold emin; lia) ltac:(lia)) as [-> HM].
  fold n1 in HM |- *.
  change (2 ^ 52) with 4503599627370496 in *.
  change (2 ^ 53) with 9007199254740992 in *.
  change (2 ^ (53 - 1)) with 4503599627370496 in *.
  assert (rne (Z.pos m1 * 9007199254740992) (2 ^ n1 * 6755399441055744) = M) as HMeq.
  { unfold M, n1. destruct (Z.leb_spec 6755399441055744 (Z.pos m1)).
    - change (2 ^ (2 - 1)) with 2. change (2 ^ 1) with 2.
      replace (Z.pos m1 * 9007199254740992)
        with (4503599627370496 * (2 * Z.pos m1)) by lia.
      change (2 * 6755399441055744) with (4503599627370496 * 3).
      rewrite rne_scale, rne_3 by lia. done.
    - change (2 ^ (2 - 0)) with 4. change (2 ^ 0) with 1.
      replace (Z.pos m1 * 9007199254740992)
        with (2251799813685248 * (4 * Z.pos m1)) by lia.
      change (1 * 6755399441055744) with (2251799813685248 * 3).
      rewrite rne_scale, rne_3 by lia. done. }
  rewrite HMeq in HM |- *.
  assert (M < 9007199254740992) as Hlt.
  { unfold M, n1. destruct (Z.leb_spec 6755399441055744 (Z.pos m1)).
    - change (2 ^ (2 - 1)) with 2. apply Z.div_lt_upper_bound; lia.
    - change (2 ^ (2 - 0)) with 4. apply Z.div_lt_upper_bound; lia. }
  destruct (Z.eqb_spec M 9007199254740992); [lia|].
  split; [|lia]. f_equal. lia.
Qed.

(** The outcome of [(size_t)(enum_count / 0.75)] for a positive count: the
    result of the division is a double [M * 2^E] with a full mantissa. *)
Lemma f64_quotient n :
  0 < n < 2 ^ 64 →
  ∃ M E,
    SFdiv 53 1024 (f64_of_Z n) f64_three_quarters
    = S754_finite false (Z.to_pos M) E ∧
    2 ^ 52 ≤ M < 2 ^ 53 ∧ -52 ≤ E ≤ 12 ∧ E ≤ Zdigits2 n - 52 ∧
    (Zdigits2 n ≤ 52 →
     E ≤ 0 ∧ M = (4 * (n * 2 ^ (- E)) + 1) `div` 3 ∧
     (E = 0 → 3 * 2 ^ 50 ≤ n)).
Proof.
  intros Hn. pose proof (digits_below n 64 Hn) as Hk.
  destruct (Zdigits2_spec n ltac:(lia)) as [Hk0 Hr].
  destruct (f64_of_Z_structure n Hn) as (m1 & e1 & -> & Hm1 & He1 & Hexact).
  set (k := Zdigits2 n) in *.
  destruct (f64_div_three_quarters m1 e1 Hm1 ltac:(lia)) as [-> HM].
  set (n1 := if 6755399441055744 <=? Z.pos m1 then 1 else 0) in *.
  eexists _, _. split; [done|]. split; [done|].
  change (2 ^ 52) with 4503599627370496 in *.
  assert (e1 + n1 ≤ k - 52) as HE.
  { unfold n1. destruct (Z.leb_spec 6755399441055744 (Z.pos m1)); lia. }
  split; [unfold n1 in *; destruct (_ <=? _); lia|]. split; [done|].
  intros Hsmall. destruct (Hexact ltac:(lia)) as [Hm ->].
  split; [lia|]. split.
  - f_equal. f_equal. rewrite Hm. unfold n1.
    destruct (Z.leb_spec 6755399441055744 (Z.pos m1)).
    + change (2 ^ (2 - 1)) with 2.
      replace (53 - k) with (1 + - (k - 53 + 1)) by lia.
      rewrite Z.pow_add_r by lia. change (2 ^ 1) with 2. ring.
    + change (2 ^ (2 - 0)) with 4.
      replace (- (k - 53 + 0)) with (53 - k) by lia. ring.
  - intros HE0. unfold n1 in HE0.
    destruct (Z.leb_spec 6755399441055744 (Z.pos m1)); [|lia].
    assert (k = 52) as Hk52 by lia. rewrite Hm, Hk52 in *.
    change (2 ^ (53 - 52)) with 2 in *. change (2 ^ 50) with 1125899906842624. lia.
Qed.

Lemma initial_num_buckets_unfold n :
  0 < n < 2 ^ 64 →
  initial_num_buckets n
  = if 12 <? n
    then quotient ← size_t_of_f64 (SFdiv 53 1024 (f64_of_Z n)
                                         f64_three_quarters);
         Some (to_size_t (quotient + 1))
    else Some STEM_DEFAULT_BUCKETS.
Proof. intros Hn. unfold initial_num_buckets. by rewrite f64_above_twelve. Qed.

(** The bucket count is never 0: the quotient is below 2^53 or even. *)
Lemma initial_num_buckets_positive n nb :
  0 < n < 2 ^ 64 → initial_num_buckets n = Some nb → 0 < nb ≤ SIZE_MAX.
Proof.
  intros Hn. rewrite initial_num_buckets_unfold by done.
  destruct (12 <? n); [|intros [= <-]; by vm_compute].
  destruct (f64_quotient n Hn) as (M & E & -> & HM & HE & _).
  unfold size_t_of_f64. rewrite Z2Pos.id by lia.
  change (2 ^ 52) with 4503599627370496 in *.
  change (2 ^ 53) with 9007199254740992 in *.
  unfold SIZE_MAX, to_size_t. change (2 ^ 64) with 18446744073709551616.
  destruct (Z.leb_spec 0 E) as [Hpos|Hneg].
  - destruct (Z.leb_spec (M * 2 ^ E) (18446744073709551616 - 1)); [|done].
    simpl. intros [= <-].
    assert (M * 2 ^ E + 1 < 18446744073709551616).
    { destruct (Z.eq_dec E 0) as [->|HE0]; [simpl in *; lia|].
      replace E with (1 + (E - 1)) in * by lia.
      rewrite Z.pow_add_r in * by lia. change (2 ^ 1) with 2 in *.
      assert (0 < 2 ^ (E - 1)) by (apply Z.pow_pos_nonneg; lia).
      set (u := 2 ^ (E - 1)) in *.
      assert (M * (2 * u) = 2 * (M * u)) as Heq by ring.
      rewrite Heq in *. lia. }
    assert (0 ≤ M * 2 ^ E).
    { apply Z.mul_nonneg_nonneg; [lia|]. apply Z.pow_nonneg. lia. }
    rewrite Z.mod_small by lia. lia.
  - assert (0 < 2 ^ (- E)) by (apply Z.pow_pos_nonneg; lia).
    assert (0 ≤ M `div` 2 ^ (- E) ≤ M).
    { split; [apply Z.div_pos; lia|]. apply Z.div_le_upper_bound; [lia|]. nia. }
    destruct (Z.leb_spec (M `div` 2 ^ (- E)) (18446744073709551616 - 1)); [|lia].
    simpl. intros [= <-]. rewrite Z.mod_small by lia. lia.
Qed.

(** The conversion to [size_t] is defined for every count below 2^63. *)
Lemma initial_num_buckets_defined n :
  0 < n < 2 ^ 63 → ∃ nb, initial_num_buckets n = Some nb.
Proof.
  intros Hn.
  assert (0 < n < 2 ^ 64) as Hn'.
  { change (2 ^ 63) with 9223372036854775808 in Hn.
    change (2 ^ 64) with 18446744073709551616. lia. }
  rewrite initial_num_buckets_unfold by done.
  destruct (12 <? n); [|by eexists].
  destruct (f64_quotient n Hn') as (M & E & -> & HM & HE & HEk & _).
  pose proof (digits_below n 63 Hn) as Hk.
  unfold size_t_of_f64. rewrite Z2Pos.id by lia.
  change (2 ^ 52) with 4503599627370496 in *.
  change (2 ^ 53) with 9007199254740992 in *.
  unfold SIZE_MAX. change (2 ^ 64) with 18446744073709551616.
  destruct (Z.leb_spec 0 E) as [Hpos|Hneg].
  - assert (M * 2 ^ E ≤ 18446744073709551616 - 1).
    { pose proof (Z.pow_le_mono_r 2 E 11 ltac:(lia) ltac:(lia)) as Hp.
      change (2 ^ 11) with 2048 in Hp.
      assert (0 < 2 ^ E) by (apply Z.pow_pos_nonneg; lia).
      assert (M * 2 ^ E ≤ 9007199254740991 * 2048); [|lia].
      apply Z.mul_le_mono_nonneg; lia. }
    destruct (Z.leb_spec (M * 2 ^ E) (18446744073709551616 - 1)); [|lia].
    by eexists.
  - assert (0 < 2 ^ (- E)) by (apply Z.pow_pos_nonneg; lia).
    assert (0 ≤ M `div` 2 ^ (- E) ≤ M).
    { split; [apply Z.div_pos; lia|]. apply Z.div_le_upper_bound; [lia|]. nia. }
    destruct (Z.leb_spec (M `div` 2 ^ (- E)) (18446744073709551616 - 1)); [|lia].
    by eexists.
Qed.

(** For counts below [3 * 2^50 + 2] the double computation yields the
    integral part of the exact quotient. *)
Lemma initial_num_buckets_exact n :
  0 < n < 3 * 2 ^ 50 + 2 →
  initial_num_buckets n
  = Some (if 12 <? n then (4 * n) `div` 3 + 1 else STEM_DEFAULT_BUCKETS).
Proof.
  intros Hn. change (2 ^ 50) with 1125899906842624 in Hn.
  assert (0 < n < 2 ^ 64) as Hn'.
  { change (2 ^ 64) with 18446744073709551616. lia. }
  rewrite initial_num_buckets_unfold by done.
  destruct (12 <? n) eqn:Hbig; [|done].
  destruct (f64_quotient n Hn') as (M & E & -> & HM & HE & _ & Hexact).
  pose proof (digits_below n 52 ltac:(change (2 ^ 52) with 4503599627370496; lia))
    as Hk.
  destruct (Hexact Hk) as (HE0 & HMeq & Hlast).
  change (2 ^ 50) with 1125899906842624 in Hlast.
  unfold size_t_of_f64. rewrite Z2Pos.id by lia.
  assert (0 < 2 ^ (- E)) as HF by (apply Z.pow_pos_nonneg; lia).
  assert ((if 0 <=? E then M * 2 ^ E else M `div` 2 ^ (- E)) = M `div` 2 ^ (- E))
    as ->.
  { destruct (Z.leb_spec 0 E); [|done].
    assert (E = 0) as -> by lia. simpl. by rewrite Z.div_1_r, Z.mul_1_r. }
  assert (M `div` 2 ^ (- E) = (4 * n) `div` 3) as ->.
  { rewrite HMeq, Z.div_div by lia.
    pose proof (Z.div_mod (4 * n) 3 ltac:(lia)) as Hdm.
    pose proof (Z.mod_pos_bound (4 * n) 3 ltac:(lia)) as Hb.
    set (a := (4 * n) `div` 3) in *. set (b := (4 * n) `mod` 3) in *.
    clearbody a b. set (F := 2 ^ (- E)) in *.
    assert (b ≤ 1 ∨ 2 ≤ F) as Hslack.
    { destruct (Z.eq_dec E 0) as [HE00|HE00].
      - left. specialize (Hlast HE00). lia.
      - right. unfold F. change 2 with (2 ^ 1) at 1.
        apply Z.pow_le_mono_r; lia. }
    symmetry. apply (Z.div_unique_pos _ _ a (b * F + 1)).
    - clearbody F. nia.
    - replace (4 * (n * F)) with (4 * n * F) by ring. rewrite Hdm. ring. }
  assert (0 ≤ (4 * n) `div` 3 < 2 ^ 53) as Hq.
  { change (2 ^ 53) with 9007199254740992.
    split; [apply Z.div_pos; lia|apply Z.div_lt_upper_bound; lia]. }
  change (2 ^ 53) with 9007199254740992 in Hq.
  unfold SIZE_MAX, to_size_t. change (2 ^ 64) with 18446744073709551616.
  destruct (Z.leb_spec ((4 * n) `div` 3) (18446744073709551616 - 1)); [|lia].
  simpl. by rewrite Z.mod_small by lia.
Qed.

(** Beyond these sizes the computations of the source and the exact ones
    part.  With 16777217 entries in 22369622 buckets the load exceeds 0.75
    and the single-precision test does not find it so; with 67108885
    entries in 89478515 buckets it is the other way round. *)
Lemma load_factor_inexact :
  load_factor_exceeded 16777217 22369622 = false ∧
  3 * 22369622 < 4 * 16777217 ∧
  load_factor_exceeded 67108885 89478515 = true ∧
  4 * 67108885 ≤ 3 * 89478515.
Proof. by vm_compute. Qed.

(** For an expected count of 3377699720527874 the double quotient is
    rounded up to the next integer, and for [3 * 2^62 - 1] it is 2^64,
    which no [size_t] holds. *)
Lemma initial_num_buckets_inexact :
  initial_num_buckets 3377699720527874 = Some 4503599627370500 ∧
  (4 * 3377699720527874) `div` 3 + 1 = 4503599627370499 ∧
  initial_num_buckets (3 * 2 ^ 62 - 1) = None.
Proof. by vm_compute. Qed.

Lemma stem_hash_int_nonneg key : 0 ≤ stem_hash_int key.
Proof. unfold stem_hash_int, to_uint32. apply Z.mod_pos_bound. lia. Qed.

Lemma bucket_idx_lt (n : nat) key :
  (0 < n)%nat → (bucket_idx (Z.of_nat n) key < n)%nat.
Proof.
  intros Hn. unfold bucket_idx.
  pose proof (Z.mod_pos_bound (stem_hash_int key) (Z.of_nat n)). lia.
Qed.

Lemma has_flag_lor fl1 fl2 f :
  has_flag (Z.lor fl1 fl2) f = has_flag fl1 f || has_flag fl2 f.
Proof.
  unfold has_flag. rewrite Z.land_lor_distr_l.
  destruct (Z.land fl1 f =? 0) eqn:E1, (Z.land fl2 f =? 0) eqn:E2; simpl;
    rewrite ?negb_true_iff, ?negb_false_iff; try (apply Z.eqb_neq; rewrite Z.lor_eq_0_iff; lia);
    apply Z.eqb_eq; rewrite Z.lor_eq_0_iff; lia.
Qed.

(** ** Buckets and chains *)

Lemma chain_at_lookup bs i chain : bs !! i = Some chain → chain_at bs i = chain.
Proof. unfold chain_at. by intros ->. Qed.

Lemma elem_of_concat {A} (x : A) (ls : list (list A)) :
  x ∈ concat ls ↔ ∃ l, l ∈ ls ∧ x ∈ l.
Proof.
  rewrite list_elem_of_In, in_concat.
  split; intros (l & H1 & H2); exists l; by rewrite ?list_elem_of_In in *.
Qed.

Lemma chain_at_elem bs i entry : entry ∈ chain_at bs i → entry ∈ concat bs.
Proof.
  unfold chain_at. destruct (bs !! i) as [chain|] eqn:E; simpl.
  - intros. apply elem_of_concat. exists chain. split; [|done].
    by eapply list_elem_of_lookup_2.
  - by intros ?%elem_of_nil.
Qed.

Lemma concat_insert_cons (bs : list (list EnumEntry)) i chain entry :
  bs !! i = Some chain →
  concat (<[i := entry :: chain]> bs) ≡ₚ entry :: concat bs.
Proof.
  revert i. induction bs as [|b bs IH]; intros [|i] H; simplify_eq/=; [done|].
  rewrite IH by done. by rewrite Permutation_middle.
Qed.

Lemma length_link_entry bs entry : length (link_entry bs entry) = length bs.
Proof. unfold link_entry. by rewrite length_insert. Qed.

Lemma link_entry_perm bs entry :
  (0 < length bs)%nat → concat (link_entry bs entry) ≡ₚ entry :: concat bs.
Proof.
  intros Hn. unfold link_entry.
  pose proof (bucket_idx_lt (length bs) (enum_value entry) Hn) as Hlt.
  destruct (lookup_lt_is_Some_2 _ _ Hlt) as [chain Hc].
  rewrite (chain_at_lookup _ _ _ Hc). by apply concat_insert_cons.
Qed.

Lemma link_entry_placed bs entry : placed bs → placed (link_entry bs entry).
Proof.
  intros Hp i chain e. rewrite length_link_entry. unfold link_entry.
  rewrite list_lookup_insert_Some.
  intros [(<- & <- & Hlt)|[Hne Hl]] He.
  - apply elem_of_cons in He as [->|He]; [done|].
    unfold chain_at in He.
    destruct (bs !! _) as [c|] eqn:E; simpl in He; [|by apply elem_of_nil in He].
    by eapply Hp.
  - by eapply Hp.
Qed.

Lemma link_entry_head bs entry :
  (0 < length bs)%nat →
  chain_at (link_entry bs entry)
           (bucket_idx (Z.of_nat (length bs)) (enum_value entry))
  = entry :: chain_at bs (bucket_idx (Z.of_nat (length bs)) (enum_value entry)).
Proof.
  intros Hn. unfold link_entry. unfold chain_at at 1.
  rewrite list_lookup_insert_eq; [done|]. by apply bucket_idx_lt.
Qed.

Lemma foldl_concat {A B} (f : A → B → A) a (l : list (list B)) :
  foldl (λ acc chain, foldl f acc chain) a l = foldl f a (concat l).
Proof.
  revert a. induction l as [|c l IH]; intros a; simpl; [done|].
  by rewrite foldl_app, IH.
Qed.

Lemma foldl_link_entry bs entries :
  (0 < length bs)%nat → placed bs →
  length (foldl link_entry bs entries) = length bs ∧
  placed (foldl link_entry bs entries) ∧
  concat (foldl link_entry bs entries) ≡ₚ entries ++ concat bs.
Proof.
  revert bs. induction entries as [|e es IH]; intros bs Hn Hp; simpl; [done|].
  destruct (IH (link_entry bs e)) as (Hl & Hp' & Hperm).
  - by rewrite length_link_entry.
  - by apply link_entry_placed.
  - rewrite length_link_entry in Hl. split_and!; [done..|].
    rewrite Hperm, link_entry_perm by done. by rewrite Permutation_middle.
Qed.

Lemma placed_replicate n : placed (replicate n []).
Proof. intros i chain e [-> _]%lookup_replicate []%elem_of_nil. Qed.

Lemma concat_replicate_nil {A} n : concat (replicate n (@nil A)) = [].
Proof. induction n; simpl; auto. Qed.

Lemma rehash_spec new_size bs :
  0 < new_size →
  length (rehash new_size bs) = Z.to_nat new_size ∧
  placed (rehash new_size bs) ∧
  concat (rehash new_size bs) ≡ₚ concat bs.
Proof.
  intros Hn. unfold rehash. rewrite foldl_concat.
  destruct (foldl_link_entry (replicate (Z.to_nat new_size) []) (concat bs))
    as (Hl & Hp & Hperm).
  - rewrite length_replicate. lia.
  - apply placed_replicate.
  - rewrite length_replicate in Hl. rewrite concat_replicate_nil, app_nil_r in Hperm.
    done.
Qed.

(** ** Lookup *)

Lemma chain_find_Some key chain entry :
  chain_find key chain = Some entry → entry ∈ chain ∧ enum_value entry = key.
Proof.
  intros [Hin Hk]%find_some. split; [by apply list_elem_of_In|lia].
Qed.

Lemma chain_find_None key chain :
  chain_find key chain = None ↔ ∀ entry, entry ∈ chain → enum_value entry ≠ key.
Proof.
  split.
  - intros H e He%list_elem_of_In. pose proof (find_none _ _ H e He). simpl in *. lia.
  - intros H. destruct (chain_find key chain) as [e|] eqn:E; [|done].
    apply chain_find_Some in E as [He Hk]. by destruct (H e He).
Qed.

Lemma keys_inj (l : list EnumEntry) x y :
  NoDup (enum_value <$> l) → x ∈ l → y ∈ l → enum_value x = enum_value y → x = y.
Proof.
  induction l as [|a l IH]; simpl; intros Hnd Hx Hy Hk; [by apply elem_of_nil in Hx|].
  apply NoDup_cons in Hnd as [Hna Hnd].
  apply elem_of_cons in Hx as [->|Hx], Hy as [->|Hy]; auto.
  - destruct Hna. rewrite Hk. by apply list_elem_of_fmap_2.
  - destruct Hna. rewrite <- Hk. by apply list_elem_of_fmap_2.
Qed.

Lemma find_entry_Some map key entry :
  stem_find_entry map key = Some entry →
  entry ∈ all_entries map ∧ enum_value entry = key.
Proof.
  unfold stem_find_entry. intros [He Hk]%chain_find_Some. split; [|done].
  by eapply chain_at_elem.
Qed.

Lemma find_entry_elem map entry :
  placed (buckets map) → NoDup (enum_value <$> all_entries map) →
  entry ∈ all_entries map → stem_find_entry map (enum_value entry) = Some entry.
Proof.
  intros Hp Hnd He. unfold all_entries in *.
  apply elem_of_concat in He as Hc. destruct Hc as (chain & Hc & Hin).
  apply list_elem_of_lookup in Hc as [i Hi].
  pose proof (Hp i chain entry Hi Hin) as Hidx.
  unfold stem_find_entry, num_buckets. rewrite Hidx, (chain_at_lookup _ _ _ Hi).
  destruct (chain_find (enum_value entry) chain) as [e'|] eqn:E.
  - apply chain_find_Some in E as [He' Hk]. f_equal.
    apply (keys_inj (concat (buckets map))); [done| |done|done].
    apply elem_of_concat. exists chain. split; [|done].
    by eapply list_elem_of_lookup_2.
  - rewrite chain_find_None in E. by destruct (E entry Hin).
Qed.

Lemma find_entry_None map key :
  placed (buckets map) →
  stem_find_entry map key = None ↔ key ∉ enum_value <$> all_entries map.
Proof.
  intros Hp. split.
  - intros Hf (e & -> & He)%list_elem_of_fmap.
    unfold all_entries in *.
    apply elem_of_concat in He as (chain & Hc & Hin).
    apply list_elem_of_lookup in Hc as [i Hi].
    pose proof (Hp i chain e Hi Hin) as Hidx.
    unfold stem_find_entry, num_buckets in Hf.
    rewrite Hidx, (chain_at_lookup _ _ _ Hi), chain_find_None in Hf.
    by destruct (Hf e Hin).
  - intros Hn. destruct (stem_find_entry map key) as [e|] eqn:E; [|done].
    apply find_entry_Some in E as [He <-]. destruct Hn.
    by apply list_elem_of_fmap_2.
Qed.

Lemma find_entry_perm map1 map2 key :
  placed (buckets map1) → NoDup (enum_value <$> all_entries map1) →
  placed (buckets map2) →
  all_entries map1 ≡ₚ all_entries map2 →
  stem_find_entry map1 key = stem_find_entry map2 key.
Proof.
  intros Hp1 Hnd1 Hp2 Hperm.
  assert (NoDup (enum_value <$> all_entries map2)) as Hnd2 by by rewrite <- Hperm.
  destruct (stem_find_entry map1 key) as [e|] eqn:E1.
  - apply find_entry_Some in E1 as [He <-]. rewrite Hperm in He.
    symmetry. by apply find_entry_elem.
  - symmetry. apply find_entry_None; [done|]. rewrite <- Hperm.
    by apply find_entry_None.
Qed.

(** ** One association, case by case *)

Lemma create_entry_cases mem map key value name o r o' :
  stem_create_entry mem map key value name o = (r, o') →
  r = inl STEM_ERROR_OUT_OF_MEMORY ∨ r = inr (new_entry mem map key value name).
Proof.
  unfold stem_create_entry, new_entry, stored_value, stored_name. alloc_unfold.
  intros H. repeat (case_match; simplify_eq/=); auto.
Qed.

Lemma associate_cases mem map key value name o err map' o' :
  stdem_associate_ex mem map key value name o = (err, map', o') →
  (err ≠ STEM_SUCCESS ∧ map' = map) ∨
  (has_flag (flags map) STEM_FLAGS_READONLY = false ∧
   stem_find_entry map key = None ∧
   (load_factor_exceeded (count map) (num_buckets map) = true →
    0 < to_size_t (num_buckets map * 2)) ∧
   ((err = STEM_ERROR_OUT_OF_MEMORY ∧ map' = with_buckets map (grown map)) ∨
    (err = STEM_SUCCESS ∧ map' = linked map (new_entry mem map key value name)))).
Proof.
  unfold stdem_associate_ex.
  destruct (has_flag _ _) eqn:Hro.
  { inversion 1; subst. by left. }
  destruct (stem_find_entry map key) eqn:Hfind.
  { inversion 1; subst. by left. }
  unfold linked, with_buckets, grown, new_entry, stem_resize_map. alloc_unfold.
  destruct (load_factor_exceeded _ _) eqn:Hload.
  - destruct (to_size_t (num_buckets map * 2) =? 0) eqn:Hz.
    { simpl. inversion 1; subst. by left. }
    apply Z.eqb_neq in Hz. pose proof (to_size_t_range (num_buckets map * 2)).
    destruct o as [|[] o]; simpl.
    + destruct (stem_create_entry _ _ _ _ _ _) as [r o2] eqn:Hc.
      apply create_entry_cases in Hc as [->| ->]; intros [= <- <- <-];
        right; (split_and!; [done|done|intros; lia|]); [left|right]; done.
    + destruct (stem_create_entry _ _ _ _ _ _) as [r o2] eqn:Hc.
      apply create_entry_cases in Hc as [->| ->]; intros [= <- <- <-];
        right; (split_and!; [done|done|intros; lia|]); [left|right]; done.
    + inversion 1; subst. by left.
  - simpl. destruct (stem_create_entry _ _ _ _ _ _) as [r o2] eqn:Hc.
    apply create_entry_cases in Hc as [->| ->]; intros [= <- <- <-];
      right; (split_and!; [done|done|done|]); [left|right]; by destruct map.
Qed.

(** ** The invariant is kept *)

Lemma c_str_idemp s : c_str (c_str s) = c_str s.
Proof.
  induction s as [|a s IH]; simpl; [done|].
  destruct (Ascii.eqb a Ascii.zero) eqn:E; simpl; [done|]. by rewrite E, IH.
Qed.

Lemma stored_name_idemp fl name : stored_name fl (stored_name fl name) = stored_name fl name.
Proof.
  unfold stored_name. destruct name as [s|]; [|done].
  destruct (has_flag _ _) eqn:E; simpl; [done|]. by rewrite c_str_idemp.
Qed.

Lemma length_read_bytes mem value n :
  0 ≤ n → readable n value → Z.of_nat (length (read_bytes mem value n)) = n.
Proof.
  intros Hn Hr. destruct value as [a|bytes]; simpl in *.
  - rewrite length_fmap, length_seqZ. lia.
  - rewrite length_take. lia.
Qed.

Lemma is_null_true p : is_null p = true → p = NULL.
Proof. destruct p; simpl; [|done]. intros ->%Z.eqb_eq. done. Qed.

Lemma new_entry_ok mem map key value name :
  INT_MIN ≤ key ≤ INT_MAX → readable (value_size map) value →
  entry_ok (value_size map) (flags map) (new_entry mem map key value name).
Proof.
  intros Hk Hr. split; simpl; [done|apply stored_name_idemp|].
  intros Hvs. unfold stored_value.
  destruct (0 <? value_size map) eqn:E; [|lia]. simpl.
  destruct (is_null value) eqn:En; simpl.
  - left. by apply is_null_true.
  - right. eexists. split; [done|]. apply length_read_bytes; [lia|done].
Qed.

Lemma grown_spec map :
  (0 < length (buckets map))%nat → placed (buckets map) →
  (load_factor_exceeded (count map) (num_buckets map) = true →
   0 < to_size_t (num_buckets map * 2)) →
  (0 < length (grown map))%nat ∧ placed (grown map) ∧
  concat (grown map) ≡ₚ all_entries map.
Proof.
  intros Hn Hp Hsz. unfold grown.
  destruct (load_factor_exceeded _ _); [|done].
  destruct (rehash_spec (to_size_t (num_buckets map * 2)) (buckets map))
    as (Hl & Hp' & Hperm); [by apply Hsz|].
  rewrite Hl. split_and!; [|done..]. specialize (Hsz eq_refl). lia.
Qed.

Lemma with_buckets_ok map bs :
  map_ok map → (0 < length bs)%nat → placed bs → concat bs ≡ₚ all_entries map →
  map_ok (with_buckets map bs).
Proof.
  intros [Hb Hpl Hu Hc Hw Hvs Hfl Hes] Hn Hp Hperm.
  split; simpl; unfold all_entries; simpl; auto.
  - by rewrite Hperm.
  - by rewrite Hperm.
  - intros Hne. apply Hw. intros Heq. apply Hne.
    rewrite Heq in Hperm. by apply Permutation_nil_r.
  - by rewrite Hperm.
Qed.

Lemma linked_entries map entry :
  (0 < length (grown map))%nat → concat (grown map) ≡ₚ all_entries map →
  all_entries (linked map entry) ≡ₚ entry :: all_entries map.
Proof.
  intros Hn Hperm. unfold all_entries at 1. simpl.
  by rewrite link_entry_perm, Hperm.
Qed.

Lemma linked_ok map entry :
  map_ok map →
  (load_factor_exceeded (count map) (num_buckets map) = true →
   0 < to_size_t (num_buckets map * 2)) →
  has_flag (flags map) STEM_FLAGS_READONLY = false →
  stem_find_entry map (enum_value entry) = None →
  entry_ok (value_size map) (flags map) entry →
  map_ok (linked map entry).
Proof.
  intros Hok Hsz Hro Hfind He.
  destruct (grown_spec map) as (Hn & Hp & Hperm); [apply Hok..|done|].
  pose proof (linked_entries map entry Hn Hperm) as Hall.
  destruct Hok as [Hb Hpl Hu Hc Hw Hvs Hfl Hes]. split; simpl; auto.
  - by rewrite length_link_entry.
  - by apply link_entry_placed.
  - rewrite Hall. simpl. apply NoDup_cons. split; [|done].
    by apply find_entry_None.
  - rewrite Hall. simpl length. rewrite Hc, to_size_t_succ. f_equal. lia.
  - rewrite Hall. by apply Forall_cons.
Qed.

Lemma associate_ok mem map key value name o err map' o' :
  map_ok map → INT_MIN ≤ key ≤ INT_MAX → readable (value_size map) value →
  stdem_associate_ex mem map key value name o = (err, map', o') →
  map_ok map'.
Proof.
  intros Hok Hk Hr H.
  apply associate_cases in H as [[_ ->]|(Hro & Hfind & Hsz & [[_ ->]|[_ ->]])];
    [done| |].
  - destruct (grown_spec map) as (Hn & Hp & Hperm); [apply Hok..|done|].
    by apply with_buckets_ok.
  - apply linked_ok; auto. by apply new_entry_ok.
Qed.

Lemma associate_entries mem map key value name o err map' o' :
  (0 < length (buckets map))%nat → placed (buckets map) →
  stdem_associate_ex mem map key value name o = (err, map', o') →
  value_size map' = value_size map ∧ flags map' = flags map ∧
  if decide (err = STEM_SUCCESS)
  then all_entries map' ≡ₚ new_entry mem map key value name :: all_entries map
       ∧ count map' = to_size_t (count map + 1)
  else all_entries map' ≡ₚ all_entries map ∧ count map' = count map.
Proof.
  intros Hn Hp H.
  apply associate_cases in H as [[He ->]|(Hro & Hfind & Hsz & [[-> ->]|[-> ->]])].
  - by rewrite decide_False.
  - destruct (grown_spec map) as (Hn' & Hp' & Hperm); [done..|].
    by rewrite decide_False.
  - destruct (grown_spec map) as (Hn' & Hp' & Hperm); [done..|].
    rewrite decide_True by done. split_and!; [done..| |done].
    by apply linked_entries.
Qed.

Lemma default_buckets_fit : 0 < STEM_DEFAULT_BUCKETS ≤ SIZE_MAX.
Proof. by compute. Qed.

Lemma initial_buckets_Some n nb :
  initial_num_buckets n = Some nb → initial_buckets n = nb.
Proof. unfold initial_buckets. by intros ->. Qed.

Lemma create_cases n vs fl o map o' :
  0 ≤ n →
  stdem_create_ex n vs fl o = (Ok map, o') →
  0 < n ≤ SIZE_MAX ∧ 0 < initial_buckets n ≤ SIZE_MAX ∧
  map = {| count := 0; value_size := vs; flags := fl;
           buckets := replicate (Z.to_nat (initial_buckets n)) [] |}.
Proof.
  intros Hn. unfold stdem_create_ex, STEM_MAX_ENTRIES. alloc_unfold.
  destruct (n =? 0) eqn:E0; simpl; [done|].
  destruct (SIZE_MAX <? n) eqn:E1; simpl; [done|].
  apply Z.eqb_neq in E0. apply Z.ltb_ge in E1.
  destruct (initial_num_buckets n) as [nb|] eqn:Hnb.
  - pose proof (initial_num_buckets_positive n nb
                  ltac:(unfold SIZE_MAX in *; lia) Hnb) as Hpos.
    rewrite (initial_buckets_Some n nb Hnb).
    destruct o as [|[] [|[] o]]; simpl; try done; intros [= <- <-];
      (split_and!; [lia|done|lia|lia|done]).
  - destruct o as [|[] o]; done.
Qed.

Lemma empty_table_ok n vs fl :
  (0 < n)%nat → 0 ≤ vs ≤ SIZE_MAX → 0 ≤ fl < 2 ^ 32 →
  map_ok {| count := 0; value_size := vs; flags := fl; buckets := replicate n [] |}.
Proof.
  intros Hn Hvs Hfl. split; unfold all_entries; simpl;
    rewrite ?concat_replicate_nil, ?length_replicate; try done.
  - apply placed_replicate.
  - constructor.
Qed.

Lemma create_ok n vs fl o map o' :
  0 ≤ n → 0 ≤ vs ≤ SIZE_MAX → 0 ≤ fl < 2 ^ 32 →
  stdem_create_ex n vs fl o = (Ok map, o') → map_ok map.
Proof.
  intros Hn Hvs Hfl H. apply create_cases in H as (_ & Hb & ->); [|done].
  apply empty_table_ok; [lia|done..].
Qed.

Lemma create_no_failure n vs fl :
  0 < n < 2 ^ 63 →
  stdem_create_ex n vs fl []
  = (Ok {| count := 0; value_size := vs; flags := fl;
           buckets := replicate (Z.to_nat (initial_buckets n)) [] |}, []).
Proof.
  intros Hn. destruct (initial_num_buckets_defined n Hn) as [nb Hnb].
  rewrite (initial_buckets_Some n nb Hnb).
  unfold stdem_create_ex, STEM_MAX_ENTRIES, SIZE_MAX. alloc_unfold.
  change (2 ^ 63) with 9223372036854775808 in Hn.
  change (2 ^ 64) with 18446744073709551616.
  destruct (Z.eqb_spec n 0); [lia|].
  destruct (Z.ltb_spec (18446744073709551616 - 1) n); [lia|].
  simpl. by rewrite Hnb.
Qed.

Lemma initial_buckets_exact n :
  0 < n < 3 * 2 ^ 50 + 2 →
  initial_buckets n
  = if 12 <? n then (4 * n) `div` 3 + 1 else STEM_DEFAULT_BUCKETS.
Proof.
  intros Hn. unfold initial_buckets. by rewrite initial_num_buckets_exact.
Qed.

Lemma clear_ok map err map' : map_ok map → stdem_clear map = (err, map') → map_ok map'.
Proof.
  intros Hok. unfold stdem_clear. destruct (has_flag _ _); intros [= <- <-]; [done|].
  assert ((λ _ : list EnumEntry, @nil EnumEntry) <$> buckets map
          = replicate (length (buckets map)) []) as ->.
  { by apply const_fmap. }
  apply empty_table_ok; apply Hok.
Qed.

(** ** Replaying entries *)

Lemma new_entry_replayed mem map entry :
  new_entry mem map (enum_value entry) (value entry) (name entry)
  = replayed mem (value_size map) (flags map) entry.
Proof. done. Qed.

Lemma entry_ok_readable vs fl entry : entry_ok vs fl entry → readable vs (value entry).
Proof.
  intros [_ _ Hv]. destruct (value entry) as [a|bytes] eqn:E; simpl; [done|].
  destruct (decide (0 < vs)) as [Hvs|]; [|lia].
  destruct (Hv Hvs) as [?|(b & ? & ?)]; simplify_eq. lia.
Qed.

Lemma replayed_id mem vs fl entry :
  entry_ok vs fl entry → replayed mem vs fl entry = entry.
Proof.
  intros [_ Hn Hv]. destruct entry as [k nm v]; simpl in *.
  unfold replayed; simpl. rewrite Hn. f_equal.
  unfold stored_value. destruct (0 <? vs) eqn:E; simpl; [|done].
  destruct (Hv ltac:(lia)) as [->|(b & -> & Hl)]; simpl; [done|].
  f_equal. apply take_ge. lia.
Qed.

Lemma associate_all_spec mem entries :
  ∀ map o err map' o' fl0,
    map_ok map →
    Forall (entry_ok (value_size map) fl0) entries →
    associate_all mem map entries o = (err, map', o') →
    map_ok map' ∧ value_size map' = value_size map ∧ flags map' = flags map ∧
    (err = STEM_SUCCESS →
     all_entries map' ≡ₚ
       (replayed mem (value_size map) (flags map) <$> entries) ++ all_entries map).
Proof.
  induction entries as [|e es IH]; intros map o err map' o' fl0 Hok Hes; simpl.
  - intros [= <- <- <-]. done.
  - alloc_unfold. apply Forall_cons in Hes as [He Hes].
    destruct (stdem_associate_ex _ _ _ _ _ _) as [[err1 map1] o1] eqn:Ha.
    pose proof (associate_ok _ _ _ _ _ _ _ _ _ Hok (key_is_int _ _ _ He)
                  (entry_ok_readable _ _ _ He) Ha) as Hok1.
    apply associate_entries in Ha as (Hvs & Hfl & Hent); [|apply Hok..].
    destruct (decide (err1 = STEM_SUCCESS)) as [->|Hne].
    2: { rewrite decide_True by done. intros [= <- <- <-]. done. }
    rewrite decide_False by (by intros []).
    { destruct Hent as [Hperm _].
      intros H. eapply IH in H as (Hok' & Hvs' & Hfl' & Hperm'); [|done|].
      * split_and!; [done|congruence..|].
        intros ->. rewrite Hperm' by done. rewrite Hvs, Hfl, Hperm.
        rewrite new_entry_replayed. simpl. by rewrite Permutation_middle.
      * by rewrite Hvs. }
Qed.

Lemma fmap_replayed_id mem vs fl entries :
  Forall (entry_ok vs fl) entries → replayed mem vs fl <$> entries = entries.
Proof.
  induction 1 as [|e es He _ IH]; csimpl; [done|]. by rewrite IH, replayed_id.
Qed.

Lemma count_of_entries map1 map2 :
  map_ok map1 → map_ok map2 → all_entries map1 ≡ₚ all_entries map2 →
  count map1 = count map2.
Proof. intros H1 H2 Hp. by rewrite (ok_count _ H1), (ok_count _ H2), Hp. Qed.

Lemma copy_spec mem map o map' o' :
  map_ok map → stdem_copy mem map o = (Ok map', o') →
  map_ok map' ∧ value_size map' = value_size map ∧ flags map' = flags map ∧
  all_entries map' ≡ₚ all_entries map.
Proof.
  intros Hok. unfold stdem_copy. alloc_unfold.
  destruct (stdem_create_ex _ _ _ _) as [[new_map| |] o1] eqn:Hc; try done.
  destruct (associate_all _ _ _ _) as [[err new_map'] o2] eqn:Ha.
  destruct (decide (err ≠ STEM_SUCCESS)); [done|]. intros [= <- <-].
  assert (err = STEM_SUCCESS) as -> by (by destruct (decide (err = STEM_SUCCESS))).
  pose proof (to_size_t_range (Z.of_nat (length (all_entries map)))) as Hr.
  rewrite <- (ok_count _ Hok) in Hr.
  pose proof (create_ok _ _ _ _ _ _ (proj1 Hr) (ok_value_size _ Hok)
                (ok_flags _ Hok) Hc) as Hok1.
  apply create_cases in Hc as (_ & _ & ->); [|lia].
  eapply associate_all_spec in Ha as (Hok' & Hvs & Hfl & Hperm);
    [|done|apply (ok_entries _ Hok)].
  simpl in *. split_and!; [done..|].
  rewrite Hperm by done. unfold all_entries at 2. simpl.
  rewrite concat_replicate_nil, app_nil_r.
  by rewrite (fmap_replayed_id _ _ _ _ (ok_entries _ Hok)).
Qed.

(** ** Overwriting an entry in place *)

Lemma chain_replace_keys updated chain :
  enum_value <$> chain_replace updated chain = enum_value <$> chain.
Proof.
  induction chain as [|e c IH]; csimpl; [done|].
  destruct (enum_value e =? enum_value updated) eqn:E; csimpl; [|by rewrite IH].
  apply Z.eqb_eq in E. by rewrite E.
Qed.

Lemma chain_replace_elem updated chain entry :
  entry ∈ chain_replace updated chain → entry = updated ∨ entry ∈ chain.
Proof.
  induction chain as [|e c IH]; simpl; [by intros ?%elem_of_nil|].
  destruct (enum_value e =? enum_value updated).
  - intros [->|?]%elem_of_cons; [by left|right; by apply elem_of_cons; right].
  - intros [->|?]%elem_of_cons; [right; by apply elem_of_cons; left|].
    destruct IH as [?|?]; [done|by left|right; by apply elem_of_cons; right].
Qed.

Lemma chain_replace_updated updated chain existing :
  existing ∈ chain → enum_value existing = enum_value updated →
  updated ∈ chain_replace updated chain.
Proof.
  induction chain as [|e c IH]; simpl; [by intros ?%elem_of_nil|].
  intros Hin Hk. destruct (enum_value e =? enum_value updated) eqn:E.
  - by apply elem_of_cons; left.
  - apply elem_of_cons; right. apply elem_of_cons in Hin as [->|Hin]; [lia|auto].
Qed.

Lemma chain_replace_other updated chain entry :
  entry ∈ chain → enum_value entry ≠ enum_value updated →
  entry ∈ chain_replace updated chain.
Proof.
  induction chain as [|e c IH]; simpl; [done|].
  intros Hin Hk. destruct (enum_value e =? enum_value updated) eqn:E.
  - apply elem_of_cons in Hin as [->|Hin]; [lia|]. by apply elem_of_cons; right.
  - apply elem_of_cons in Hin as [->|Hin]; apply elem_of_cons; auto.
Qed.

Lemma concat_insert_keys (bs : list (list EnumEntry)) i chain chain' :
  bs !! i = Some chain → enum_value <$> chain' = enum_value <$> chain →
  enum_value <$> concat (<[i := chain']> bs) = enum_value <$> concat bs.
Proof.
  revert i. induction bs as [|b bs IH]; intros [|i] H Hk; simplify_eq/=.
  - by rewrite !fmap_app, Hk.
  - rewrite !fmap_app. f_equal. by apply IH.
Qed.

Section store_entry.
Context (map : EnumMap) (updated existing : EnumEntry).
Hypothesis Hok : map_ok map.
Hypothesis Hfind : stem_find_entry map (enum_value updated) = Some existing.

Lemma store_entry_chain :
  ∃ chain, buckets map !! slot_of map updated = Some chain ∧ existing ∈ chain.
Proof.
  unfold stem_find_entry in Hfind. fold (slot_of map updated) in Hfind.
  apply chain_find_Some in Hfind as [Hin _]. unfold chain_at in Hin.
  destruct (buckets map !! (slot_of map updated)) as [chain|] eqn:E; [eauto|].
  by apply elem_of_nil in Hin.
Qed.

Lemma store_entry_keys :
  enum_value <$> all_entries (store_entry map updated)
  = enum_value <$> all_entries map.
Proof.
  destruct store_entry_chain as (chain & Hc & _).
  unfold all_entries, store_entry. simpl. fold (slot_of map updated).
  rewrite (chain_at_lookup _ _ _ Hc).
  apply (concat_insert_keys _ _ chain); [done|apply chain_replace_keys].
Qed.

Lemma store_entry_elem entry :
  entry ∈ all_entries (store_entry map updated) →
  entry = updated ∨ entry ∈ all_entries map.
Proof.
  destruct store_entry_chain as (chain & Hc & _).
  unfold all_entries, store_entry. simpl. fold (slot_of map updated).
  rewrite (chain_at_lookup _ _ _ Hc).
  intros (c & Hin & He)%elem_of_concat.
  apply list_elem_of_lookup in Hin as [j Hj].
  apply list_lookup_insert_Some in Hj as [(<- & <- & _)|[_ Hj]].
  - apply chain_replace_elem in He as [?|He]; [by left|right].
    apply elem_of_concat. exists chain. split; [|done].
    by eapply list_elem_of_lookup_2.
  - right. apply elem_of_concat. exists c. split; [|done].
    by eapply list_elem_of_lookup_2.
Qed.

Lemma store_entry_updated : updated ∈ all_entries (store_entry map updated).
Proof.
  destruct store_entry_chain as (chain & Hc & Hin).
  unfold all_entries, store_entry. simpl. fold (slot_of map updated).
  rewrite (chain_at_lookup _ _ _ Hc).
  apply elem_of_concat. exists (chain_replace updated chain). split.
  - eapply list_elem_of_lookup_2. apply list_lookup_insert_eq.
    by eapply lookup_lt_Some.
  - eapply chain_replace_updated; [done|].
    by apply find_entry_Some in Hfind as [_ ?].
Qed.

Lemma store_entry_other entry :
  entry ∈ all_entries map → enum_value entry ≠ enum_value updated →
  entry ∈ all_entries (store_entry map updated).
Proof.
  destruct store_entry_chain as (chain & Hc & _).
  unfold all_entries, store_entry. simpl. fold (slot_of map updated).
  rewrite (chain_at_lookup _ _ _ Hc).
  intros (c & Hin & He)%elem_of_concat Hk.
  apply list_elem_of_lookup in Hin as [j Hj].
  apply elem_of_concat. destruct (decide (j = (slot_of map updated))) as [->|Hne].
  - simplify_eq. exists (chain_replace updated chain). split.
    + eapply list_elem_of_lookup_2. apply list_lookup_insert_eq.
      by eapply lookup_lt_Some.
    + by apply chain_replace_other.
  - exists c. split; [|done]. eapply list_elem_of_lookup_2.
    by rewrite list_lookup_insert_ne.
Qed.

Lemma store_entry_placed : placed (buckets (store_entry map updated)).
Proof.
  destruct store_entry_chain as (chain & Hc & Hex).
  pose proof (ok_placed _ Hok) as Hp.
  intros i c e. simpl. fold (slot_of map updated). rewrite length_insert.
  rewrite (chain_at_lookup _ _ _ Hc).
  intros [(<- & <- & _)|[_ Hj]]%list_lookup_insert_Some He.
  - apply chain_replace_elem in He as [->|He]; [done|]. by eapply Hp.
  - by eapply Hp.
Qed.

Lemma store_entry_ok :
  entry_ok (value_size map) (flags map) updated → map_ok (store_entry map updated).
Proof.
  intros Hu. pose proof store_entry_keys as Hkeys.
  destruct Hok as [Hb Hpl Hun Hc Hw Hvs Hfl Hes]. split; simpl; auto.
  - by rewrite length_insert.
  - apply store_entry_placed.
  - by rewrite Hkeys.
  - apply (f_equal length) in Hkeys. rewrite !length_fmap in Hkeys.
    by rewrite Hkeys.
  - intros _. apply Hw. apply find_entry_Some in Hfind as [Hin _].
    intros Heq. rewrite Heq in Hin. by apply elem_of_nil in Hin.
  - apply Forall_forall. intros e [->|He]%store_entry_elem; [done|].
    by eapply Forall_forall in Hes.
Qed.

Lemma store_entry_find key :
  stem_find_entry (store_entry map updated) key
  = if decide (key = enum_value updated) then Some updated
    else stem_find_entry map key.
Proof.
  pose proof store_entry_keys as Hkeys. pose proof store_entry_placed as Hp.
  assert (NoDup (enum_value <$> all_entries (store_entry map updated))) as Hnd.
  { rewrite Hkeys. apply Hok. }
  destruct (decide _) as [->|Hne].
  - apply find_entry_elem; [done..|]. apply store_entry_updated.
  - destruct (stem_find_entry map key) as [e|] eqn:E.
    + apply find_entry_Some in E as [He <-].
      apply find_entry_elem; [done..|]. by apply store_entry_other.
    + apply find_entry_None; [done|]. rewrite Hkeys.
      apply find_entry_None; [apply Hok|done].
Qed.
End store_entry.

Lemma find_entry_cons map map' entry key :
  map_ok map → map_ok map' → all_entries map' ≡ₚ entry :: all_entries map →
  stem_find_entry map' key
  = if decide (key = enum_value entry) then Some entry else stem_find_entry map key.
Proof.
  intros Hok Hok' Hperm. destruct (decide _) as [->|Hne].
  - apply find_entry_elem; [apply Hok'..|]. rewrite Hperm. by apply elem_of_cons; left.
  - destruct (stem_find_entry map key) as [e|] eqn:E.
    + apply find_entry_Some in E as [He <-].
      apply find_entry_elem; [apply Hok'..|]. rewrite Hperm. by apply elem_of_cons; right.
    + apply find_entry_None; [apply Hok'|]. rewrite Hperm. csimpl.
      intros [?|Hin]%elem_of_cons; [done|].
      by apply find_entry_None in E; [|apply Hok].
Qed.

Lemma associate_find mem map key value name o map' o' k :
  map_ok map → INT_MIN ≤ key ≤ INT_MAX → readable (value_size map) value →
  stdem_associate_ex mem map key value name o = (STEM_SUCCESS, map', o') →
  stem_find_entry map' k
  = if decide (k = key) then Some (new_entry mem map key value name)
    else stem_find_entry map k.
Proof.
  intros Hok Hk Hr Ha.
  pose proof (associate_ok _ _ _ _ _ _ _ _ _ Hok Hk Hr Ha) as Hok'.
  apply associate_entries in Ha as (_ & _ & Hent); [|apply Hok..].
  rewrite decide_True in Hent by done. destruct Hent as [Hperm _].
  by rewrite (find_entry_cons map map' _ k Hok Hok' Hperm).
Qed.

(** ** Merging *)

Lemma merge_overwrite_cases mem new_map existing entry fl2 o r o' :
  entry_ok (value_size new_map) (flags new_map) existing →
  entry_ok (value_size new_map) fl2 entry →
  merge_overwrite mem new_map existing entry o = (r, o') →
  r = Undefined ∨ r = Err STEM_ERROR_OUT_OF_MEMORY ∨
  r = Ok (store_entry new_map (overwritten (flags new_map) existing entry)).
Proof.
  intros [_ _ Hx] [_ _ He]. unfold merge_overwrite, overwritten, stored_name.
  assert ((if 0 <? value_size new_map
           then memcpy mem (value existing) (value entry) (value_size new_map)
           else Some (value entry)) = None ∨
          (if 0 <? value_size new_map
           then memcpy mem (value existing) (value entry) (value_size new_map)
           else Some (value entry)) = Some (value entry)) as [-> | ->].
  { destruct (0 <? value_size new_map) eqn:E; [|by right].
    apply Z.ltb_lt in E.
    destruct (Hx E) as [->|(old & -> & Hold)]; [by left|].
    destruct (He E) as [->|(b & -> & Hb)]; [by left|right]. simpl.
    rewrite take_ge, drop_ge, app_nil_r by lia. done. }
  - intros [= <- <-]. by left.
  - alloc_unfold.
    destruct (name entry) as [s|]; [|intros [= <- <-]; auto].
    destruct (has_flag _ _); [intros [= <- <-]; auto|].
    destruct o as [|[] o]; intros [= <- <-]; auto.
Qed.

Lemma overwritten_ok vs fl fl2 existing entry :
  entry_ok vs fl existing → entry_ok vs fl2 entry →
  entry_ok vs fl (overwritten fl existing entry).
Proof.
  intros [Hk _ _] [_ _ Hv]. split; simpl; [done|apply stored_name_idemp|done].
Qed.

Lemma merge_second_ok mem overwrite entries :
  ∀ new_map o map' o' fl2,
    map_ok new_map →
    Forall (entry_ok (value_size new_map) fl2) entries →
    merge_second mem overwrite new_map entries o = (Ok map', o') →
    map_ok map' ∧ value_size map' = value_size new_map ∧
    flags map' = flags new_map.
Proof.
  induction entries as [|e es IH]; intros new_map o map' o' fl2 Hok Hes; simpl.
  { intros [= <- <-]. done. }
  apply Forall_cons in Hes as [He Hes]. alloc_unfold.
  destruct (stem_find_entry new_map (enum_value e)) as [existing|] eqn:Hf.
  - destruct overwrite; [|by eapply IH].
    destruct (merge_overwrite _ _ _ _ _) as [r o1] eqn:Hm.
    assert (entry_ok (value_size new_map) (flags new_map) existing) as Hx.
    { apply find_entry_Some in Hf as [Hin _].
      pose proof (ok_entries _ Hok) as Hall. by eapply Forall_forall in Hall. }
    eapply merge_overwrite_cases in Hm as [->|[->| ->]]; [done|done| |done..].
    assert (enum_value (overwritten (flags new_map) existing e) = enum_value e) as Hk.
    { by apply find_entry_Some in Hf as [_ ?]. }
    intros H. eapply IH in H as (Hok' & Hvs & Hfl); [done| |done].
    apply (store_entry_ok _ _ existing); [done|by rewrite Hk|].
    by eapply overwritten_ok.
  - destruct (stdem_associate_ex _ _ _ _ _ _) as [[err map1] o1] eqn:Ha.
    destruct (decide (err ≠ STEM_SUCCESS)); [done|].
    pose proof (associate_ok _ _ _ _ _ _ _ _ _ Hok (key_is_int _ _ _ He)
                  (entry_ok_readable _ _ _ He) Ha) as Hok1.
    apply associate_entries in Ha as (Hvs & Hfl & _); [|apply Hok..].
    intros H. eapply IH in H as (Hok' & Hvs' & Hfl'); [|done|by rewrite Hvs].
    split_and!; [done|congruence..].
Qed.

Lemma flags_lor_range fl1 fl2 :
  0 ≤ fl1 < 2 ^ 32 → 0 ≤ fl2 < 2 ^ 32 → 0 ≤ Z.lor fl1 fl2 < 2 ^ 32.
Proof.
  intros H1 H2. split; [apply Z.lor_nonneg; lia|].
  destruct (decide (Z.lor fl1 fl2 = 0)) as [->|Hne]; [done|].
  apply Z.log2_lt_pow2; [pose proof (Z.lor_nonneg fl1 fl2); lia|].
  rewrite Z.log2_lor by lia.
  destruct (decide (fl1 = 0)) as [->|], (decide (fl2 = 0)) as [->|];
    simpl; rewrite ?Z.max_lub_lt_iff; try lia.
  - split; [done|]. apply Z.log2_lt_pow2; lia.
  - split; [|done]. apply Z.log2_lt_pow2; lia.
  - split; apply Z.log2_lt_pow2; lia.
Qed.

Lemma merge_ok mem map1 map2 overwrite o map' o' :
  map_ok map1 → map_ok map2 →
  stdem_merge mem map1 map2 overwrite o = (Ok map', o') →
  map_ok map'.
Proof.
  intros Hok1 Hok2. unfold stdem_merge. alloc_unfold.
  destruct (decide (value_size map1 ≠ value_size map2)) as [|Hvs]; [done|].
  assert (value_size map1 = value_size map2) as Heq by lia.
  destruct (stdem_create_ex _ _ _ _) as [[new_map| |] o1] eqn:Hc; try done.
  pose proof (to_size_t_range (count map1 + count map2)) as Hr.
  pose proof (create_ok _ _ _ _ _ _ (proj1 Hr) (ok_value_size _ Hok1)
                (flags_lor_range _ _ (ok_flags _ Hok1) (ok_flags _ Hok2)) Hc) as Hok.
  apply create_cases in Hc as (_ & _ & Hmap); [|lia].
  assert (value_size new_map = value_size map1) as Hv by by subst.
  destruct (associate_all _ _ _ _) as [[err new_map'] o2] eqn:Ha.
  destruct (decide (err ≠ STEM_SUCCESS)); [done|].
  eapply associate_all_spec in Ha as (Hok' & Hvs' & _ & _);
    [|done|rewrite Hv; apply (ok_entries _ Hok1)].
  intros H. eapply merge_second_ok in H as (? & _ & _); [done..|].
  rewrite Hvs', Hv, Heq. apply (ok_entries _ Hok2).
Qed.

(** ** Reading a stream *)

Lemma to_int_range x : INT_MIN ≤ to_int x ≤ INT_MAX.
Proof.
  unfold to_int, to_uint32, INT_MIN, INT_MAX.
  change (2 ^ 32) with 4294967296. change (2 ^ 31) with 2147483648.
  pose proof (Z.mod_pos_bound x 4294967296).
  destruct (_ <? _) eqn:E; lia.
Qed.

Lemma fread_Ok n stream data rest :
  fread n stream = Ok (data, rest) →
  data = take (Z.to_nat n) stream ∧ rest = drop (Z.to_nat n) stream ∧
  length data = Z.to_nat n.
Proof.
  unfold fread. destruct (decide _); [|done]. intros [= <- <-].
  split_and!; [done..|]. rewrite length_take. lia.
Qed.

Lemma read_value_cases vs stream o value rest o' :
  read_value vs stream o = (Ok (value, rest), o') → readable vs value.
Proof.
  unfold read_value. alloc_unfold. destruct (0 <? vs) eqn:E.
  - destruct o as [|[] o]; simpl; try done;
      destruct (fread vs stream) as [[vb s]| |] eqn:Hr; simpl; try done;
      intros [= <- <- <-]; apply fread_Ok in Hr as (_ & _ & Hl); simpl; lia.
  - destruct (fread 8 stream) as [[vb s]| |]; simpl; try done.
    by intros [= <- <- <-].
Qed.

Lemma deserialize_entry_cases mem vs map stream o map' rest o' :
  deserialize_entry mem vs map stream o = (Ok (map', rest), o') →
  ∃ key value name o1,
    INT_MIN ≤ key ≤ INT_MAX ∧ readable vs value ∧
    stdem_associate_ex mem map key value name o1 = (STEM_SUCCESS, map', o').
Proof.
  unfold deserialize_entry. unfold mbind, mret, Alloc_bind, Alloc_ret.
  destruct (fread 4 stream) as [[kb s1]| |]; [|done..].
  destruct (fread 2 s1) as [[lb s2]| |]; [|done..].
  destruct (read_name _ _ _) as [[[nm s3]| |] o1]; [|done..].
  destruct (read_value _ _ _) as [[[v s4]| |] o2] eqn:Hv; [|done..].
  destruct (stdem_associate_ex _ _ _ _ _ _) as [[err m1] o3] eqn:Ha.
  destruct (decide (err = STEM_SUCCESS)) as [->|Hne].
  - rewrite decide_False by (by intros []). intros [= <- <- <-].
    eexists _, _, _, _. split_and!; [apply to_int_range..| |done].
    by eapply read_value_cases.
  - by rewrite decide_True.
Qed.

Lemma deserialize_entries_ok mem n :
  ∀ map stream o map' o',
    map_ok map →
    deserialize_entries mem n (value_size map) map stream o = (Ok map', o') →
    map_ok map'.
Proof.
  induction n as [|n IH]; intros map stream o map' o' Hok; simpl.
  { by intros [= <- <-]. }
  unfold mbind, mret, Alloc_bind, Alloc_ret.
  destruct (deserialize_entry _ _ _ _ _) as [[[m1 s1]| |] o1] eqn:Hd; [|done..].
  apply deserialize_entry_cases in Hd as (key & v & nm & o0 & Hk & Hr & Ha).
  pose proof (associate_ok _ _ _ _ _ _ _ _ _ Hok Hk Hr Ha) as Hok1.
  apply associate_entries in Ha as (Hvs & _ & _); [|apply Hok..].
  rewrite <- Hvs. by apply IH.
Qed.

Lemma le_value_range bs : 0 ≤ le_value bs < 256 ^ Z.of_nat (length bs).
Proof.
  induction bs as [|b bs IH]; simpl length; [simpl; lia|].
  rewrite Nat2Z.inj_succ, Z.pow_succ_r by lia. simpl le_value.
  unfold Z_of_byte. pose proof (Byte.to_N_bounded b). lia.
Qed.

Lemma deserialize_ok mem stream o map o' :
  stdem_deserialize mem stream o = (Ok map, o') → map_ok map.
Proof.
  unfold stdem_deserialize. unfold mbind at 6, mret, Alloc_bind, Alloc_ret.
  destruct (fread 4 stream) as [[mg s1]| |]; simpl; [|done..].
  destruct (decide (le_value mg ≠ ENUM_MAGIC)); [done|].
  destruct (fread 2 s1) as [[ver s2]| |]; simpl; [|done..].
  destruct (decide (le_value ver ≠ FORMAT_VERSION)); [done|].
  destruct (fread 8 s2) as [[cnt s3]| |] eqn:H1; simpl; [|done..].
  destruct (fread 8 s3) as [[vs s4]| |] eqn:H2; simpl; [|done..].
  destruct (fread 4 s4) as [[fl s5]| |] eqn:H3; simpl; [|done..].
  destruct (stdem_create_ex _ _ _ _) as [[m0| |] o1] eqn:Hc; [|done..].
  apply fread_Ok in H1 as (_ & _ & L1), H2 as (_ & _ & L2), H3 as (_ & _ & L3).
  pose proof (le_value_range cnt) as R1. pose proof (le_value_range vs) as R2.
  pose proof (le_value_range fl) as R3. rewrite L1 in R1. rewrite L2 in R2. rewrite L3 in R3.
  change (256 ^ Z.of_nat (Z.to_nat 8)) with 18446744073709551616 in R1, R2.
  change (256 ^ Z.of_nat (Z.to_nat 4)) with 4294967296 in R3.
  assert (map_ok m0) as Hok0.
  { eapply create_ok; [| | |exact Hc]; unfold SIZE_MAX;
      change (2 ^ 64) with 18446744073709551616;
      change (2 ^ 32) with 4294967296; lia. }
  apply create_cases in Hc as (_ & _ & ->); [|lia].
  intros H. by eapply (deserialize_entries_ok mem _ (mkMap _ _ _ _)) in H.
Qed.

(** ** Every reachable map satisfies the invariant *)

Lemma reachable_ok map : reachable map → map_ok map.
Proof.
  induction 1.
  - eapply create_ok; [| | |eassumption]; [lia|done|done].
  - by eapply associate_ok.
  - by eapply clear_ok.
  - by eapply copy_spec.
  - eapply merge_ok; [| |eassumption]; assumption.
  - by eapply deserialize_ok.
Qed.

(** ** The flag [STEM_FLAGS_COPY_VALUES] *)

Lemma has_flag_with_copy_values fl f :
  f = STEM_FLAGS_READONLY ∨ f = STEM_FLAGS_NO_NAMES →
  has_flag (Z.lor fl STEM_FLAGS_COPY_VALUES) f = has_flag fl f.
Proof.
  intros [-> | ->]; rewrite has_flag_lor;
    [change (has_flag STEM_FLAGS_COPY_VALUES STEM_FLAGS_READONLY) with false
    |change (has_flag STEM_FLAGS_COPY_VALUES STEM_FLAGS_NO_NAMES) with false];
    apply orb_false_r.
Qed.

Lemma create_entry_ignores_copy_values mem map key value name o :
  stem_create_entry mem (with_flag STEM_FLAGS_COPY_VALUES map) key value name o
  = stem_create_entry mem map key value name o.
Proof.
  unfold stem_create_entry, with_flag. simpl.
  rewrite has_flag_with_copy_values by auto. done.
Qed.

Lemma associate_ignores_copy_values mem map key value name o :
  stdem_associate_ex mem (with_flag STEM_FLAGS_COPY_VALUES map) key value name o
  = let '(err, map', o') := stdem_associate_ex mem map key value name o in
    (err, with_flag STEM_FLAGS_COPY_VALUES map', o').
Proof.
  unfold stdem_associate_ex.
  change (flags (with_flag STEM_FLAGS_COPY_VALUES map))
    with (Z.lor (flags map) STEM_FLAGS_COPY_VALUES).
  rewrite has_flag_with_copy_values by auto.
  change (stem_find_entry (with_flag STEM_FLAGS_COPY_VALUES map) key)
    with (stem_find_entry map key).
  change (num_buckets (with_flag STEM_FLAGS_COPY_VALUES map)) with (num_buckets map).
  change (count (with_flag STEM_FLAGS_COPY_VALUES map)) with (count map).
  destruct (has_flag _ _); [done|]. destruct (stem_find_entry _ _); [done|].
  unfold stem_resize_map. alloc_unfold.
  destruct (load_factor_exceeded _ _).
  - destruct (_ =? 0); [done|]. destruct o as [|[] o]; simpl; try done.
    + change (mkMap (count map) (value_size map)
                (Z.lor (flags map) STEM_FLAGS_COPY_VALUES)
                (rehash (to_size_t (num_buckets map * 2)) (buckets map)))
        with (with_flag STEM_FLAGS_COPY_VALUES
                (mkMap (count map) (value_size map) (flags map)
                   (rehash (to_size_t (num_buckets map * 2)) (buckets map)))).
      rewrite create_entry_ignores_copy_values.
      destruct (stem_create_entry _ _ _ _ _ _) as [[?|?] ?]; done.
    + change (mkMap (count map) (value_size map)
                (Z.lor (flags map) STEM_FLAGS_COPY_VALUES)
                (rehash (to_size_t (num_buckets map * 2)) (buckets map)))
        with (with_flag STEM_FLAGS_COPY_VALUES
                (mkMap (count map) (value_size map) (flags map)
                   (rehash (to_size_t (num_buckets map * 2)) (buckets map)))).
      rewrite create_entry_ignores_copy_values.
      destruct (stem_create_entry _ _ _ _ _ _) as [[?|?] ?]; done.
  - simpl. rewrite create_entry_ignores_copy_values.
    destruct (stem_create_entry _ _ _ _ _ _) as [[?|?] ?]; done.
Qed.

(** ** Growth *)

Lemma grown_length map :
  0 < num_buckets map →
  (load_factor_exceeded (count map) (num_buckets map) = true →
   0 < to_size_t (num_buckets map * 2)) →
  (0 < length (grown map))%nat ∧ concat (grown map) ≡ₚ all_entries map ∧
  Z.of_nat (length (grown map))
  = if load_factor_exceeded (count map) (num_buckets map)
    then to_size_t (num_buckets map * 2) else num_buckets map.
Proof.
  unfold grown, num_buckets. intros Hn Hsz.
  destruct (load_factor_exceeded _ _); [|split_and!; [lia|done..]].
  cbv iota.
  destruct (rehash_spec (to_size_t (Z.of_nat (length (buckets map)) * 2)) (buckets map))
    as (Hl & _ & Hperm); [by apply Hsz|].
  rewrite Hl. specialize (Hsz eq_refl). split_and!; [lia|done|lia].
Qed.

Lemma linked_find map entry :
  (0 < length (grown map))%nat →
  stem_find_entry (linked map entry) (enum_value entry) = Some entry.
Proof.
  intros Hn. unfold stem_find_entry, num_buckets, linked. simpl.
  rewrite length_link_entry, link_entry_head by done.
  unfold chain_find. simpl. by rewrite Z.eqb_refl.
Qed.

(** ** Merging, key by key *)

Lemma stored_value_id mem vs fl entry :
  entry_ok vs fl entry → stored_value mem vs (value entry) = value entry.
Proof.
  intros [_ _ Hv]. unfold stored_value.
  destruct (0 <? vs) eqn:E; simpl; [|done].
  destruct (Hv ltac:(lia)) as [->|(b & -> & Hl)]; simpl; [done|].
  f_equal. apply take_ge. lia.
Qed.

Lemma merge_second_keeps mem entries :
  ∀ new_map o map' o' fl2,
    map_ok new_map →
    Forall (entry_ok (value_size new_map) fl2) entries →
    merge_second mem false new_map entries o = (Ok map', o') →
    ∀ key entry,
      stem_find_entry new_map key = Some entry →
      stem_find_entry map' key = Some entry.
Proof.
  induction entries as [|e es IH]; intros new_map o map' o' fl2 Hok Hes; simpl.
  { by intros [= <- <-]. }
  apply Forall_cons in Hes as [He Hes]. alloc_unfold.
  destruct (stem_find_entry new_map (enum_value e)) as [existing|] eqn:Hf.
  - by eapply IH.
  - destruct (stdem_associate_ex _ _ _ _ _ _) as [[err map1] o1] eqn:Ha.
    destruct (decide (err = STEM_SUCCESS)) as [->|Hne];
      [rewrite decide_False by (by intros [])|by rewrite decide_True].
    pose proof (associate_ok _ _ _ _ _ _ _ _ _ Hok (key_is_int _ _ _ He)
                  (entry_ok_readable _ _ _ He) Ha) as Hok1.
    pose proof (λ k, associate_find _ _ _ _ _ _ _ _ k Hok (key_is_int _ _ _ He)
                  (entry_ok_readable _ _ _ He) Ha) as Hfind.
    apply associate_entries in Ha as (Hvs & _ & _); [|apply Hok..].
    intros H key entry Hk. eapply IH; [exact Hok1|by rewrite Hvs|exact H|].
    rewrite Hfind. destruct (decide (key = enum_value e)) as [->|]; [congruence|done].
Qed.

Lemma merge_second_overwrites mem entries :
  ∀ new_map o map' o' fl2,
    map_ok new_map →
    Forall (entry_ok (value_size new_map) fl2) entries →
    NoDup (enum_value <$> entries) →
    merge_second mem true new_map entries o = (Ok map', o') →
    (∀ entry, entry ∈ entries →
       ∃ held, stem_find_entry map' (enum_value entry) = Some held ∧
               value held = value entry) ∧
    (∀ key, key ∉ enum_value <$> entries →
       stem_find_entry map' key = stem_find_entry new_map key).
Proof.
  induction entries as [|e es IH]; intros new_map o map' o' fl2 Hok Hes Hnd; simpl.
  { intros [= <- <-]. split; [by intros ? ?%elem_of_nil|done]. }
  apply Forall_cons in Hes as [He Hes]. csimpl in Hnd.
  apply NoDup_cons in Hnd as [Hfresh Hnd]. alloc_unfold.
  assert (∀ map1 o1 held,
    map_ok map1 → value_size map1 = value_size new_map →
    (∀ k, stem_find_entry map1 k
          = if decide (k = enum_value e) then Some held
            else stem_find_entry new_map k) →
    value held = value e →
    merge_second mem true map1 es o1 = (Ok map', o') →
    (∀ entry, entry ∈ e :: es →
       ∃ held, stem_find_entry map' (enum_value entry) = Some held ∧
               value held = value entry) ∧
    (∀ key, key ∉ enum_value e :: (enum_value <$> es) →
       stem_find_entry map' key = stem_find_entry new_map key)) as Hstep.
  { intros map1 o1 held Hok1 Hvs Hfind Hval H.
    eapply IH in H as [Hin Hout]; [|done|by rewrite Hvs|done].
    split.
    - intros entry [->|Hentry]%elem_of_cons; [|by apply Hin].
      exists held. split; [|done]. rewrite Hout by done.
      rewrite Hfind. by rewrite decide_True.
    - intros key Hkey. apply not_elem_of_cons in Hkey as [Hk1 Hk2].
      rewrite Hout by done. rewrite Hfind. by rewrite decide_False. }
  destruct (stem_find_entry new_map (enum_value e)) as [existing|] eqn:Hf.
  - destruct (merge_overwrite _ _ _ _ _) as [r o1] eqn:Hm.
    assert (entry_ok (value_size new_map) (flags new_map) existing) as Hx.
    { apply find_entry_Some in Hf as [Hin _].
      pose proof (ok_entries _ Hok) as Hall. by eapply Forall_forall in Hall. }
    eapply merge_overwrite_cases in Hm as [->|[->| ->]]; [done|done| |done..].
    assert (enum_value (overwritten (flags new_map) existing e) = enum_value e) as Hk.
    { by apply find_entry_Some in Hf as [_ ?]. }
    assert (stem_find_entry new_map
              (enum_value (overwritten (flags new_map) existing e))
            = Some existing) as Hf' by by rewrite Hk.
    apply Hstep with (held := overwritten (flags new_map) existing e);
      [|done| |done].
    + apply (store_entry_ok _ _ existing); [done..|]. by eapply overwritten_ok.
    + intros k. rewrite (store_entry_find _ _ existing) by done. by rewrite Hk.
  - destruct (stdem_associate_ex _ _ _ _ _ _) as [[err map1] o1] eqn:Ha.
    destruct (decide (err = STEM_SUCCESS)) as [->|Hne];
      [rewrite decide_False by (by intros [])|by rewrite decide_True].
    pose proof (associate_ok _ _ _ _ _ _ _ _ _ Hok (key_is_int _ _ _ He)
                  (entry_ok_readable _ _ _ He) Ha) as Hok1.
    pose proof (λ k, associate_find _ _ _ _ _ _ _ _ k Hok (key_is_int _ _ _ He)
                  (entry_ok_readable _ _ _ He) Ha) as Hfind.
    apply associate_entries in Ha as (Hvs & _ & _); [|apply Hok..].
    apply Hstep with (held := new_entry mem new_map (enum_value e) (value e) (name e));
      [done..|]. simpl. by eapply stored_value_id.
Qed.

(** ** The binary codec *)

Lemma Z_of_byte_of_Z x : Z_of_byte (byte_of_Z x) = x `mod` 256.
Proof.
  unfold Z_of_byte, byte_of_Z.
  pose proof (Z.mod_pos_bound x 256 ltac:(lia)) as Hr.
  destruct (Byte.of_N (Z.to_N (x `mod` 256))) as [b|] eqn:E.
  - apply Byte.to_of_N in E. simpl. rewrite E. lia.
  - apply Byte.of_N_None_iff in E. lia.
Qed.

Lemma length_le_bytes n x : length (le_bytes n x) = n.
Proof. revert x. induction n as [|n IH]; intros x; simpl; [done|]. by rewrite IH. Qed.

Lemma le_value_le_bytes n x : le_value (le_bytes n x) = x `mod` 256 ^ Z.of_nat n.
Proof.
  revert x. induction n as [|n IH]; intros x.
  - simpl. by rewrite Z.mod_1_r.
  - simpl le_bytes. simpl le_value. rewrite IH, Z_of_byte_of_Z.
    rewrite Nat2Z.inj_succ, Z.pow_succ_r by lia.
    assert (0 < 256 ^ Z.of_nat n) by (apply Z.pow_pos_nonneg; lia).
    rewrite Z.rem_mul_r by lia. done.
Qed.

Lemma fread_app (data rest : list byte) n :
  n = Z.of_nat (length data) → fread n (data ++ rest) = Ok (data, rest).
Proof.
  intros ->. unfold fread. rewrite Nat2Z.id.
  rewrite decide_True by (rewrite length_app; lia).
  by rewrite take_app_length, drop_app_length.
Qed.

Lemma to_int_of_int key :
  INT_MIN ≤ key ≤ INT_MAX → to_int (le_value (le_bytes 4 key)) = key.
Proof.
  unfold INT_MIN, INT_MAX, to_int, to_uint32. rewrite le_value_le_bytes.
  change (256 ^ Z.of_nat 4) with 4294967296. change (2 ^ 32) with 4294967296.
  change (2 ^ 31) with 2147483648. intros Hk.
  rewrite Z.mod_mod by lia.
  destruct (decide (0 ≤ key)).
  - rewrite Z.mod_small by lia. destruct (_ <? _) eqn:E; lia.
  - assert (key `mod` 4294967296 = key + 4294967296) as ->.
    { symmetry. apply (Z.mod_unique _ _ (-1)); lia. }
    destruct (_ <? _) eqn:E; lia.
Qed.

Lemma length_list_byte_of_string s :
  length (String.list_byte_of_string s) = String.length s.
Proof.
  unfold String.list_byte_of_string. rewrite length_map.
  induction s as [|a s IH]; simpl; [done|]. by rewrite IH.
Qed.

Lemma entry_ok_name vs fl entry s :
  entry_ok vs fl entry → name entry = Some s →
  c_str s = s ∧ has_flag fl STEM_FLAGS_NO_NAMES = false.
Proof.
  intros [_ Hn _] Hs. rewrite Hs in Hn. unfold stored_name in Hn.
  destruct (has_flag _ _); [done|]. by simplify_eq.
Qed.

Lemma name_length_fits vs fl entry :
  entry_ok vs fl entry → name_fits entry →
  name_length entry
  = match name entry with
    | Some s => Z.of_nat (String.length s)
    | None => 0
    end.
Proof.
  intros Hok Hfit. unfold name_length, name_fits in *.
  destruct (name entry) as [s|] eqn:E; [|done].
  destruct (entry_ok_name _ _ _ _ Hok E) as [Hc _].
  unfold strlen in *. rewrite Hc in *. unfold to_uint16.
  apply Z.mod_small. lia.
Qed.

Lemma parse_encode_entry vs fl entry rest :
  0 < vs → entry_ok vs fl entry → name_fits entry →
  (∃ bytes, value entry = Heap bytes) →
  parse_entry vs (encode_entry entry ++ rest)
  = Ok (enum_value entry, reread_name (name entry), value entry, rest).
Proof.
  intros Hvs Hok Hfit [bytes Hb].
  unfold parse_entry, parse_name, parse_value, encode_entry.
  rewrite <- !app_assoc.
  rewrite fread_app by by rewrite length_le_bytes. cbn [mbind result_bind].
  rewrite fread_app by by rewrite length_le_bytes. cbn [mbind result_bind].
  rewrite to_int_of_int by apply Hok.
  rewrite le_value_le_bytes. change (256 ^ Z.of_nat 2) with (2 ^ 16).
  assert (name_length entry `mod` 2 ^ 16 = name_length entry) as ->.
  { unfold name_length, to_uint16. destruct (name entry); [|done].
    by rewrite Z.mod_mod. }
  rewrite (name_length_fits _ _ _ Hok Hfit).
  assert ((0 <? vs) = true) as -> by by apply Z.ltb_lt.
  assert (Z.of_nat (length bytes) = vs) as Hlen.
  { destruct (value_is_stored _ _ _ Hok Hvs) as [?|(b & ? & ?)];
      unfold NULL in *; congruence. }
  rewrite Hb.
  destruct (name entry) as [s|] eqn:E; simpl.
  - destruct (entry_ok_name _ _ _ _ Hok E) as [Hc _]. rewrite Hc.
    destruct s as [|a s].
    + simpl. rewrite fread_app by done. done.
    + assert ((0 <? Z.of_nat (String.length (String.String a s))) = true) as ->.
      { apply Z.ltb_lt. simpl. lia. }
      rewrite Nat2Z.id, <- length_list_byte_of_string, firstn_all.
      rewrite fread_app by by rewrite length_list_byte_of_string.
      simpl. rewrite fread_app by done. simpl.
      rewrite String.string_of_list_byte_of_string. done.
  - rewrite fread_app by done. done.
Qed.

Lemma read_name_cases name_len stream o r o' :
  read_name name_len stream o = (r, o') →
  r = Err STEM_ERROR_OUT_OF_MEMORY ∨ r = parse_name name_len stream.
Proof.
  unfold read_name, parse_name. alloc_unfold.
  destruct (0 <? name_len); [|intros [= <- <-]; by right].
  destruct o as [|[] o]; intros [= <- <-]; auto.
Qed.

Lemma read_value_parse vs stream o r o' :
  read_value vs stream o = (r, o') →
  r = Err STEM_ERROR_OUT_OF_MEMORY ∨ r = parse_value vs stream.
Proof.
  unfold read_value, parse_value. alloc_unfold.
  destruct (0 <? vs); [|intros [= <- <-]; by right].
  destruct o as [|[] o]; intros [= <- <-]; auto.
Qed.

Lemma read_name_no_failure name_len stream :
  read_name name_len stream [] = (parse_name name_len stream, []).
Proof. unfold read_name, parse_name. by destruct (0 <? name_len). Qed.

Lemma read_value_no_failure vs stream :
  read_value vs stream [] = (parse_value vs stream, []).
Proof. unfold read_value, parse_value. by destruct (0 <? vs). Qed.

Lemma deserialize_entry_parse mem vs map stream o map' rest o' :
  deserialize_entry mem vs map stream o = (Ok (map', rest), o') →
  ∃ key name value o1,
    parse_entry vs stream = Ok (key, name, value, rest) ∧
    stdem_associate_ex mem map key value name o1 = (STEM_SUCCESS, map', o').
Proof.
  unfold deserialize_entry, parse_entry.
  unfold mbind, mret, Alloc_bind, Alloc_ret, result_bind.
  destruct (fread 4 stream) as [[kb s1]| |]; [|done..].
  destruct (fread 2 s1) as [[lb s2]| |]; [|done..].
  destruct (read_name _ _ _) as [named o1] eqn:Hn.
  apply read_name_cases in Hn as [-> | ->]; [done|].
  destruct (parse_name _ _) as [[nm s3]| |]; [|done..].
  destruct (read_value _ _ _) as [valued o2] eqn:Hv.
  apply read_value_parse in Hv as [-> | ->]; [done|].
  destruct (parse_value _ _) as [[v s4]| |]; [|done..].
  destruct (stdem_associate_ex _ _ _ _ _ _) as [[err m1] o3] eqn:Ha.
  destruct (decide (err = STEM_SUCCESS)) as [->|Hne];
    [rewrite decide_False by (by intros [])|by rewrite decide_True].
  intros [= <- <- <-]. by eexists _, _, _, _.
Qed.

Lemma deserialize_entry_no_failure mem vs map stream :
  deserialize_entry mem vs map stream []
  = match parse_entry vs stream with
    | Ok (key, name, value, rest) =>
        let '(err, map', o') := stdem_associate_ex mem map key value name [] in
        (if decide (err ≠ STEM_SUCCESS) then Err err else Ok (map', rest), o')
    | Err e => (Err e, [])
    | Undefined => (Undefined, [])
    end.
Proof.
  unfold deserialize_entry, parse_entry.
  unfold mbind, mret, Alloc_bind, Alloc_ret, result_bind.
  destruct (fread 4 stream) as [[kb s1]| |]; [|done..].
  destruct (fread 2 s1) as [[lb s2]| |]; [|done..].
  rewrite read_name_no_failure.
  destruct (parse_name _ _) as [[nm s3]| |]; [|done..].
  rewrite read_value_no_failure.
  destruct (parse_value _ _) as [[v s4]| |]; [|done..].
  destruct (stdem_associate_ex _ _ _ _ _ _) as [[err m1] o3].
  by destruct (decide _).
Qed.

Arguments encode_entry : simpl never.

Lemma reread_is_new_entry mem map entry :
  0 < value_size map → encodable (value_size map) (flags map) entry →
  new_entry mem map (enum_value entry) (value entry) (reread_name (name entry))
  = reread entry.
Proof.
  intros Hvs (Hok & _ & _). unfold new_entry, reread. f_equal.
  - unfold reread_name. destruct (name entry) as [s|] eqn:E; [|done].
    destruct (entry_ok_name _ _ _ _ Hok E) as [Hc Hf].
    destruct (decide _); [done|]. simpl. by rewrite Hf, Hc.
  - by eapply stored_value_id.
Qed.

Lemma deserialize_entries_spec mem vs fl entries :
  ∀ map rest o map' o',
    map_ok map → value_size map = vs → flags map = fl → 0 < vs →
    Forall (encodable vs fl) entries →
    deserialize_entries mem (length entries) vs map
      (concat (encode_entry <$> entries) ++ rest) o = (Ok map', o') →
    map_ok map' ∧ value_size map' = vs ∧ flags map' = fl ∧
    all_entries map' ≡ₚ (reread <$> entries) ++ all_entries map.
Proof.
  induction entries as [|e es IH]; intros map rest o map' o' Hok Hvs Hfl Hpos Hes.
  { simpl. by intros [= <- <-]. }
  apply Forall_cons in Hes as [He Hes].
  rewrite fmap_cons. cbn [length concat deserialize_entries]. rewrite <- app_assoc.
  unfold mbind, mret, Alloc_bind, Alloc_ret.
  destruct (deserialize_entry _ _ _ _ _) as [[[m1 s1]| |] o1] eqn:Hd; [|done..].
  apply deserialize_entry_parse in Hd as (key & nm & v & o0 & Hparse & Ha).
  destruct He as (Heok & Hfit & Hheap).
  rewrite (parse_encode_entry vs fl) in Hparse by done.
  injection Hparse as <- <- <- <-.
  pose proof (associate_ok _ _ _ _ _ _ _ _ _ Hok (key_is_int _ _ _ Heok)
                ltac:(rewrite Hvs; by eapply entry_ok_readable) Ha) as Hok1.
  apply associate_entries in Ha as (Hvs1 & Hfl1 & Hent); [|apply Hok..].
  rewrite decide_True in Hent by done. destruct Hent as [Hperm _].
  rewrite reread_is_new_entry in Hperm by (rewrite ?Hvs, ?Hfl; done).
  intros H. eapply IH in H as (Hok' & Hvs' & Hfl' & Hperm'); [|done|congruence..|done].
  split_and!; [done..|]. rewrite Hperm', Hperm, fmap_cons.
  symmetry. apply Permutation_middle.
Qed.

Lemma create_entry_no_failure mem map key value name :
  stem_create_entry mem map key value name []
  = (inr (new_entry mem map key value name), []).
Proof.
  unfold stem_create_entry, new_entry, stored_value, stored_name. alloc_unfold.
  simpl. destruct (_ && _); simpl; destruct name; try done;
    by destruct (has_flag _ _).
Qed.

Lemma associate_no_failure mem map key value name :
  has_flag (flags map) STEM_FLAGS_READONLY = false →
  stem_find_entry map key = None →
  load_factor_exceeded (count map) (num_buckets map) = false →
  stdem_associate_ex mem map key value name []
  = (STEM_SUCCESS,
     {| count := to_size_t (count map + 1); value_size := value_size map;
        flags := flags map;
        buckets := link_entry (buckets map) (new_entry mem map key value name) |},
     []).
Proof.
  intros Hro Hf Hl. unfold stdem_associate_ex. rewrite Hro, Hf, Hl.
  alloc_unfold. simpl. by rewrite create_entry_no_failure.
Qed.

Lemma associate_succeeds mem map key value name :
  has_flag (flags map) STEM_FLAGS_READONLY = false →
  stem_find_entry map key = None →
  (load_factor_exceeded (count map) (num_buckets map) = true →
   to_size_t (num_buckets map * 2) ≠ 0) →
  stdem_associate_ex mem map key value name []
  = (STEM_SUCCESS, linked map (new_entry mem map key value name), []).
Proof.
  intros Hro Hf Hsz.
  unfold stdem_associate_ex, linked, grown, new_entry, stem_resize_map.
  rewrite Hro, Hf. alloc_unfold.
  destruct (load_factor_exceeded _ _).
  - destruct (Z.eqb_spec (to_size_t (num_buckets map * 2)) 0) as [E|E];
      [by destruct Hsz|].
    simpl. by rewrite create_entry_no_failure.
  - simpl. by rewrite create_entry_no_failure.
Qed.

(** Reading back entries never fails when no allocation does: the table
    may grow on the way, but a table of 2^63 buckets, whose doubling would
    not fit [size_t], is never found over its load factor. *)
Lemma deserialize_entries_succeed mem vs fl entries :
  ∀ map rest,
    map_ok map → value_size map = vs → flags map = fl → 0 < vs →
    has_flag fl STEM_FLAGS_READONLY = false →
    Forall (encodable vs fl) entries →
    NoDup ((enum_value <$> entries) ++ (enum_value <$> all_entries map)) →
    0 ≤ count map →
    count map + Z.of_nat (length entries) ≤ 2 ^ 62 →
    num_buckets map < 2 ^ 64 →
    ∃ map',
      deserialize_entries mem (length entries) vs map
        (concat (encode_entry <$> entries) ++ rest) [] = (Ok map', []).
Proof.
  induction entries as [|e es IH];
    intros map rest Hok Hvs Hfl Hpos Hro Hes Hnd Hc0 Hc Hnb.
  { simpl. by eexists. }
  apply Forall_cons in Hes as [He Hes].
  rewrite fmap_cons. cbn [length concat deserialize_entries]. rewrite <- app_assoc.
  unfold mbind, mret, Alloc_bind, Alloc_ret.
  rewrite deserialize_entry_no_failure.
  destruct He as (Heok & Hfit & Hheap).
  rewrite (parse_encode_entry vs fl) by done.
  csimpl in Hnd. apply NoDup_cons in Hnd as [Hfresh Hnd].
  assert (stem_find_entry map (enum_value e) = None) as Hfind.
  { apply find_entry_None; [apply Hok|]. intros Hin. apply Hfresh.
    apply elem_of_app. by right. }
  simpl length in Hc.
  assert (0 < num_buckets map) as Hnb0.
  { pose proof (ok_buckets _ Hok). unfold num_buckets. lia. }
  change (2 ^ 62) with 4611686018427387904 in Hc.
  change (2 ^ 64) with 18446744073709551616 in Hnb.
  assert (load_factor_exceeded (count map) (num_buckets map) = true →
          num_buckets map < 2 ^ 63) as Hsmall.
  { intros Hload. destruct (Z.lt_ge_cases (num_buckets map) (2 ^ 63)) as [|Hbig];
      [done|].
    rewrite load_factor_large in Hload; [done| |].
    - change (2 ^ 62) with 4611686018427387904. lia.
    - change (2 ^ 64) with 18446744073709551616. lia. }
  change (2 ^ 63) with 9223372036854775808 in Hsmall.
  assert (load_factor_exceeded (count map) (num_buckets map) = true →
          0 < to_size_t (num_buckets map * 2)) as Hsz.
  { intros Hload. specialize (Hsmall Hload).
    rewrite to_size_t_small; [lia|]. unfold SIZE_MAX.
    change (2 ^ 64) with 18446744073709551616. lia. }
  pose proof (associate_succeeds mem map (enum_value e) (value e)
                (reread_name (name e)) ltac:(by rewrite Hfl) Hfind
                ltac:(intros Hload; specialize (Hsz Hload); lia)) as Ha.
  rewrite Ha. rewrite decide_False by (by intros []).
  pose proof (associate_ok _ _ _ _ _ _ _ _ _ Hok (key_is_int _ _ _ Heok)
                ltac:(rewrite Hvs; by eapply entry_ok_readable) Ha) as Hok1.
  destruct (grown_length map Hnb0 Hsz) as (_ & _ & Hlen).
  apply associate_entries in Ha as (Hvs1 & Hfl1 & Hent); [|apply Hok..].
  rewrite decide_True in Hent by done. destruct Hent as [Hperm Hcount].
  rewrite to_size_t_small in Hcount
    by (unfold SIZE_MAX; change (2 ^ 64) with 18446744073709551616; lia).
  apply IH; try done; try congruence.
  - rewrite Hperm. csimpl. rewrite <- Permutation_middle.
    apply NoDup_cons. split; [|done].
    intros [Hin|Hin]%elem_of_app; [|by apply find_entry_None in Hfind; [|apply Hok]].
    apply Hfresh. apply elem_of_app. by left.
  - lia.
  - change (2 ^ 62) with 4611686018427387904. lia.
  - unfold num_buckets at 1. simpl. rewrite length_link_entry, Hlen.
    change (2 ^ 64) with 18446744073709551616.
    destruct (load_factor_exceeded _ _); [|done].
    specialize (Hsmall eq_refl).
    rewrite to_size_t_small; [lia|]. unfold SIZE_MAX.
    change (2 ^ 64) with 18446744073709551616. lia.
Qed.

Lemma fwrite_written data stream stream' :
  fwrite data stream = Ok stream' → written stream' = written stream ++ data.
Proof. unfold fwrite. destruct (decide _); [|done]. by intros [= <-]. Qed.

Lemma serialize_entry_written mem map fl stream entry stream' :
  0 < value_size map → entry_ok (value_size map) fl entry →
  serialize_entry mem map stream entry = Ok stream' →
  written stream' = written stream ++ encode_entry entry ∧
  ∃ bytes, value entry = Heap bytes.
Proof.
  intros Hvs Hok. unfold serialize_entry, encode_entry. cbv zeta.
  change (match name entry with
          | Some s => to_uint16 (strlen s)
          | None => 0
          end) with (name_length entry).
  cbn [mbind result_bind].
  destruct (fwrite (le_bytes 4 _) stream) as [s1| |] eqn:H1; [|done..]. cbn [mbind result_bind].
  destruct (fwrite (le_bytes 2 _) s1) as [s2| |] eqn:H2; [|done..]. cbn [mbind result_bind].
  apply fwrite_written in H1, H2.
  assert ((0 <? value_size map) = true) as -> by by apply Z.ltb_lt.
  destruct (value_is_stored _ _ _ Hok Hvs) as [Hnull|(bytes & Hb & Hlen)].
  { rewrite Hnull. simpl.
    destruct (0 <? name_length entry); [destruct (fwrite _ s2)|]; done. }
  rewrite Hb. cbn [is_null read_bytes]. rewrite take_ge by lia.
  destruct (0 <? name_length entry).
  - destruct (fwrite _ s2) as [s3| |] eqn:H3; [|done..].
    apply fwrite_written in H3. intros H4%fwrite_written.
    split; [|by eexists]. rewrite H4, H3, H2, H1. by rewrite <- !app_assoc.
  - intros H4%fwrite_written.
    split; [|by eexists]. rewrite H4, H2, H1. by rewrite <- !app_assoc.
Qed.

Lemma serialize_entries_written mem map fl entries :
  ∀ stream stream',
    0 < value_size map → Forall (entry_ok (value_size map) fl) entries →
    serialize_entries mem map stream entries = Ok stream' →
    written stream' = written stream ++ concat (encode_entry <$> entries) ∧
    Forall (λ entry, ∃ bytes, value entry = Heap bytes) entries.
Proof.
  induction entries as [|e es IH]; intros stream stream' Hvs Hes.
  { simpl. intros [= <-]. by rewrite app_nil_r. }
  apply Forall_cons in Hes as [He Hes]. rewrite fmap_cons.
  cbn [serialize_entries concat mbind result_bind].
  destruct (serialize_entry _ _ _ _) as [s1| |] eqn:H1; [|done..].
  cbn [mbind result_bind].
  eapply serialize_entry_written in H1 as [H1 Hheap]; [|done..].
  intros H. apply IH in H as [H2 Hall]; [|done..].
  split; [|by apply Forall_cons]. rewrite H2, H1. by rewrite <- app_assoc.
Qed.

Lemma serialize_written mem map stream stream' :
  map_ok map → 0 < value_size map →
  stdem_serialize mem map stream = Ok stream' →
  written stream'
  = written stream ++ encode_header map
    ++ concat (encode_entry <$> all_entries map) ∧
  Forall (λ entry, ∃ bytes, value entry = Heap bytes) (all_entries map).
Proof.
  intros Hok Hvs. unfold stdem_serialize, encode_header.
  cbn [mbind result_bind].
  destruct (fwrite (le_bytes 4 _) stream) as [s1| |] eqn:H1; [|done..]. cbn [mbind result_bind].
  destruct (fwrite (le_bytes 2 _) s1) as [s2| |] eqn:H2; [|done..]. cbn [mbind result_bind].
  destruct (fwrite (le_bytes 8 _) s2) as [s3| |] eqn:H3; [|done..]. cbn [mbind result_bind].
  destruct (fwrite (le_bytes 8 _) s3) as [s4| |] eqn:H4; [|done..]. cbn [mbind result_bind].
  destruct (fwrite (le_bytes 4 _) s4) as [s5| |] eqn:H5; [|done..]. cbn [mbind result_bind].
  apply fwrite_written in H1, H2, H3, H4, H5.
  intros H. eapply serialize_entries_written in H as [H6 Hall];
    [|done|apply (ok_entries _ Hok)].
  split; [|done]. rewrite H6, H5, H4, H3, H2, H1. by rewrite <- !app_assoc.
Qed.

Lemma deserialize_header mem map body o :
  map_ok map →
  stdem_deserialize mem (encode_header map ++ body) o
  = (created ← stdem_create_ex (count map) (value_size map) (flags map);
     match created with
     | Ok new_map =>
         deserialize_entries mem (Z.to_nat (count map)) (value_size map)
                             new_map body
     | failure => mret failure
     end) o.
Proof.
  intros Hok. unfold stdem_deserialize, encode_header.
  rewrite <- !app_assoc.
  rewrite fread_app by by rewrite length_le_bytes. cbn [mbind result_bind].
  rewrite le_value_le_bytes. rewrite decide_False by (by intros []).
  rewrite fread_app by by rewrite length_le_bytes. cbn [mbind result_bind].
  rewrite le_value_le_bytes. rewrite decide_False by (by intros []).
  rewrite fread_app by by rewrite length_le_bytes. cbn [mbind result_bind].
  rewrite fread_app by by rewrite length_le_bytes. cbn [mbind result_bind].
  rewrite fread_app by by rewrite length_le_bytes. cbn [mbind result_bind].
  rewrite !le_value_le_bytes.
  pose proof (to_size_t_range (Z.of_nat (length (all_entries map)))) as Hr.
  rewrite <- (ok_count _ Hok) in Hr.
  pose proof (ok_value_size _ Hok) as Hv. pose proof (ok_flags _ Hok) as Hf.
  unfold SIZE_MAX in *.
  change (256 ^ Z.of_nat 8) with (2 ^ 64). change (256 ^ Z.of_nat 4) with (2 ^ 32).
  rewrite !Z.mod_small by lia. done.
Qed.

Lemma find_entry_reread map map' key :
  map_ok map → map_ok map' →
  all_entries map' ≡ₚ reread <$> all_entries map →
  stem_find_entry map' key = reread <$> stem_find_entry map key.
Proof.
  intros Hok Hok' Hperm.
  destruct (stem_find_entry map key) as [e|] eqn:E; simpl.
  - apply find_entry_Some in E as [He <-].
    change (enum_value e) with (enum_value (reread e)).
    apply find_entry_elem; [apply Hok'..|]. rewrite Hperm.
    by apply list_elem_of_fmap_2.
  - apply find_entry_None; [apply Hok'|]. rewrite Hperm.
    rewrite <- list_fmap_compose.
    by apply find_entry_None in E; [|apply Hok].
Qed.

(** ** The example maps are reachable *)

Lemma reachable_with_entries map l :
  reachable map → Forall (λ '(key, _, _), INT_MIN ≤ key ≤ INT_MAX) l →
  reachable (with_entries map l).
Proof.
  intros Hr Hk. revert map Hr.
  induction Hk as [|[[k a] nm] l Hk _ IH]; intros map Hr; [done|].
  apply IH.
  destruct (stdem_associate_ex sample_memory map k (Raw a) nm []) as [[e m] o] eqn:E.
  by eapply (reach_associate sample_memory map k (Raw a) nm [] e m o).
Qed.

Lemma reachable_sample_empty : reachable sample_empty.
Proof. by apply (reach_create 1 0 0 [] sample_empty []). Qed.

Lemma reachable_sample_copying : reachable sample_copying.
Proof. by apply (reach_create 5 4 0 [] sample_copying []). Qed.

Lemma int_range_seqZ n :
  0 ≤ n ≤ 1000 →
  Forall (λ '(key, _, _), INT_MIN ≤ key ≤ INT_MAX)
         ((λ key, (key, 100, @None string)) <$> seqZ 0 n).
Proof.
  intros Hn. apply Forall_fmap, Forall_forall. intros k [Hk1 Hk2]%elem_of_seqZ.
  simpl. unfold INT_MIN, INT_MAX. change (2 ^ 31) with 2147483648. lia.
Qed.

Lemma reachable_sample_twelve : reachable sample_twelve.
Proof.
  apply reachable_with_entries; [apply reachable_sample_empty|].
  apply int_range_seqZ. lia.
Qed.

Lemma reachable_sample_thirteen : reachable sample_thirteen.
Proof.
  apply reachable_with_entries; [apply reachable_sample_empty|].
  apply int_range_seqZ. lia.
Qed.

Lemma reachable_sample_states : reachable sample_states.
Proof.
  apply reachable_with_entries; [apply reachable_sample_copying|].
  repeat constructor; by compute.
Qed.

Lemma reachable_sample_others : reachable sample_others.
Proof.
  apply reachable_with_entries; [apply reachable_sample_copying|].
  repeat constructor; by compute.
Qed.

Lemma reachable_sample_unnamed : reachable sample_unnamed.
Proof.
  apply reachable_with_entries; [apply reachable_sample_copying|].
  repeat constructor; by compute.
Qed.

(** * The claims *)

(** ** C1: the load factor after an insertion *)

(** C1, as stated, fails: the thirteenth association into a fresh map of 16
    buckets succeeds without growing the table (the load 12/16 found before
    the insert does not exceed 0.75), and leaves the load at 13/16. *)
Lemma thirteenth_entry_exceeds_load_factor :
  reachable sample_twelve ∧
  ∃ map',
    stdem_associate_ex sample_memory sample_twelve 12 (Raw 100) None []
    = (STEM_SUCCESS, map', []) ∧
    count map' = 13 ∧ num_buckets map' = 16 ∧
    3 * num_buckets map' < 4 * count map' ∧
    load_factor_exceeded (count map') (num_buckets map') = true.
Proof.
  split; [apply reachable_sample_twelve|].
  eexists. split; [vm_compute; reflexivity|]. by vm_compute.
Qed.

(** C1 (amended): in a table of fewer than 2^23 buckets holding fewer than
    2^24 entries, where the single-precision load test of the source
    decides [count / num_buckets > 0.75] exactly, [stdem_associate_ex]
    doubles the number of buckets and rehashes every entry exactly when the
    load found before the insert exceeds 0.75.  Hence, in a map whose count
    was at most [0.75 * num_buckets + 1] (as it is after creation and after
    every association), a successful association leaves
    [(count - 1) / num_buckets <= 0.75]: the load itself may exceed the
    threshold by the one entry just inserted, and the bound on the count
    holds again. *)
Theorem associate_load_factor (mem : Z → byte) (map : EnumMap) (key : Z)
    (value : pointer) (name : option string) (o : list bool)
    (map' : EnumMap) (o' : list bool) :
  0 < num_buckets map < 2 ^ 23 → 0 ≤ count map < 2 ^ 24 →
  4 * count map ≤ 3 * num_buckets map + 4 →
  stdem_associate_ex mem map key value name o = (STEM_SUCCESS, map', o') →
  load_factor_exceeded (count map) (num_buckets map)
  = (3 * num_buckets map <? 4 * count map) ∧
  num_buckets map'
  = (if 3 * num_buckets map <? 4 * count map
     then 2 * num_buckets map else num_buckets map) ∧
  all_entries map' ≡ₚ new_entry mem map key value name :: all_entries map ∧
  count map' = count map + 1 ∧
  4 * (count map' - 1) ≤ 3 * num_buckets map' ∧
  4 * count map' ≤ 3 * num_buckets map' + 4.
Proof.
  intros Hn Hc Hload Ha.
  pose proof (load_factor_exact (count map) (num_buckets map) Hc Hn) as Hexact.
  change (2 ^ 23) with 8388608 in Hn. change (2 ^ 24) with 16777216 in Hc.
  apply associate_cases in Ha as [[? _]|(_ & _ & Hsz & [[? _]|[_ ->]])]; try done.
  destruct (grown_length map ltac:(lia) Hsz) as (Hl & Hperm & Hlen).
  set (entry := new_entry mem map key value name).
  assert (num_buckets (linked map entry)
          = if 3 * num_buckets map <? 4 * count map
            then 2 * num_buckets map else num_buckets map) as Hnb.
  { change (num_buckets (linked map entry))
      with (Z.of_nat (length (link_entry (grown map) entry))).
    rewrite length_link_entry, Hlen, Hexact.
    destruct (_ <? _); [|done].
    rewrite to_size_t_small; [lia|]. unfold SIZE_MAX.
    change (2 ^ 64) with 18446744073709551616. lia. }
  assert (count (linked map entry) = count map + 1) as Hcount.
  { simpl. rewrite to_size_t_small; [lia|]. unfold SIZE_MAX.
    change (2 ^ 64) with 18446744073709551616. lia. }
  rewrite Hnb, Hcount. split_and!; [done|done|by apply linked_entries|done|..];
    destruct (Z.ltb_spec (3 * num_buckets map) (4 * count map)); lia.
Qed.

Lemma associate_load_factor_witness :
  ∃ map',
    stdem_associate_ex sample_memory sample_thirteen 13 (Raw 100) None []
    = (STEM_SUCCESS, map', []) ∧
    num_buckets map' = 2 * num_buckets sample_thirteen ∧
    4 * (count map' - 1) ≤ 3 * num_buckets map'.
Proof.
  eexists. split; [vm_compute; reflexivity|].
  pose proof (associate_load_factor sample_memory sample_thirteen 13 (Raw 100)
                None [] _ [] ltac:(by vm_compute) ltac:(by vm_compute)
                ltac:(by vm_compute)
                ltac:(vm_compute; reflexivity)) as (_ & H1 & _ & _ & H2 & _).
  split; [exact H1|exact H2].
Defined.

(** ** C2: keys are unique *)

(** C2: in every reachable map no two entries share a key, and associating
    a key that an entry of the map already carries reports
    [STEM_ERROR_ALREADY_EXISTS], performs no allocation and leaves the map,
    hence the existing entry's value and name, as they were. *)
Theorem keys_unique (map : EnumMap) :
  reachable map →
  NoDup (enum_value <$> all_entries map) ∧
  ∀ mem entry value name o,
    entry ∈ all_entries map →
    stdem_associate_ex mem map (enum_value entry) value name o
    = (STEM_ERROR_ALREADY_EXISTS, map, o) ∧
    stem_find_entry map (enum_value entry) = Some entry.
Proof.
  intros Hok%reachable_ok. split; [apply Hok|].
  intros mem entry value name o Hin.
  assert (stem_find_entry map (enum_value entry) = Some entry) as Hf.
  { apply find_entry_elem; [apply Hok..|done]. }
  split; [|done]. unfold stdem_associate_ex.
  rewrite (ok_writable _ Hok), Hf; [done|].
  intros Heq. rewrite Heq in Hin. by apply elem_of_nil in Hin.
Qed.

Lemma keys_unique_witness :
  NoDup (enum_value <$> all_entries sample_twelve) ∧
  stdem_associate_ex sample_memory sample_twelve 5 (Raw 200) (Some "FIVE") [false]
  = (STEM_ERROR_ALREADY_EXISTS, sample_twelve, [false]).
Proof.
  destruct (keys_unique sample_twelve reachable_sample_twelve) as [Hnd Hassoc].
  split; [exact Hnd|].
  refine (proj1 (Hassoc sample_memory (mkEntry 5 None (Raw 100)) (Raw 200)
                   (Some "FIVE") [false] _)).
  apply list_elem_of_In. vm_compute. tauto.
Defined.

(** ** C3: the initial number of buckets *)

(** C3, as stated, fails for an expected count of 15: the map is created
    with 21 buckets, whereas the larger of 16 and ceil(15 / 0.75) is 20. *)
Lemma create_15_not_ceiling :
  ∃ map, stdem_create_ex 15 0 STEM_FLAGS_NONE [] = (Ok map, []) ∧
         num_buckets map = 21 ∧
         Z.max STEM_DEFAULT_BUCKETS (ceil_over_load_factor 15) = 20.
Proof. eexists. split; [vm_compute; reflexivity|]. by vm_compute. Qed.

(** C3 (amended): for every expected count [0 < n < 3 * 2^50 + 2], up to
    which the double-precision quotient [n / 0.75] of the source has the
    integral part of the exact one, creation succeeds when its allocations
    do, and a created map has 16 buckets when [n <= 12] and
    [floor(n / 0.75) + 1] buckets otherwise.  That is the larger of 16 and
    [ceil(n / 0.75)] unless [n > 12] is a multiple of 3, in which case it
    is one more. *)
Theorem create_initial_buckets (n vs fl : Z) :
  0 < n < 3 * 2 ^ 50 + 2 →
  (∃ map, stdem_create_ex n vs fl [] = (Ok map, [])) ∧
  (∀ o map o',
     stdem_create_ex n vs fl o = (Ok map, o') →
     num_buckets map = (if decide (n ≤ 12) then STEM_DEFAULT_BUCKETS
                        else (4 * n) `div` 3 + 1) ∧
     num_buckets map
     = (if decide (12 < n ∧ n `mod` 3 = 0)
        then Z.max STEM_DEFAULT_BUCKETS (ceil_over_load_factor n) + 1
        else Z.max STEM_DEFAULT_BUCKETS (ceil_over_load_factor n))).
Proof.
  intros Hn. pose proof (initial_buckets_exact n Hn) as Hexact.
  change (2 ^ 50) with 1125899906842624 in Hn. split.
  - eexists. apply create_no_failure.
    change (2 ^ 63) with 9223372036854775808. lia.
  - intros o map o' Hc. apply create_cases in Hc as (_ & Hb & ->); [|lia].
    unfold num_buckets. simpl. rewrite length_replicate, Z2Nat.id by lia.
    rewrite Hexact.
    unfold ceil_over_load_factor, STEM_DEFAULT_BUCKETS in *.
    split.
    + destruct (decide (n ≤ 12)), (Z.ltb_spec 12 n); lia.
    + destruct (decide (12 < n ∧ n `mod` 3 = 0)) as [[? ?]|Hno],
               (Z.ltb_spec 12 n);
        Z.to_euclidean_division_equations; lia.
Qed.

Lemma create_initial_buckets_witness :
  ∃ map, stdem_create_ex 15 0 STEM_FLAGS_NONE [] = (Ok map, []) ∧
         num_buckets map = 21.
Proof.
  destruct (create_initial_buckets 15 0 STEM_FLAGS_NONE
              ltac:(by vm_compute)) as [[map Hmap] Hnum].
  exists map. split; [exact Hmap|].
  exact (proj1 (Hnum [] map [] Hmap)).
Defined.

(** ** C4: failure with [STEM_ERROR_OUT_OF_MEMORY] *)




(** ** C5: copying *)

(** C5: a successful copy of a map that satisfies the representation
    invariant (every reachable map does) has the same count, and every key
    is answered alike by [stdem_get_value_ex] (the same pointer, or a
    buffer with the same bytes) and by [stdem_get_name_ex]. *)
Theorem copy_round_trip (mem : Z → byte) (map : EnumMap) (o : list bool)
    (map' : EnumMap) (o' : list bool) :
  map_ok map →
  stdem_copy mem map o = (Ok map', o') →
  stdem_count map' = stdem_count map ∧
  ∀ key, stdem_get_value_ex map' key = stdem_get_value_ex map key ∧
         stdem_get_name_ex map' key = stdem_get_name_ex map key.
Proof.
  intros Hok Hc. apply copy_spec in Hc as (Hok' & Hvs & Hfl & Hperm); [|done].
  split; [by apply count_of_entries|].
  intros key. unfold stdem_get_value_ex, stdem_get_name_ex.
  rewrite Hfl, (find_entry_perm map' map key); [done|apply Hok'..|apply Hok|done].
Qed.

Lemma copy_round_trip_witness :
  ∃ map',
    stdem_copy sample_memory sample_thirteen [] = (Ok map', []) ∧
    stdem_count map' = 13 ∧
    stdem_get_value_ex map' 4 = (Raw 100, STEM_SUCCESS).
Proof.
  eexists. split; [vm_compute; reflexivity|].
  pose proof (copy_round_trip sample_memory sample_thirteen [] _ []
                (reachable_ok _ reachable_sample_thirteen)
                ltac:(vm_compute; reflexivity)) as [H1 H2].
  split; [exact H1|exact (proj1 (H2 4))].
Defined.

(** ** C6: merging *)

(** C6: in a successful merge of two maps that satisfy the representation
    invariant, a key present in both inputs is answered by
    [stdem_get_value_ex] with the value of the first map when [overwrite]
    is false and with the value of the second map when it is true. *)
Theorem merge_overlapping_key (mem : Z → byte) (map1 map2 : EnumMap)
    (overwrite : bool) (o : list bool) (merged : EnumMap) (o' : list bool)
    (key : Z) (entry1 entry2 : EnumEntry) :
  map_ok map1 → map_ok map2 →
  stdem_merge mem map1 map2 overwrite o = (Ok merged, o') →
  stem_find_entry map1 key = Some entry1 →
  stem_find_entry map2 key = Some entry2 →
  value_size map1 = value_size map2 ∧
  stdem_get_value_ex map1 key = (value entry1, STEM_SUCCESS) ∧
  stdem_get_value_ex map2 key = (value entry2, STEM_SUCCESS) ∧
  stdem_get_value_ex merged key
  = (if overwrite then value entry2 else value entry1, STEM_SUCCESS).
Proof.
  intros Hok1 Hok2 Hm Hf1 Hf2. unfold stdem_get_value_ex. rewrite Hf1, Hf2.
  revert Hm. unfold stdem_merge. alloc_unfold.
  destruct (decide (value_size map1 ≠ value_size map2)) as [|Hvs]; [done|].
  assert (value_size map1 = value_size map2) as Heq by lia.
  destruct (stdem_create_ex _ _ _ _) as [[new_map| |] o1] eqn:Hc; try done.
  pose proof (to_size_t_range (count map1 + count map2)) as Hr.
  pose proof (create_ok _ _ _ _ _ _ (proj1 Hr) (ok_value_size _ Hok1)
                (flags_lor_range _ _ (ok_flags _ Hok1) (ok_flags _ Hok2)) Hc) as Hok.
  apply create_cases in Hc as (_ & _ & Hmap); [|lia].
  assert (value_size new_map = value_size map1) as Hv by by subst.
  assert (all_entries new_map = []) as Hempty.
  { subst new_map. unfold all_entries. simpl. apply concat_replicate_nil. }
  destruct (associate_all _ _ _ _) as [[err new_map'] o2] eqn:Ha.
  destruct (decide (err = STEM_SUCCESS)) as [->|Hne];
    [rewrite decide_False by (by intros [])|by rewrite decide_True].
  eapply associate_all_spec in Ha as (Hok' & Hvs' & _ & Hperm);
    [|done|rewrite Hv; apply (ok_entries _ Hok1)].
  specialize (Hperm eq_refl). rewrite Hempty, app_nil_r in Hperm.
  intros Hm. split_and!; [done..|].
  assert (Forall (entry_ok (value_size new_map') (flags map2)) (all_entries map2))
    as Hes2.
  { rewrite Hvs', Hv, Heq. apply (ok_entries _ Hok2). }
  destruct overwrite.
  - eapply merge_second_overwrites in Hm as [Hin _]; [|done..|apply Hok2].
    apply find_entry_Some in Hf2 as [Hin2 <-].
    destruct (Hin entry2 Hin2) as (held & -> & ->). done.
  - set (held := replayed mem (value_size new_map) (flags new_map) entry1).
    assert (stem_find_entry new_map' key = Some held) as Hheld.
    { apply find_entry_Some in Hf1 as [Hin1 <-].
      change (enum_value entry1) with (enum_value held).
      apply find_entry_elem; [apply Hok'..|]. rewrite Hperm.
      by apply list_elem_of_fmap_2. }
    eapply merge_second_keeps in Hm; [|done..]. rewrite Hm. simpl.
    f_equal. rewrite Hv. eapply stored_value_id.
    apply find_entry_Some in Hf1 as [Hin1 _].
    pose proof (ok_entries _ Hok1) as Hall. by eapply Forall_forall in Hall.
Qed.

Lemma merge_overlapping_key_witness :
  ∃ merged,
    stdem_merge sample_memory sample_states sample_others true []
    = (Ok merged, []) ∧
    stdem_get_value_ex merged 3 = stdem_get_value_ex sample_others 3.
Proof.
  eexists. split; [vm_compute; reflexivity|].
  pose proof (merge_overlapping_key sample_memory sample_states sample_others
                true [] _ [] 3
                (mkEntry 3 (Some "STATE_ERROR") (Heap [x2c; x2d; x2e; x2f]))
                (mkEntry 3 (Some "OTHER_ERROR") (Heap [x3c; x3d; x3e; x3f]))
                (reachable_ok _ reachable_sample_states)
                (reachable_ok _ reachable_sample_others)
                ltac:(vm_compute; reflexivity) ltac:(vm_compute; reflexivity)
                ltac:(vm_compute; reflexivity)) as (_ & _ & H2 & H).
  exact (eq_trans H (eq_sym H2)).
Defined.

(** ** C7: serializing and reading back *)

(** C7, as stated, fails for an entry whose name is the empty string: the
    name is written with length 0, which reads back as no name at all. *)
Lemma empty_name_not_restored :
  reachable sample_unnamed ∧
  ∃ out restored,
    stdem_serialize sample_memory sample_unnamed (mkOstream [] 1024) = Ok out ∧
    stdem_deserialize sample_memory (written out) [] = (Ok restored, []) ∧
    stdem_get_name_ex sample_unnamed 2 = (Some String.EmptyString, STEM_SUCCESS) ∧
    stdem_get_name_ex restored 2 = (None, STEM_SUCCESS).
Proof.
  split; [apply reachable_sample_unnamed|].
  eexists _, _. split; [vm_compute; reflexivity|].
  split; [vm_compute; reflexivity|]. by vm_compute.
Qed.

(** C7 (amended): let a populated map that copies values (value size > 0)
    satisfy the representation invariant, hold at most 2^62 entries, and
    have only names shorter than 65536 bytes.  If [stdem_serialize] succeeds
    on it (it does not when an entry holds a null value), then reading the
    bytes back succeeds when no allocation fails, and every map that
    [stdem_deserialize] returns for them has the same count and answers
    every key with the same value bytes and the same name, except that an
    empty name comes back absent. *)
Theorem serialize_round_trip (mem : Z → byte) (map : EnumMap) (room : nat)
    (out : ostream) :
  map_ok map → 0 < value_size map → 0 < count map →
  Z.of_nat (length (all_entries map)) ≤ 2 ^ 62 →
  Forall name_fits (all_entries map) →
  stdem_serialize mem map (mkOstream [] room) = Ok out →
  (∃ restored, stdem_deserialize mem (written out) [] = (Ok restored, [])) ∧
  ∀ o restored o',
    stdem_deserialize mem (written out) o = (Ok restored, o') →
    stdem_count restored = stdem_count map ∧
    ∀ key,
      stdem_get_value_ex restored key = stdem_get_value_ex map key ∧
      stdem_get_name_ex restored key
      = (reread_name (stdem_get_name_ex map key).1,
         (stdem_get_name_ex map key).2).
Proof.
  intros Hok Hvs Hpop Hsmall Hfit Hser.
  apply serialize_written in Hser as [Hout Hheap]; [|done..].
  cbn [written app] in Hout. rewrite Hout. clear Hout out.
  assert (count map = Z.of_nat (length (all_entries map))) as Hcount.
  { rewrite (ok_count _ Hok). apply to_size_t_small. unfold SIZE_MAX.
    change (2 ^ 62) with 4611686018427387904 in Hsmall.
    change (2 ^ 64) with 18446744073709551616. lia. }
  assert (Forall (encodable (value_size map) (flags map)) (all_entries map))
    as Henc.
  { pose proof (ok_entries _ Hok) as Hes. rewrite Forall_forall in *.
    intros e He. split_and!; auto. }
  assert (has_flag (flags map) STEM_FLAGS_READONLY = false) as Hro.
  { apply (ok_writable _ Hok). intros Heq. rewrite Heq in Hcount. simpl in *. lia. }
  assert (0 < count map < 2 ^ 63) as Hc63.
  { change (2 ^ 62) with 4611686018427387904 in Hsmall.
    change (2 ^ 63) with 9223372036854775808. lia. }
  pose proof (create_no_failure (count map) (value_size map) (flags map) Hc63)
    as Hcreate.
  destruct (create_cases (count map) _ _ _ _ _ ltac:(lia) Hcreate)
    as (_ & Hib & _).
  set (fresh := {| count := 0; value_size := value_size map; flags := flags map;
                   buckets := replicate (Z.to_nat (initial_buckets (count map))) [] |}).
  assert (map_ok fresh) as Hfresh.
  { apply empty_table_ok; [lia|apply Hok..]. }
  assert (all_entries fresh = []) as Hempty.
  { unfold all_entries. simpl. apply concat_replicate_nil. }
  assert (Z.to_nat (count map) = length (all_entries map)) as Hn by lia.
  split.
  - rewrite deserialize_header by done. unfold mbind, Alloc_bind.
    rewrite Hcreate. fold fresh. rewrite Hn.
    rewrite <- (app_nil_r (concat _)).
    apply (deserialize_entries_succeed mem (value_size map) (flags map));
      [done..| | | |].
    + rewrite Hempty. simpl. rewrite app_nil_r. apply Hok.
    + done.
    + change (count fresh) with 0. lia.
    + unfold num_buckets.
      change (buckets fresh)
        with (replicate (Z.to_nat (initial_buckets (count map)))
                        (@nil EnumEntry)).
      rewrite length_replicate. unfold SIZE_MAX in Hib. lia.
  - clear Hcreate. intros o restored o'. rewrite deserialize_header by done.
    unfold mbind, Alloc_bind.
    destruct (stdem_create_ex _ _ _ o) as [[new_map| |] o1] eqn:Hc; [|done..].
    apply create_cases in Hc as (_ & _ & ->); [|lia]. fold fresh. rewrite Hn.
    rewrite <- (app_nil_r (concat _)). intros Hd.
    apply (deserialize_entries_spec mem (value_size map) (flags map)) in Hd
      as (Hok' & Hvs' & Hfl' & Hperm); try done.
    rewrite Hempty, app_nil_r in Hperm. split.
    + unfold stdem_count. rewrite (ok_count _ Hok'), (ok_count _ Hok), Hperm.
      by rewrite length_fmap.
    + intros key. unfold stdem_get_value_ex, stdem_get_name_ex.
      rewrite Hfl', (find_entry_reread map restored key) by done.
      destruct (stem_find_entry map key) as [e|]; simpl;
        destruct (has_flag (flags map) STEM_FLAGS_NO_NAMES); done.
Qed.

Lemma serialize_round_trip_witness :
  ∃ out restored,
    stdem_serialize sample_memory sample_states (mkOstream [] 1024) = Ok out ∧
    stdem_deserialize sample_memory (written out) [] = (Ok restored, []) ∧
    stdem_count restored = 5 ∧
    stdem_get_value_ex restored 3 = stdem_get_value_ex sample_states 3.
Proof.
  eexists _, _. split; [vm_compute; reflexivity|].
  split; [vm_compute; reflexivity|].
  pose proof (serialize_round_trip sample_memory sample_states 1024 _
                (reachable_ok _ reachable_sample_states)
                ltac:(by vm_compute) ltac:(by vm_compute) ltac:(by vm_compute)
                ltac:(vm_compute; repeat constructor)
                ltac:(vm_compute; reflexivity)) as [_ H].
  destruct (H [] _ [] ltac:(vm_compute; reflexivity)) as [H1 H2].
  split; [exact H1|exact (proj1 (H2 3))].
Defined.

(** ** C8: names of a map created with [STEM_FLAGS_NO_NAMES] *)

(** C8: in a map carrying [STEM_FLAGS_NO_NAMES], [stdem_get_name_ex]
    reports [STEM_ERROR_NOT_FOUND] and no name for every key, whether or
    not an entry with that key exists. *)
Theorem get_name_no_names (map : EnumMap) (key : Z) :
  has_flag (flags map) STEM_FLAGS_NO_NAMES = true →
  stdem_get_name_ex map key = (None, STEM_ERROR_NOT_FOUND).
Proof. unfold stdem_get_name_ex. by intros ->. Qed.

Lemma get_name_no_names_witness :
  stem_find_entry sample_nameless 3 ≠ None ∧
  stdem_get_name_ex sample_nameless 3 = (None, STEM_ERROR_NOT_FOUND).
Proof.
  split; [by vm_compute|].
  apply (get_name_no_names sample_nameless 3). reflexivity.
Defined.

(** ** C9: [STEM_FLAGS_COPY_VALUES] is never consulted *)

(** C9: a map whose value size is 0 stores the caller's pointer itself even
    when [STEM_FLAGS_COPY_VALUES] is set: after a successful association
    the lookup returns that very pointer, and the call does exactly what it
    does on the same map without the flag. *)
Theorem associate_stores_raw_pointer (mem : Z → byte) (map : EnumMap) (key : Z)
    (value : pointer) (name : option string) (o : list bool)
    (map' : EnumMap) (o' : list bool) :
  value_size map = 0 → 0 < num_buckets map →
  stdem_associate_ex mem (with_flag STEM_FLAGS_COPY_VALUES map) key value name o
  = (STEM_SUCCESS, map', o') →
  stdem_get_value_ex map' key = (value, STEM_SUCCESS) ∧
  ∃ plain, stdem_associate_ex mem map key value name o = (STEM_SUCCESS, plain, o')
           ∧ map' = with_flag STEM_FLAGS_COPY_VALUES plain.
Proof.
  intros Hvs Hn. rewrite associate_ignores_copy_values.
  destruct (stdem_associate_ex mem map key value name o) as [[err plain] o1] eqn:Ha.
  intros [= -> <- <-]. split; [|by exists plain].
  apply associate_cases in Ha as [[? _]|(_ & _ & Hsz & [[? _]|[_ ->]])]; try done.
  destruct (grown_length map Hn Hsz) as (Hl & _ & _).
  unfold stdem_get_value_ex.
  change (stem_find_entry (with_flag _ ?m) key) with (stem_find_entry m key).
  pose proof (linked_find map (new_entry mem map key value name) Hl) as Hf.
  simpl in Hf. rewrite Hf. simpl. unfold stored_value. by rewrite Hvs.
Qed.

Lemma associate_stores_raw_pointer_witness :
  ∃ map',
    stdem_associate_ex sample_memory
      (with_flag STEM_FLAGS_COPY_VALUES sample_empty) 7 (Raw 4096) None []
    = (STEM_SUCCESS, map', []) ∧
    stdem_get_value_ex map' 7 = (Raw 4096, STEM_SUCCESS).
Proof.
  eexists. split; [vm_compute; reflexivity|].
  refine (proj1 (associate_stores_raw_pointer sample_memory sample_empty 7
                   (Raw 4096) None [] _ [] _ _ _)).
  - reflexivity.
  - by vm_compute.
  - vm_compute. reflexivity.
Defined.

(** ** C10: copying and merging empty maps *)

(** C10: copying a map whose count is 0 fails with
    [STEM_ERROR_INVALID_ARG], and so does merging two such maps, before
    anything is allocated. *)
Theorem copy_merge_empty (mem : Z → byte) (map1 map2 : EnumMap)
    (overwrite : bool) (o : list bool) :
  count map1 = 0 → count map2 = 0 →
  stdem_copy mem map1 o = (Err STEM_ERROR_INVALID_ARG, o) ∧
  stdem_merge mem map1 map2 overwrite o = (Err STEM_ERROR_INVALID_ARG, o).
Proof.
  intros H1 H2. unfold stdem_copy, stdem_merge. rewrite H1, H2.
  split; [done|]. by destruct (decide _).
Qed.

Lemma copy_merge_empty_witness :
  stdem_copy sample_memory sample_empty [] = (Err STEM_ERROR_INVALID_ARG, []) ∧
  stdem_merge sample_memory sample_empty sample_empty true []
  = (Err STEM_ERROR_INVALID_ARG, []).
Proof.
  apply (copy_merge_empty sample_memory sample_empty sample_empty true []);
    reflexivity.
Defined.

(** * Further properties *)

(** * Further properties *)

(** ** Association and lookup *)

Lemma stored_name_writable fl name :
  has_flag fl STEM_FLAGS_NO_NAMES = false → stored_name fl name = c_str <$> name.
Proof. intros H. unfold stored_name. destruct name; [|done]. by rewrite H. Qed.


(** X1: after a successful association the key, which was absent before,
    is answered with the stored value (the caller's pointer, or a buffer
    holding the [value_size] bytes it pointed to) and the stored name (the
    C string given, nothing under [STEM_FLAGS_NO_NAMES]); every other key
    is answered as before. *)
Theorem associate_then_lookup (mem : Z → byte) (map : EnumMap) (key : Z)
    (value : pointer) (name : option string) (o : list bool)
    (map' : EnumMap) (o' : list bool) :
  map_ok map → INT_MIN ≤ key ≤ INT_MAX → readable (value_size map) value →
  stdem_associate_ex mem map key value name o = (STEM_SUCCESS, map', o') →
  stdem_get_value_ex map key = (NULL, STEM_ERROR_NOT_FOUND) ∧
  stdem_get_value_ex map' key
  = (if (0 <? value_size map) && negb (is_null value)
     then Heap (read_bytes mem value (value_size map)) else value,
     STEM_SUCCESS) ∧
  stdem_get_name_ex map' key
  = (if has_flag (flags map) STEM_FLAGS_NO_NAMES
     then (None, STEM_ERROR_NOT_FOUND) else (c_str <$> name, STEM_SUCCESS)) ∧
  stdem_count map' = to_size_t (stdem_count map + 1) ∧
  ∀ k, k ≠ key →
       stdem_get_value_ex map' k = stdem_get_value_ex map k ∧
       stdem_get_name_ex map' k = stdem_get_name_ex map k.
Proof.
  intros Hok Hk Hr Ha.
  pose proof (λ k, associate_find _ _ _ _ _ _ _ _ k Hok Hk Hr Ha) as Hfind.
  pose proof Ha as Hc.
  apply associate_cases in Hc as [[? _]|(_ & Hnone & _ & [[? _]|[_ Hmap]])];
    try done.
  apply associate_entries in Ha as (Hvs & Hfl & Hent); [|apply Hok..].
  rewrite decide_True in Hent by done. destruct Hent as [_ Hcount].
  unfold stdem_get_value_ex, stdem_get_name_ex, stdem_count.
  rewrite Hnone, Hfl, Hfind, decide_True by done. simpl.
  split_and!; [done|done| |done|].
  - destruct (has_flag _ _) eqn:E; [done|]. by rewrite stored_name_writable.
  - intros k Hne. rewrite Hfind, decide_False by done. done.
Qed.

Lemma associate_then_lookup_witness :
  ∃ map',
    stdem_associate_ex sample_memory sample_states 9 (Raw 16) (Some "NINE") []
    = (STEM_SUCCESS, map', []) ∧
    stdem_get_value_ex map' 9 = (Heap [x10; x11; x12; x13], STEM_SUCCESS) ∧
    stdem_get_name_ex map' 9 = (Some "NINE"%string, STEM_SUCCESS) ∧
    stdem_get_value_ex map' 3 = stdem_get_value_ex sample_states 3.
Proof.
  eexists. split; [vm_compute; reflexivity|].
  pose proof (associate_then_lookup sample_memory sample_states 9 (Raw 16)
                (Some "NINE"%string) [] _ []
                (reachable_ok _ reachable_sample_states)
                ltac:(by vm_compute) ltac:(exact I)
                ltac:(vm_compute; reflexivity)) as (_ & H1 & H2 & _ & H3).
  split; [exact H1|]. split; [exact H2|]. exact (proj1 (H3 3 ltac:(lia))).
Defined.

(** ** Creation *)

(** X2: a map that [stdem_create_ex] returns is empty: its count is 0 and
    every key is not found, by value and by name; it carries the value size
    and flags given and has at least one bucket. *)
Theorem create_is_empty (n vs fl : Z) (o : list bool) (map : EnumMap)
    (o' : list bool) :
  0 ≤ n →
  stdem_create_ex n vs fl o = (Ok map, o') →
  stdem_count map = 0 ∧ stdem_value_size map = vs ∧ flags map = fl ∧
  0 < num_buckets map ≤ SIZE_MAX ∧
  ∀ key,
    stdem_get_value_ex map key = (NULL, STEM_ERROR_NOT_FOUND) ∧
    stdem_get_name_ex map key = (None, STEM_ERROR_NOT_FOUND) ∧
    ∀ wanted, stdem_find_by_name map (Some wanted) = (0, STEM_ERROR_NOT_FOUND).
Proof.
  intros Hn Hc. apply create_cases in Hc as (Hpos & Hb & ->); [|done].
  assert (all_entries
            {| count := 0; value_size := vs; flags := fl;
               buckets := replicate (Z.to_nat (initial_buckets n)) [] |} = [])
    as Hempty by apply concat_replicate_nil.
  split; [done|]. split; [done|]. split; [done|]. split.
  - unfold num_buckets. simpl. rewrite length_replicate, Z2Nat.id by lia. done.
  - intros key.
    assert (stem_find_entry
              {| count := 0; value_size := vs; flags := fl;
                 buckets := replicate (Z.to_nat (initial_buckets n)) [] |} key
            = None) as Hf.
    { apply find_entry_None; [apply placed_replicate|]. rewrite Hempty.
      by intros ?%elem_of_nil. }
    unfold stdem_get_value_ex, stdem_get_name_ex, stdem_find_by_name.
    rewrite Hf, Hempty. simpl. split_and!; [done| |].
    + by destruct (has_flag _ _).
    + intros wanted. by destruct (has_flag _ _).
Qed.

Lemma create_is_empty_witness :
  ∃ map, stdem_create_ex 100 8 STEM_FLAGS_NONE [] = (Ok map, []) ∧
         stdem_count map = 0 ∧
         stdem_get_value_ex map 7 = (NULL, STEM_ERROR_NOT_FOUND).
Proof.
  eexists. split; [vm_compute; reflexivity|].
  pose proof (create_is_empty 100 8 STEM_FLAGS_NONE [] _ [] ltac:(lia)
                ltac:(vm_compute; reflexivity)) as (H1 & _ & _ & _ & H2).
  split; [exact H1|exact (proj1 (H2 7))].
Defined.

(** X3: [stdem_create_ex] rejects an expected count of 0 before it
    allocates.  For an expected count below 2^63 it returns a map when no
    allocation fails, and reports [STEM_ERROR_OUT_OF_MEMORY], returning no
    map, when the allocation of the map or that of the bucket array
    fails. *)
Theorem create_failures (n vs fl : Z) (rest : list bool) :
  0 < n < 2 ^ 63 →
  stdem_create_ex 0 vs fl rest = (Err STEM_ERROR_INVALID_ARG, rest) ∧
  (∃ map, stdem_create_ex n vs fl [] = (Ok map, [])) ∧
  stdem_create_ex n vs fl (false :: rest) = (Err STEM_ERROR_OUT_OF_MEMORY, rest) ∧
  stdem_create_ex n vs fl (true :: false :: rest)
  = (Err STEM_ERROR_OUT_OF_MEMORY, rest).
Proof.
  intros Hn. split; [done|]. split.
  { eexists. by apply create_no_failure. }
  destruct (initial_num_buckets_defined n Hn) as [nb Hnb].
  unfold stdem_create_ex, STEM_MAX_ENTRIES, SIZE_MAX. alloc_unfold.
  change (2 ^ 63) with 9223372036854775808 in Hn.
  change (2 ^ 64) with 18446744073709551616.
  destruct (Z.eqb_spec n 0); [lia|].
  destruct (Z.ltb_spec (18446744073709551616 - 1) n); [lia|].
  simpl. split; [done|]. by rewrite Hnb.
Qed.

Lemma create_failures_witness :
  stdem_create_ex 40 4 STEM_FLAGS_NONE [true; false; true]
  = (Err STEM_ERROR_OUT_OF_MEMORY, [true]).
Proof.
  refine (proj2 (proj2 (proj2 (create_failures 40 4 STEM_FLAGS_NONE [true] _))));
    by vm_compute.
Defined.

(** ** Read-only maps *)

Lemma reachable_sample_readonly : reachable sample_readonly.
Proof. by apply (reach_create 4 0 STEM_FLAGS_READONLY [] sample_readonly []). Qed.

(** X4: a reachable map that carries [STEM_FLAGS_READONLY] holds no entry
    and never will: its count is 0, no key is found, and every association
    and every clear is refused with [STEM_ERROR_INVALID_ARG], leaving the
    map and the allocator untouched.  Copying it fails as well. *)
Theorem readonly_map_is_empty (map : EnumMap) :
  reachable map → has_flag (flags map) STEM_FLAGS_READONLY = true →
  all_entries map = [] ∧ stdem_count map = 0 ∧
  (∀ key, stdem_get_value_ex map key = (NULL, STEM_ERROR_NOT_FOUND)) ∧
  (∀ mem key value name o,
     stdem_associate_ex mem map key value name o
     = (STEM_ERROR_INVALID_ARG, map, o)) ∧
  stdem_clear map = (STEM_ERROR_INVALID_ARG, map) ∧
  (∀ mem o, stdem_copy mem map o = (Err STEM_ERROR_INVALID_ARG, o)).
Proof.
  intros Hok%reachable_ok Hro.
  assert (all_entries map = []) as Hempty.
  { destruct (all_entries map) as [|e es] eqn:E; [done|].
    assert (has_flag (flags map) STEM_FLAGS_READONLY = false) as Hw.
    { apply (ok_writable _ Hok). by rewrite E. }
    congruence. }
  assert (count map = 0) as Hcount.
  { by rewrite (ok_count _ Hok), Hempty. }
  split_and!; try done.
  - intros key. unfold stdem_get_value_ex.
    assert (stem_find_entry map key = None) as ->; [|done].
    apply find_entry_None; [apply Hok|]. rewrite Hempty. by intros ?%elem_of_nil.
  - intros. unfold stdem_associate_ex. by rewrite Hro.
  - unfold stdem_clear. by rewrite Hro.
  - intros. unfold stdem_copy. by rewrite Hcount.
Qed.

Lemma readonly_map_is_empty_witness :
  stdem_count sample_readonly = 0 ∧
  stdem_associate_ex sample_memory sample_readonly 1 (Raw 100) None []
  = (STEM_ERROR_INVALID_ARG, sample_readonly, []).
Proof.
  destruct (readonly_map_is_empty sample_readonly reachable_sample_readonly
              ltac:(reflexivity)) as (_ & H1 & _ & H2 & _).
  split; [exact H1|exact (H2 sample_memory 1 (Raw 100) None [])].
Defined.

(** ** Clearing *)

(** An empty table is never found over its load factor. *)
Lemma load_factor_empty d : load_factor_exceeded 0 d = false.
Proof.
  unfold load_factor_exceeded. change (f32_of_Z 0) with (S754_zero false).
  by destruct (f32_of_Z d) as [[]|[]| |[] m e].
Qed.

(** X5: clearing a map that is not read-only succeeds; the count becomes 0
    and no key is found any more, while the number of buckets, the value
    size and the flags stay.  The cleared map accepts every key again: when
    no allocation fails, an association into it succeeds and is found. *)
Theorem clear_empties (mem : Z → byte) (map : EnumMap) :
  map_ok map → has_flag (flags map) STEM_FLAGS_READONLY = false →
  ∃ map',
    stdem_clear map = (STEM_SUCCESS, map') ∧
    stdem_count map' = 0 ∧ num_buckets map' = num_buckets map ∧
    value_size map' = value_size map ∧ flags map' = flags map ∧
    map_ok map' ∧
    (∀ key, stdem_get_value_ex map' key = (NULL, STEM_ERROR_NOT_FOUND) ∧
            stdem_get_name_ex map' key = (None, STEM_ERROR_NOT_FOUND)) ∧
    ∀ key value name,
      ∃ map'',
        stdem_associate_ex mem map' key value name [] = (STEM_SUCCESS, map'', []) ∧
        stem_find_entry map'' key = Some (new_entry mem map key value name).
Proof.
  intros Hok Hro. unfold stdem_clear. rewrite Hro. eexists. split; [done|].
  set (map' := {| count := 0; value_size := value_size map; flags := flags map;
                  buckets := (λ _, []) <$> buckets map |}).
  assert (buckets map' = replicate (length (buckets map)) []) as Hb.
  { simpl. by apply const_fmap. }
  assert (all_entries map' = []) as Hempty.
  { unfold all_entries. rewrite Hb. apply concat_replicate_nil. }
  assert (map_ok map') as Hok'.
  { by eapply (clear_ok map STEM_SUCCESS); [|unfold stdem_clear; rewrite Hro]. }
  assert (∀ key, stem_find_entry map' key = None) as Hnone.
  { intros key. apply find_entry_None; [apply Hok'|]. rewrite Hempty.
    by intros ?%elem_of_nil. }
  assert (num_buckets map' = num_buckets map) as Hnb.
  { unfold num_buckets. by rewrite Hb, length_replicate. }
  split_and!; try done.
  - intros key. unfold stdem_get_value_ex, stdem_get_name_ex.
    rewrite Hnone. by destruct (has_flag (flags map') STEM_FLAGS_NO_NAMES).
  - intros key value name.
    pose proof (ok_buckets _ Hok) as Hpos.
    assert (load_factor_exceeded (count map') (num_buckets map') = false) as Hl
      by apply load_factor_empty.
    rewrite (associate_no_failure mem map' key value name Hro (Hnone key) Hl).
    eexists. split; [done|].
    unfold stem_find_entry, num_buckets. simpl buckets.
    rewrite length_link_entry.
    rewrite link_entry_head by (rewrite length_fmap; lia).
    unfold chain_find. simpl. by rewrite Z.eqb_refl.
Qed.

Lemma clear_empties_witness :
  ∃ map',
    stdem_clear sample_states = (STEM_SUCCESS, map') ∧
    stdem_count map' = 0 ∧ num_buckets map' = num_buckets sample_states ∧
    stdem_get_value_ex map' 3 = (NULL, STEM_ERROR_NOT_FOUND).
Proof.
  destruct (clear_empties sample_memory sample_states
              (reachable_ok _ reachable_sample_states) ltac:(reflexivity))
    as (map' & H1 & H2 & H3 & _ & _ & _ & H4 & _).
  exists map'. split; [exact H1|]. split; [exact H2|].
  split; [exact H3|exact (proj1 (H4 3))].
Defined.

(** ** Growing the table *)



(** X7: whatever its outcome, [stdem_associate_ex] never shrinks the table:
    the number of buckets stays or (when a doubled size fits [size_t]) is
    doubled, and it stays whenever the load test of the source,
    [(float)count / num_buckets > 0.75], does not hold. *)
Theorem associate_never_shrinks (mem : Z → byte) (map : EnumMap) (key : Z)
    (value : pointer) (name : option string) (o : list bool)
    (err : StemError) (map' : EnumMap) (o' : list bool) :
  0 < num_buckets map → num_buckets map * 2 ≤ SIZE_MAX →
  stdem_associate_ex mem map key value name o = (err, map', o') →
  (num_buckets map' = num_buckets map ∨ num_buckets map' = 2 * num_buckets map) ∧
  (load_factor_exceeded (count map) (num_buckets map) = false →
   num_buckets map' = num_buckets map).
Proof.
  intros Hn Hfit Ha.
  apply associate_cases in Ha as [[_ ->]|(_ & _ & Hsz & Hcase)]; [auto|].
  destruct (grown_length map Hn Hsz) as (_ & _ & Hlen).
  rewrite (to_size_t_small (num_buckets map * 2)) in Hlen by lia.
  assert (num_buckets map' = Z.of_nat (length (grown map))) as ->.
  { destruct Hcase as [[_ ->]|[_ ->]]; unfold num_buckets; simpl; [done|].
    by rewrite length_link_entry. }
  rewrite Hlen. destruct (load_factor_exceeded _ _); split; auto; try done. right. lia.
Qed.

Lemma associate_never_shrinks_witness :
  ∃ map',
    stdem_associate_ex sample_memory sample_thirteen 13 (Raw 100) None []
    = (STEM_SUCCESS, map', []) ∧
    (num_buckets map' = num_buckets sample_thirteen ∨
     num_buckets map' = 2 * num_buckets sample_thirteen).
Proof.
  eexists. split; [vm_compute; reflexivity|].
  exact (proj1 (associate_never_shrinks sample_memory sample_thirteen 13
                  (Raw 100) None [] STEM_SUCCESS _ []
                  ltac:(by vm_compute) ltac:(by vm_compute)
                  ltac:(vm_compute; reflexivity))).
Defined.

(** ** Searching by name *)

Lemma name_matches_iff wanted entry :
  name_matches wanted entry = true
  ↔ ∃ s, name entry = Some s ∧ c_str s = c_str wanted.
Proof.
  unfold name_matches. destruct (name entry) as [s|].
  - rewrite String.eqb_eq. split; [eauto|]. by intros (? & [= <-] & ?).
  - split; [done|]. by intros (? & ? & _).
Qed.

Lemma get_name_Some map key s :
  stdem_get_name_ex map key = (Some s, STEM_SUCCESS) →
  has_flag (flags map) STEM_FLAGS_NO_NAMES = false ∧
  ∃ entry, stem_find_entry map key = Some entry ∧ name entry = Some s.
Proof.
  unfold stdem_get_name_ex. destruct (has_flag _ _); [done|].
  destruct (stem_find_entry map key) as [e|]; [|done].
  intros [= H]. eauto.
Qed.

Lemma get_name_of_entry map entry :
  map_ok map → has_flag (flags map) STEM_FLAGS_NO_NAMES = false →
  entry ∈ all_entries map →
  stdem_get_name_ex map (enum_value entry) = (name entry, STEM_SUCCESS).
Proof.
  intros Hok Hfl Hin. unfold stdem_get_name_ex.
  by rewrite Hfl, (find_entry_elem map entry) by (done || apply Hok).
Qed.

Lemma entry_name_c_str map entry s :
  map_ok map → entry ∈ all_entries map → name entry = Some s → c_str s = s.
Proof.
  intros Hok Hin Hs. pose proof (ok_entries _ Hok) as Hes.
  rewrite Forall_forall in Hes.
  by destruct (entry_ok_name _ _ _ _ (Hes entry Hin) Hs).
Qed.

(** X8: [stdem_find_by_name] answers [STEM_SUCCESS] with a key whose name,
    as [stdem_get_name_ex] returns it, is the one searched for, or
    [STEM_ERROR_NOT_FOUND] with key 0, and then no key of the map has that
    name.  A null name is [STEM_ERROR_INVALID_ARG]. *)
Theorem find_by_name_sound_and_complete (map : EnumMap) (wanted : string)
    (key : Z) (err : StemError) :
  map_ok map →
  stdem_find_by_name map (Some wanted) = (key, err) →
  stdem_find_by_name map None = (0, STEM_ERROR_INVALID_ARG) ∧
  ((err = STEM_SUCCESS ∧
    stdem_get_name_ex map key = (Some (c_str wanted), STEM_SUCCESS)) ∨
   (err = STEM_ERROR_NOT_FOUND ∧ key = 0 ∧
    ∀ k, stdem_get_name_ex map k ≠ (Some (c_str wanted), STEM_SUCCESS))).
Proof.
  intros Hok H. split; [done|]. revert H. unfold stdem_find_by_name.
  destruct (has_flag (flags map) STEM_FLAGS_NO_NAMES) eqn:Hfl.
  { intros [= <- <-]. right. split_and!; [done..|].
    intros k. unfold stdem_get_name_ex. by rewrite Hfl. }
  destruct (List.find _ _) as [e|] eqn:Hfind; intros [= <- <-].
  - left. split; [done|]. apply find_some in Hfind as [Hin Hm].
    apply list_elem_of_In in Hin. apply name_matches_iff in Hm as (s & Hs & Hc).
    rewrite (get_name_of_entry map e) by done. rewrite Hs. do 2 f_equal.
    by rewrite <- Hc, (entry_name_c_str map e s).
  - right. split_and!; [done..|]. intros k Hk.
    apply get_name_Some in Hk as (_ & e & He & Hs).
    apply find_entry_Some in He as [Hin _].
    pose proof (find_none _ _ Hfind e ltac:(by apply list_elem_of_In)) as Hno.
    assert (name_matches wanted e = true) as Hyes; [|congruence].
    apply name_matches_iff. exists (c_str wanted). split; [done|].
    apply c_str_idemp.
Qed.

Lemma find_by_name_sound_and_complete_witness :
  stdem_find_by_name sample_states (Some "STATE_ERROR"%string) = (3, STEM_SUCCESS) ∧
  stdem_get_name_ex sample_states 3 = (Some "STATE_ERROR"%string, STEM_SUCCESS).
Proof.
  split; [vm_compute; reflexivity|].
  destruct (find_by_name_sound_and_complete sample_states "STATE_ERROR" 3
              STEM_SUCCESS (reachable_ok _ reachable_sample_states)
              ltac:(vm_compute; reflexivity)) as [_ [[_ H]|[H _]]];
    [exact H|discriminate H].
Defined.

(** X9: after a successful association under a name that no entry carried,
    in a map that stores names, [stdem_find_by_name] finds exactly the key
    just associated. *)
Theorem associate_then_find_by_name (mem : Z → byte) (map : EnumMap) (key : Z)
    (value : pointer) (wanted : string) (o : list bool)
    (map' : EnumMap) (o' : list bool) :
  map_ok map → INT_MIN ≤ key ≤ INT_MAX → readable (value_size map) value →
  has_flag (flags map) STEM_FLAGS_NO_NAMES = false →
  stdem_find_by_name map (Some wanted) = (0, STEM_ERROR_NOT_FOUND) →
  stdem_associate_ex mem map key value (Some wanted) o = (STEM_SUCCESS, map', o') →
  stdem_find_by_name map' (Some wanted) = (key, STEM_SUCCESS).
Proof.
  intros Hok Hk Hr Hfl Hfree Ha.
  apply associate_entries in Ha as (_ & Hfl' & Hent); [|apply Hok..].
  rewrite decide_True in Hent by done. destruct Hent as [Hperm _].
  revert Hfree. unfold stdem_find_by_name. rewrite Hfl', Hfl.
  destruct (List.find _ (all_entries map)) as [e|] eqn:Hnone; [done|]. intros _.
  set (new := new_entry mem map key value (Some wanted)) in *.
  assert (name_matches wanted new = true) as Hnew.
  { apply name_matches_iff. exists (c_str wanted). split; [|apply c_str_idemp].
    simpl. by rewrite Hfl. }
  destruct (List.find _ (all_entries map')) as [e|] eqn:Hfind.
  - apply find_some in Hfind as [Hin Hm]. apply list_elem_of_In in Hin.
    rewrite Hperm in Hin. apply elem_of_cons in Hin as [->|Hin]; [done|].
    apply list_elem_of_In in Hin.
    pose proof (find_none _ _ Hnone e Hin). congruence.
  - assert (In new (all_entries map')) as Hin.
    { apply list_elem_of_In. rewrite Hperm. by apply elem_of_cons; left. }
    pose proof (find_none _ _ Hfind new Hin). congruence.
Qed.

Lemma associate_then_find_by_name_witness :
  ∃ map',
    stdem_associate_ex sample_memory sample_states 9 (Raw 16) (Some "NINE") []
    = (STEM_SUCCESS, map', []) ∧
    stdem_find_by_name map' (Some "NINE"%string) = (9, STEM_SUCCESS).
Proof.
  eexists. split; [vm_compute; reflexivity|].
  exact (associate_then_find_by_name sample_memory sample_states 9 (Raw 16)
           "NINE" [] _ [] (reachable_ok _ reachable_sample_states)
           ltac:(by vm_compute) ltac:(exact I) ltac:(reflexivity)
           ltac:(vm_compute; reflexivity) ltac:(vm_compute; reflexivity)).
Defined.

(** ** Iteration *)

Lemma foldl_snoc_map {A B} (f : A → B) (l : list A) (acc : list B) :
  foldl (λ seen x, seen ++ [f x]) acc l = acc ++ (f <$> l).
Proof.
  revert acc. induction l as [|x l IH]; intros acc; csimpl.
  - by rewrite app_nil_r.
  - by rewrite IH, <- app_assoc.
Qed.

Lemma visits_entries map :
  visits map
  = (λ entry, (enum_value entry, name entry, value entry, value_size map))
      <$> all_entries map.
Proof. unfold visits, stdem_foreach. simpl. by rewrite foldl_snoc_map. Qed.

Lemma entry_name_no_names map entry :
  map_ok map → has_flag (flags map) STEM_FLAGS_NO_NAMES = true →
  entry ∈ all_entries map → name entry = None.
Proof.
  intros Hok Hfl Hin. pose proof (ok_entries _ Hok) as Hes.
  rewrite Forall_forall in Hes. destruct (Hes entry Hin) as [_ Hn _].
  unfold stored_name in Hn. rewrite Hfl in Hn. by destruct (name entry).
Qed.

(** X10: [stdem_foreach] refuses a null iterator with
    [STEM_ERROR_INVALID_ARG]; otherwise it succeeds and applies the
    iterator, in order, to a sequence of visits in which no key occurs
    twice, whose length is the count (modulo [size_t]), and which consists
    exactly of the keys that lookup finds, each with the value that
    [stdem_get_value_ex] returns, the name that [stdem_get_name_ex] returns
    (none under [STEM_FLAGS_NO_NAMES]) and the value size of the map. *)
Theorem foreach_visits_each_entry_once (map : EnumMap) :
  map_ok map →
  (∀ U (user_data : U),
     stdem_foreach map None user_data = (STEM_ERROR_INVALID_ARG, user_data)) ∧
  (∀ U (iterator : EnumMapIterator U) (user_data : U),
     stdem_foreach map (Some iterator) user_data
     = (STEM_SUCCESS,
        foldl (λ state '(ev, en, v, vs), iterator ev en v vs state)
              user_data (visits map))) ∧
  NoDup ((λ visit, visit.1.1.1) <$> visits map) ∧
  stdem_count map = to_size_t (Z.of_nat (length (visits map))) ∧
  ∀ ev en v vs,
    (ev, en, v, vs) ∈ visits map
    ↔ stdem_get_value_ex map ev = (v, STEM_SUCCESS) ∧ vs = value_size map ∧
      if has_flag (flags map) STEM_FLAGS_NO_NAMES then en = None
      else stdem_get_name_ex map ev = (en, STEM_SUCCESS).
Proof.
  intros Hok. rewrite visits_entries. split_and!.
  - done.
  - intros U iterator user_data. unfold stdem_foreach. f_equal.
    generalize user_data. induction (all_entries map) as [|e es IH]; intros u; csimpl; [done|].
    by rewrite IH.
  - rewrite <- list_fmap_compose. apply Hok.
  - rewrite length_fmap. apply Hok.
  - intros ev en v vs. rewrite list_elem_of_fmap. split.
    + intros (e & [= -> -> -> ->] & Hin).
      unfold stdem_get_value_ex, stdem_get_name_ex.
      rewrite (find_entry_elem map e) by (done || apply Hok).
      split_and!; [done..|]. destruct (has_flag _ _) eqn:Hfl; [|done].
      by eapply entry_name_no_names.
    + unfold stdem_get_value_ex, stdem_get_name_ex.
      destruct (stem_find_entry map ev) as [e|] eqn:Hf; [|by intros [[=] _]].
      apply find_entry_Some in Hf as [Hin <-].
      intros ([= <-] & -> & Hn). exists e. split; [|done].
      destruct (has_flag _ _) eqn:Hfl.
      * subst en. by rewrite (entry_name_no_names map e).
      * by injection Hn as <-.
Qed.

Lemma foreach_visits_each_entry_once_witness :
  (3, Some "STATE_ERROR"%string, Heap [x2c; x2d; x2e; x2f], 4) ∈ visits sample_states.
Proof.
  destruct (foreach_visits_each_entry_once sample_states
              (reachable_ok _ reachable_sample_states)) as (_ & _ & _ & _ & H).
  apply H. vm_compute. done.
Defined.

(** X11: [stem::EnumMap::keys] lists every key of the map exactly once: no
    key is repeated, a key is listed if and only if looking it up succeeds,
    and there are as many keys as the count says (modulo [size_t]).
    [names] lists the names of the entries that have one, in the same
    order. *)
Theorem keys_lists_each_key_once (map : EnumMap) :
  map_ok map →
  NoDup (stem.keys map) ∧
  stdem_count map = to_size_t (Z.of_nat (length (stem.keys map))) ∧
  (∀ key, key ∈ stem.keys map ↔ (stdem_get_value_ex map key).2 = STEM_SUCCESS) ∧
  stem.names map = omap name (all_entries map) ∧
  (has_flag (flags map) STEM_FLAGS_NO_NAMES = true → stem.names map = []).
Proof.
  intros Hok.
  assert (stem.keys map = enum_value <$> all_entries map) as Hkeys.
  { unfold stem.keys, stdem_foreach. simpl.
    by rewrite (foldl_snoc_map enum_value). }
  assert (stem.names map = omap name (all_entries map)) as Hnames.
  { unfold stem.names, stdem_foreach. simpl.
    assert (∀ l acc,
      foldl (λ (state : list string) (entry : EnumEntry),
               match name entry with
               | Some en => state ++ [c_str en]
               | None => state
               end) acc l = acc ++ omap (λ entry, c_str <$> name entry) l) as H.
    { induction l as [|e l IH]; intros acc; csimpl; [by rewrite app_nil_r|].
      rewrite IH. destruct (name e); simpl; [|done]. by rewrite <- app_assoc. }
    rewrite H. simpl.
    assert (∀ l : list EnumEntry,
              (∀ e, e ∈ l → ∀ s, name e = Some s → c_str s = s) →
              omap (λ entry, c_str <$> name entry) l = omap name l) as Hc.
    { induction l as [|e l IH]; intros Hl; csimpl; [done|].
      rewrite IH by (intros e' He'; apply Hl; by apply elem_of_cons; right).
      destruct (name e) as [s|] eqn:E; simpl; [|done].
      by rewrite (Hl e ltac:(by apply elem_of_cons; left) s E). }
    apply Hc. intros e He s Hs. by eapply entry_name_c_str. }
  rewrite Hkeys. split_and!.
  - apply Hok.
  - rewrite length_fmap. apply Hok.
  - intros key. unfold stdem_get_value_ex.
    destruct (stem_find_entry map key) as [e|] eqn:Hf; simpl.
    + apply find_entry_Some in Hf as [Hin <-]. split; [done|]. intros _.
      by apply list_elem_of_fmap_2.
    + apply find_entry_None in Hf; [|apply Hok]. split; [done|]. by intros [=].
  - done.
  - intros Hfl. rewrite Hnames.
    assert (∀ l, (∀ e, e ∈ l → name e = None) → omap name l = []) as H.
    { induction l as [|e l IH]; intros Hl; csimpl; [done|].
      rewrite (Hl e) by by apply elem_of_cons; left.
      apply IH. intros e' He'. apply Hl. by apply elem_of_cons; right. }
    apply H. intros e He. by eapply entry_name_no_names.
Qed.

Lemma keys_lists_each_key_once_witness :
  NoDup (stem.keys sample_states) ∧ (3 ∈ stem.keys sample_states).
Proof.
  destruct (keys_lists_each_key_once sample_states
              (reachable_ok _ reachable_sample_states)) as (H1 & _ & H2 & _).
  split; [exact H1|]. apply H2. vm_compute. reflexivity.
Defined.

(** ** Existence tests *)

(** X12: [stdem_exists] and [stdem_get_value_or] test the value pointer
    that lookup returns, not its error code: a key that is not found does
    not exist, but neither does a key that was just associated with a null
    pointer, although associating it again reports
    [STEM_ERROR_ALREADY_EXISTS]; with a non-null pointer it exists. *)
Theorem exists_tests_the_stored_pointer (mem : Z → byte) (map : EnumMap)
    (key : Z) (value : pointer) (name : option string) (o : list bool)
    (map' : EnumMap) (o' : list bool) (default_value : pointer) :
  map_ok map → INT_MIN ≤ key ≤ INT_MAX → readable (value_size map) value →
  stdem_associate_ex mem map key value name o = (STEM_SUCCESS, map', o') →
  stdem_exists map key = false ∧
  stdem_exists map' key = negb (is_null value) ∧
  (is_null value = true →
   stdem_get_value_or map' key default_value = default_value) ∧
  (∀ value2 name2 o2,
     stdem_associate_ex mem map' key value2 name2 o2
     = (STEM_ERROR_ALREADY_EXISTS, map', o2)) ∧
  ∀ k, stdem_exists map' k = true →
       (stdem_get_value_ex map' k).2 = STEM_SUCCESS.
Proof.
  intros Hok Hk Hr Ha.
  pose proof (associate_ok _ _ _ _ _ _ _ _ _ Hok Hk Hr Ha) as Hok'.
  pose proof (λ k, associate_find _ _ _ _ _ _ _ _ k Hok Hk Hr Ha) as Hfind.
  pose proof Ha as Hc.
  apply associate_cases in Hc as [[? _]|(Hro & Hnone & _ & [[? _]|[_ Hmap]])];
    try done.
  apply associate_entries in Ha as (_ & Hfl & _); [|apply Hok..].
  assert ((stdem_get_value_ex map' key).1
          = stored_value mem (value_size map) value) as Hv.
  { unfold stdem_get_value_ex. by rewrite Hfind, decide_True. }
  assert (is_null (stored_value mem (value_size map) value) = is_null value)
    as Hn.
  { unfold stored_value. destruct (0 <? value_size map); simpl; [|done].
    by destruct (is_null value) eqn:E. }
  unfold stdem_exists, stdem_get_value_or. rewrite Hv, Hn.
  split_and!.
  - unfold stdem_get_value_ex. by rewrite Hnone.
  - done.
  - by intros ->.
  - intros. unfold stdem_associate_ex.
    rewrite Hfl, Hro, Hfind, decide_True by done. done.
  - intros k. unfold stdem_get_value_ex.
    by destruct (stem_find_entry map' k).
Qed.

Lemma exists_tests_the_stored_pointer_witness :
  ∃ map',
    stdem_associate_ex sample_memory sample_twelve 40 NULL (Some "NIL") []
    = (STEM_SUCCESS, map', []) ∧
    stdem_exists map' 40 = false ∧
    stdem_associate_ex sample_memory map' 40 (Raw 8) None []
    = (STEM_ERROR_ALREADY_EXISTS, map', []).
Proof.
  eexists. split; [vm_compute; reflexivity|].
  pose proof (exists_tests_the_stored_pointer sample_memory sample_twelve 40
                NULL (Some "NIL"%string) [] _ [] NULL
                (reachable_ok _ reachable_sample_twelve)
                ltac:(by vm_compute) ltac:(exact I)
                ltac:(vm_compute; reflexivity)) as (_ & H1 & _ & H2 & _).
  split; [exact H1|exact (H2 (Raw 8) None [])].
Defined.

(** ** Writing and reading streams *)

Lemma fwrite_nil stream : fwrite [] stream = Ok stream.
Proof.
  unfold fwrite. rewrite decide_True by (simpl; lia). destruct stream as [w r].
  simpl. by rewrite app_nil_r, Nat.sub_0_r.
Qed.

Lemma fwrite_app a b stream :
  (stream' ← fwrite a stream; fwrite b stream') = fwrite (a ++ b) stream.
Proof.
  unfold fwrite. rewrite length_app.
  destruct (decide (length a ≤ room stream)%nat) as [Ha|Ha]; cbn [mbind result_bind].
  - cbn [room written].
    destruct (decide (length b ≤ room stream - length a)%nat) as [Hb|Hb].
    + rewrite decide_True by lia. rewrite <- app_assoc. do 2 f_equal. lia.
    + by rewrite decide_False by lia.
  - by rewrite decide_False by lia.
Qed.

Lemma serialize_entry_fwrite mem map fl stream entry :
  0 < value_size map → entry_ok (value_size map) fl entry →
  is_null (value entry) = false →
  serialize_entry mem map stream entry = fwrite (encode_entry entry) stream.
Proof.
  intros Hvs Hok Hnn. unfold serialize_entry, encode_entry. cbv zeta.
  change (match name entry with
          | Some s => to_uint16 (strlen s)
          | None => 0
          end) with (name_length entry).
  assert ((0 <? value_size map) = true) as -> by by apply Z.ltb_lt.
  rewrite Hnn.
  destruct (value_is_stored _ _ _ Hok Hvs) as [Hnull|(bytes & Hb & Hlen)].
  { by rewrite Hnull in Hnn. }
  rewrite Hb. cbn [read_bytes]. rewrite take_ge by lia.
  rewrite <- fwrite_app.
  destruct (fwrite (le_bytes 4 _) stream) as [s1| |]; cbn [mbind result_bind]; [|done..].
  rewrite <- fwrite_app.
  destruct (fwrite (le_bytes 2 _) s1) as [s2| |]; cbn [mbind result_bind]; [|done..].
  rewrite <- fwrite_app.
  destruct (0 <? name_length entry); [done|].
  by rewrite fwrite_nil.
Qed.

Lemma serialize_entries_fwrite mem map fl entries :
  ∀ stream,
    0 < value_size map → Forall (entry_ok (value_size map) fl) entries →
    Forall (λ entry, is_null (value entry) = false) entries →
    serialize_entries mem map stream entries
    = fwrite (concat (encode_entry <$> entries)) stream.
Proof.
  induction entries as [|e es IH]; intros stream Hvs Hes Hnn.
  { simpl. by rewrite fwrite_nil. }
  apply Forall_cons in Hes as [He Hes]. apply Forall_cons in Hnn as [Hn Hnn].
  rewrite fmap_cons. cbn [concat serialize_entries].
  rewrite <- fwrite_app, (serialize_entry_fwrite mem map fl) by done.
  destruct (fwrite (encode_entry e) stream) as [s1| |]; cbn [mbind result_bind];
    [|done..].
  by apply IH.
Qed.

(** X13: on a map that copies values and holds no null value,
    [stdem_serialize] succeeds exactly when the stream accepts the 26 bytes
    of the header followed by the bytes of every entry, and it has then
    appended exactly those bytes; otherwise it fails with
    [STEM_ERROR_INVALID_ARG]. *)
Theorem serialize_needs_room (mem : Z → byte) (map : EnumMap) (stream : ostream) :
  map_ok map → 0 < value_size map →
  Forall (λ entry, is_null (value entry) = false) (all_entries map) →
  stdem_serialize mem map stream
  = let data := encode_header map ++ concat (encode_entry <$> all_entries map) in
    if decide (length data ≤ room stream)%nat
    then Ok {| written := written stream ++ data;
               room := room stream - length data |}
    else Err STEM_ERROR_INVALID_ARG.
Proof.
  intros Hok Hvs Hnn. cbv zeta.
  change (if decide _ then _ else _)
    with (fwrite (encode_header map ++ concat (encode_entry <$> all_entries map))
                 stream).
  unfold stdem_serialize, encode_header. rewrite <- !app_assoc.
  rewrite <- fwrite_app.
  destruct (fwrite (le_bytes 4 _) stream) as [s1| |]; cbn [mbind result_bind]; [|done..].
  rewrite <- fwrite_app.
  destruct (fwrite (le_bytes 2 _) s1) as [s2| |]; cbn [mbind result_bind]; [|done..].
  rewrite <- fwrite_app.
  destruct (fwrite (le_bytes 8 _) s2) as [s3| |]; cbn [mbind result_bind]; [|done..].
  rewrite <- fwrite_app.
  destruct (fwrite (le_bytes 8 _) s3) as [s4| |]; cbn [mbind result_bind]; [|done..].
  rewrite <- fwrite_app.
  destruct (fwrite (le_bytes 4 _) s4) as [s5| |]; cbn [mbind result_bind]; [|done..].
  apply (serialize_entries_fwrite mem map (flags map)); [done|apply Hok|done].
Qed.

Lemma serialize_needs_room_witness :
  stdem_serialize sample_memory sample_states (mkOstream [] 128)
  = Err STEM_ERROR_INVALID_ARG ∧
  ∃ out, stdem_serialize sample_memory sample_states (mkOstream [] 129) = Ok out
         ∧ room out = 0%nat.
Proof.
  pose proof (λ stream,
    serialize_needs_room sample_memory sample_states stream
      (reachable_ok _ reachable_sample_states) ltac:(by vm_compute)
      ltac:(vm_compute; repeat constructor)) as H.
  split.
  - rewrite H. vm_compute. reflexivity.
  - eexists. rewrite H. split; vm_compute; reflexivity.
Defined.

Lemma deserialize_short mem stream o :
  (length stream < 26)%nat →
  stdem_deserialize mem stream o = (Err STEM_ERROR_INVALID_ARG, o).
Proof.
  intros Hlen. unfold stdem_deserialize, fread.
  destruct (decide (Z.to_nat 4 ≤ length stream)%nat); cbn [mbind result_bind]; [|done].
  destruct (decide (le_value _ ≠ ENUM_MAGIC)); [done|].
  destruct (decide (Z.to_nat 2 ≤ length (drop _ stream))%nat);
    cbn [mbind result_bind]; [|done].
  destruct (decide (le_value _ ≠ FORMAT_VERSION)); [done|].
  destruct (decide (Z.to_nat 8 ≤ length (drop _ (drop _ stream)))%nat);
    cbn [mbind result_bind]; [|done].
  destruct (decide (Z.to_nat 8 ≤ length (drop _ (drop _ (drop _ stream))))%nat);
    cbn [mbind result_bind]; [|done].
  destruct (decide (Z.to_nat 4
                    ≤ length (drop _ (drop _ (drop _ (drop _ stream)))))%nat);
    cbn [mbind result_bind]; [|done].
  rewrite !length_drop in *. lia.
Qed.

Lemma deserialize_long mem stream o :
  (26 ≤ length stream)%nat →
  stdem_deserialize mem stream o
  = if decide (le_value (take 4 stream) ≠ ENUM_MAGIC)
    then (Err STEM_ERROR_INVALID_ARG, o)
    else if decide (le_value (take 2 (drop 4 stream)) ≠ FORMAT_VERSION)
    then (Err STEM_ERROR_INVALID_ARG, o)
    else (created ← stdem_create_ex (le_value (take 8 (drop 6 stream)))
                                    (le_value (take 8 (drop 14 stream)))
                                    (le_value (take 4 (drop 22 stream)));
          match created with
          | Ok map =>
              deserialize_entries mem
                (Z.to_nat (le_value (take 8 (drop 6 stream))))
                (le_value (take 8 (drop 14 stream))) map (drop 26 stream)
          | failure => mret failure
          end) o.
Proof.
  intros Hlen. unfold stdem_deserialize, fread.
  rewrite decide_True by lia. cbn [mbind result_bind].
  change (Z.to_nat 4) with 4%nat. change (Z.to_nat 2) with 2%nat.
  change (Z.to_nat 8) with 8%nat.
  destruct (decide (le_value _ ≠ ENUM_MAGIC)); [done|].
  rewrite decide_True by (rewrite length_drop; lia). cbn [mbind result_bind].
  destruct (decide (le_value _ ≠ FORMAT_VERSION)); [done|].
  rewrite !drop_drop.
  rewrite decide_True by (rewrite length_drop; lia). cbn [mbind result_bind].
  rewrite !drop_drop.
  rewrite decide_True by (rewrite length_drop; lia). cbn [mbind result_bind].
  rewrite !drop_drop.
  rewrite decide_True by (rewrite length_drop; lia). cbn [mbind result_bind].
  done.
Qed.

(** X14: [stdem_deserialize] rejects with [STEM_ERROR_INVALID_ARG], before
    anything is allocated, a stream shorter than the 26 bytes of a header,
    a header whose first four bytes are not the magic number, whose next
    two are not the version 1, or whose entry count is 0. *)
Theorem deserialize_rejects_bad_header (mem : Z → byte) (stream : list byte)
    (o : list bool) :
  (length stream < 26)%nat ∨
  le_value (take 4 stream) ≠ ENUM_MAGIC ∨
  le_value (take 2 (drop 4 stream)) ≠ FORMAT_VERSION ∨
  le_value (take 8 (drop 6 stream)) = 0 →
  stdem_deserialize mem stream o = (Err STEM_ERROR_INVALID_ARG, o).
Proof.
  intros H. destruct (decide (length stream < 26)%nat) as [Hs|Hl].
  { by apply deserialize_short. }
  rewrite deserialize_long by lia.
  destruct (decide (le_value (take 4 stream) ≠ ENUM_MAGIC)); [done|].
  destruct (decide (le_value (take 2 (drop 4 stream)) ≠ FORMAT_VERSION)); [done|].
  destruct H as [?|[?|[?|Hz]]]; [lia|done|done|].
  rewrite Hz. done.
Qed.

Lemma deserialize_rejects_bad_header_witness :
  stdem_deserialize sample_memory (le_bytes 4 ENUM_MAGIC ++ le_bytes 2 2) []
  = (Err STEM_ERROR_INVALID_ARG, []).
Proof.
  apply deserialize_rejects_bad_header. left. vm_compute. lia.
Defined.

(** X15: an empty map is written as its header alone, which
    [stdem_serialize] accepts when the stream has room for 26 bytes; but
    [stdem_deserialize] rejects these bytes with [STEM_ERROR_INVALID_ARG],
    since the header announces no entry: an empty map does not survive the
    round trip. *)
Theorem empty_map_not_restorable (mem mem' : Z → byte) (map : EnumMap)
    (room : nat) (o : list bool) :
  map_ok map → all_entries map = [] → (26 ≤ room)%nat →
  ∃ out,
    stdem_serialize mem map (mkOstream [] room) = Ok out ∧
    written out = encode_header map ∧
    stdem_deserialize mem' (written out) o = (Err STEM_ERROR_INVALID_ARG, o).
Proof.
  intros Hok Hempty Hroom.
  assert (stdem_serialize mem map (mkOstream [] room)
          = fwrite (encode_header map) (mkOstream [] room)) as Hs.
  { unfold stdem_serialize, encode_header. generalize (mkOstream [] room).
    intros s0. rewrite <- fwrite_app.
    destruct (fwrite (le_bytes 4 _) s0) as [s1| |]; cbn [mbind result_bind]; [|done..].
    rewrite <- fwrite_app.
    destruct (fwrite (le_bytes 2 _) s1) as [s2| |]; cbn [mbind result_bind]; [|done..].
    rewrite <- fwrite_app.
    destruct (fwrite (le_bytes 8 _) s2) as [s3| |]; cbn [mbind result_bind]; [|done..].
    rewrite <- fwrite_app.
    destruct (fwrite (le_bytes 8 _) s3) as [s4| |]; cbn [mbind result_bind]; [|done..].
    rewrite Hempty. cbn [serialize_entries].
    by destruct (fwrite _ s4). }
  rewrite Hs. unfold fwrite.
  assert (length (encode_header map) = 26%nat) as Hl.
  { unfold encode_header. by rewrite !length_app, !length_le_bytes. }
  rewrite decide_True by (simpl; lia). eexists. split; [done|]. simpl.
  split; [done|].
  rewrite <- (app_nil_r (encode_header map)), deserialize_header by done.
  rewrite (ok_count _ Hok), Hempty. done.
Qed.

Lemma empty_map_not_restorable_witness :
  ∃ out,
    stdem_serialize sample_memory sample_copying (mkOstream [] 26) = Ok out ∧
    stdem_deserialize sample_memory (written out) []
    = (Err STEM_ERROR_INVALID_ARG, []).
Proof.
  destruct (empty_map_not_restorable sample_memory sample_memory sample_copying
              26 [] (empty_table_ok 16 4 0 ltac:(lia) ltac:(by vm_compute)
                       ltac:(by vm_compute))
              ltac:(reflexivity) ltac:(lia)) as (out & H1 & _ & H2).
  by exists out.
Defined.

Lemma deserialize_entries_count mem n :
  ∀ map stream o map' o',
    map_ok map →
    deserialize_entries mem n (value_size map) map stream o = (Ok map', o') →
    count map' = to_size_t (count map + Z.of_nat n) ∧
    value_size map' = value_size map ∧ flags map' = flags map.
Proof.
  induction n as [|n IH]; intros map stream o map' o' Hok.
  { simpl. intros [= <- <-]. split_and!; [|done..].
    rewrite Z.add_0_r, (ok_count _ Hok). unfold to_size_t.
    by rewrite Z.mod_mod. }
  cbn [deserialize_entries]. alloc_unfold.
  destruct (deserialize_entry _ _ _ _ _) as [[[m1 s1]| |] o1] eqn:Hd; [|done..].
  apply deserialize_entry_cases in Hd as (key & value & name & o0 & Hk & Hr & Ha).
  pose proof (associate_ok _ _ _ _ _ _ _ _ _ Hok Hk Hr Ha) as Hok1.
  apply associate_entries in Ha as (Hvs & Hfl & Hent); [|apply Hok..].
  rewrite decide_True in Hent by done. destruct Hent as [_ Hc].
  rewrite <- Hvs. intros H. apply IH in H as (Hc' & Hvs' & Hfl'); [|done].
  split_and!; [|congruence..].
  rewrite Hc', Hc. unfold to_size_t. rewrite Zplus_mod_idemp_l. f_equal. lia.
Qed.

(** X16: a map that [stdem_deserialize] returns satisfies the representation
    invariant, has the value size and the flags of the header and as many
    entries as the header announces, at least one; it is never read-only
    (a header carrying [STEM_FLAGS_READONLY] makes the first association
    fail). *)
Theorem deserialize_result (mem : Z → byte) (stream : list byte)
    (o : list bool) (map : EnumMap) (o' : list bool) :
  stdem_deserialize mem stream o = (Ok map, o') →
  map_ok map ∧
  stdem_count map = le_value (take 8 (drop 6 stream)) ∧
  0 < stdem_count map ∧
  stdem_value_size map = le_value (take 8 (drop 14 stream)) ∧
  flags map = le_value (take 4 (drop 22 stream)) ∧
  has_flag (flags map) STEM_FLAGS_READONLY = false.
Proof.
  intros H. pose proof (deserialize_ok _ _ _ _ _ H) as Hok.
  destruct (decide (length stream < 26)%nat) as [Hs|Hl].
  { by rewrite deserialize_short in H. }
  rewrite deserialize_long in H by lia.
  destruct (decide (le_value (take 4 stream) ≠ ENUM_MAGIC)); [done|].
  destruct (decide (le_value (take 2 (drop 4 stream)) ≠ FORMAT_VERSION)); [done|].
  set (cnt := le_value (take 8 (drop 6 stream))) in *.
  set (vs := le_value (take 8 (drop 14 stream))) in *.
  set (fl := le_value (take 4 (drop 22 stream))) in *.
  assert (0 ≤ cnt ≤ SIZE_MAX ∧ 0 ≤ vs ≤ SIZE_MAX ∧ 0 ≤ fl < 2 ^ 32)
    as (Rc & Rv & Rf).
  { pose proof (le_value_range (take 8 (drop 6 stream))) as R1.
    pose proof (le_value_range (take 8 (drop 14 stream))) as R2.
    pose proof (le_value_range (take 4 (drop 22 stream))) as R3.
    rewrite length_take, length_drop in R1, R2, R3.
    rewrite Nat.min_l in R1, R2, R3 by lia.
    change (256 ^ Z.of_nat 8) with 18446744073709551616 in R1, R2.
    change (256 ^ Z.of_nat 4) with 4294967296 in R3.
    unfold SIZE_MAX. change (2 ^ 64) with 18446744073709551616.
    change (2 ^ 32) with 4294967296. subst cnt vs fl. lia. }
  revert H. alloc_unfold.
  destruct (stdem_create_ex _ _ _ _) as [[m0| |] o1] eqn:Hc; [|done..].
  pose proof (create_ok _ _ _ _ _ _ (proj1 Rc) Rv Rf Hc) as Hok0.
  apply create_cases in Hc as (Hpos & _ & ->); [|lia].
  intros H.
  apply (deserialize_entries_count mem _ (mkMap _ _ _ _)) in H
    as (Hcount & Hvs & Hfl); [|done].
  simpl in Hcount, Hvs, Hfl.
  assert (count map = cnt) as Hcnt.
  { rewrite Hcount, Z.add_0_l, Z2Nat.id by lia. apply to_size_t_small. lia. }
  split_and!; try done.
  - unfold stdem_count. lia.
  - apply (ok_writable _ Hok). intros Hempty.
    rewrite (ok_count _ Hok), Hempty in Hcnt. simpl in Hcnt.
    unfold to_size_t in Hcnt. rewrite Z.mod_0_l in Hcnt by done. lia.
Qed.

Lemma deserialize_result_witness :
  ∃ map,
    stdem_deserialize sample_memory
      (encode_header sample_states
       ++ concat (encode_entry <$> all_entries sample_states)) []
    = (Ok map, []) ∧
    stdem_count map = 5 ∧ stdem_value_size map = 4.
Proof.
  eexists. split; [vm_compute; reflexivity|].
  match goal with
  | |- stdem_count ?map = _ ∧ _ =>
      assert (stdem_deserialize sample_memory
                (encode_header sample_states
                 ++ concat (encode_entry <$> all_entries sample_states)) []
              = (Ok map, [])) as H by (vm_compute; reflexivity)
  end.
  destruct (deserialize_result _ _ _ _ _ H) as (_ & H1 & _ & H2 & _).
  split; [exact H1|exact H2].
Defined.

(** ** Copying and merging *)

Lemma find_entry_fmap (f : EnumEntry → EnumEntry) map map' key :
  (∀ entry, enum_value (f entry) = enum_value entry) →
  map_ok map → map_ok map' →
  all_entries map' ≡ₚ f <$> all_entries map →
  stem_find_entry map' key = f <$> stem_find_entry map key.
Proof.
  intros Hf Hok Hok' Hperm.
  destruct (stem_find_entry map key) as [e|] eqn:E; simpl.
  - apply find_entry_Some in E as [He <-]. rewrite <- (Hf e).
    apply find_entry_elem; [apply Hok'..|]. rewrite Hperm.
    by apply list_elem_of_fmap_2.
  - apply find_entry_None; [apply Hok'|]. rewrite Hperm.
    assert (∀ l : list EnumEntry, enum_value <$> (f <$> l) = enum_value <$> l)
      as ->.
    { intros l. induction l as [|x l IH]; [done|].
      by rewrite !fmap_cons, Hf, IH. }
    by apply find_entry_None in E; [|apply Hok].
Qed.

(** An association into a map of fewer than 2^62 entries succeeds when no
    allocation fails: a table of 2^63 buckets, whose doubling would not
    fit [size_t], is not found over its load factor. *)
Lemma associate_fresh_succeeds mem map key value name :
  map_ok map → has_flag (flags map) STEM_FLAGS_READONLY = false →
  stem_find_entry map key = None →
  0 ≤ count map < 2 ^ 62 → num_buckets map < 2 ^ 64 →
  stdem_associate_ex mem map key value name []
  = (STEM_SUCCESS, linked map (new_entry mem map key value name), []) ∧
  num_buckets (linked map (new_entry mem map key value name)) < 2 ^ 64 ∧
  count (linked map (new_entry mem map key value name)) = count map + 1.
Proof.
  intros Hok Hro Hfind Hc Hnb.
  assert (0 < num_buckets map) as Hnb0.
  { pose proof (ok_buckets _ Hok). unfold num_buckets. lia. }
  assert (load_factor_exceeded (count map) (num_buckets map) = true →
          num_buckets map < 2 ^ 63) as Hsmall.
  { intros Hload.
    destruct (Z.lt_ge_cases (num_buckets map) (2 ^ 63)) as [|Hbig]; [done|].
    by rewrite load_factor_large in Hload. }
  change (2 ^ 62) with 4611686018427387904 in Hc.
  change (2 ^ 64) with 18446744073709551616 in *.
  change (2 ^ 63) with 9223372036854775808 in Hsmall.
  assert (load_factor_exceeded (count map) (num_buckets map) = true →
          0 < to_size_t (num_buckets map * 2)) as Hsz.
  { intros Hload. specialize (Hsmall Hload).
    rewrite to_size_t_small; [lia|]. unfold SIZE_MAX.
    change (2 ^ 64) with 18446744073709551616. lia. }
  split; [|split].
  - apply associate_succeeds; [done..|]. intros Hload.
    specialize (Hsz Hload). lia.
  - destruct (grown_length map Hnb0 Hsz) as (_ & _ & Hlen).
    unfold num_buckets at 1. simpl. rewrite length_link_entry, Hlen.
    destruct (load_factor_exceeded _ _); [|done].
    specialize (Hsmall eq_refl).
    rewrite to_size_t_small; [lia|]. unfold SIZE_MAX.
    change (2 ^ 64) with 18446744073709551616. lia.
  - simpl. apply to_size_t_small. unfold SIZE_MAX.
    change (2 ^ 64) with 18446744073709551616. lia.
Qed.

Lemma associate_all_succeed mem entries :
  ∀ map fl0,
    map_ok map → has_flag (flags map) STEM_FLAGS_READONLY = false →
    Forall (entry_ok (value_size map) fl0) entries →
    NoDup ((enum_value <$> entries) ++ (enum_value <$> all_entries map)) →
    0 ≤ count map → count map + Z.of_nat (length entries) ≤ 2 ^ 62 →
    num_buckets map < 2 ^ 64 →
    ∃ map', associate_all mem map entries [] = (STEM_SUCCESS, map', []).
Proof.
  induction entries as [|e es IH]; intros map fl0 Hok Hro Hes Hnd Hc0 Hc Hnb.
  { simpl. by eexists. }
  apply Forall_cons in Hes as [He Hes].
  csimpl in Hnd. apply NoDup_cons in Hnd as [Hfresh Hnd].
  assert (stem_find_entry map (enum_value e) = None) as Hfind.
  { apply find_entry_None; [apply Hok|]. intros Hin. apply Hfresh.
    apply elem_of_app. by right. }
  simpl length in Hc.
  destruct (associate_fresh_succeeds mem map (enum_value e) (value e) (name e)
              Hok Hro Hfind) as (Ha & Hnb1 & Hc1); [|done|].
  { change (2 ^ 62) with 4611686018427387904 in *. lia. }
  cbn [associate_all]. alloc_unfold. rewrite Ha.
  rewrite decide_False by (by intros []).
  pose proof (associate_ok _ _ _ _ _ _ _ _ _ Hok (key_is_int _ _ _ He)
                (entry_ok_readable _ _ _ He) Ha) as Hok1.
  apply associate_entries in Ha as (Hvs1 & Hfl1 & Hent); [|apply Hok..].
  rewrite decide_True in Hent by done. destruct Hent as [Hperm _].
  set (map1 := linked map (new_entry mem map (enum_value e) (value e) (name e)))
    in *.
  assert (has_flag (flags map1) STEM_FLAGS_READONLY = false) as Hro1
    by (by rewrite Hfl1).
  assert (Forall (entry_ok (value_size map1) fl0) es) as Hes1
    by (by rewrite Hvs1).
  assert (NoDup ((enum_value <$> es) ++ (enum_value <$> all_entries map1)))
    as Hnd1.
  { rewrite Hperm. csimpl. rewrite <- Permutation_middle.
    apply NoDup_cons. split; [|done].
    intros [Hin|Hin]%elem_of_app; [|by apply find_entry_None in Hfind; [|apply Hok]].
    apply Hfresh. apply elem_of_app. by left. }
  apply (IH map1 fl0 Hok1 Hro1 Hes1 Hnd1); [lia| |done].
  change (2 ^ 62) with 4611686018427387904 in *. lia.
Qed.

(** X17: copying a populated map of at most 2^62 entries succeeds when no
    allocation fails. *)
Theorem copy_succeeds (mem : Z → byte) (map : EnumMap) :
  map_ok map → all_entries map ≠ [] →
  Z.of_nat (length (all_entries map)) ≤ 2 ^ 62 →
  ∃ map', stdem_copy mem map [] = (Ok map', []).
Proof.
  intros Hok Hne Hsmall.
  assert (count map = Z.of_nat (length (all_entries map))) as Hcount.
  { rewrite (ok_count _ Hok). apply to_size_t_small. unfold SIZE_MAX.
    change (2 ^ 62) with 4611686018427387904 in Hsmall.
    change (2 ^ 64) with 18446744073709551616. lia. }
  assert (0 < count map < 2 ^ 63) as Hc63.
  { change (2 ^ 62) with 4611686018427387904 in Hsmall.
    change (2 ^ 63) with 9223372036854775808.
    destruct (all_entries map); [done|]. simpl length in *. lia. }
  pose proof (create_no_failure (count map) (value_size map) (flags map) Hc63)
    as Hcreate.
  destruct (create_cases (count map) _ _ _ _ _ ltac:(lia) Hcreate)
    as (_ & Hib & _).
  set (fresh := {| count := 0; value_size := value_size map; flags := flags map;
                   buckets := replicate (Z.to_nat (initial_buckets (count map))) [] |})
    in *.
  assert (map_ok fresh) as Hfresh.
  { apply empty_table_ok; [lia|apply Hok..]. }
  assert (all_entries fresh = []) as Hempty.
  { unfold all_entries. simpl. apply concat_replicate_nil. }
  assert (NoDup ((enum_value <$> all_entries map)
                 ++ (enum_value <$> all_entries fresh))) as Hnd.
  { rewrite Hempty. simpl. rewrite app_nil_r. apply Hok. }
  assert (num_buckets fresh < 2 ^ 64) as Hnb.
  { unfold num_buckets.
    change (buckets fresh)
      with (replicate (Z.to_nat (initial_buckets (count map)))
                      (@nil EnumEntry)).
    rewrite length_replicate. unfold SIZE_MAX in Hib. lia. }
  destruct (associate_all_succeed mem (all_entries map) fresh (flags map)
              Hfresh (ok_writable _ Hok Hne) (ok_entries _ Hok) Hnd
              ltac:(done) ltac:(exact Hsmall) Hnb) as [map' Hall].
  exists map'. unfold stdem_copy. alloc_unfold. rewrite Hcreate, Hall.
  by rewrite decide_False by (by intros []).
Qed.

Lemma copy_succeeds_witness :
  ∃ map', stdem_copy sample_memory sample_states [] = (Ok map', []).
Proof.
  apply (copy_succeeds sample_memory sample_states
           (reachable_ok _ reachable_sample_states)); by vm_compute.
Defined.

(** What [merge_second] leaves under each key: the keys of the second map
    that were absent are associated, those present are overwritten or
    skipped, every other key is untouched. *)
Lemma merge_second_domain mem overwrite entries :
  ∀ new_map o map' o' fl2,
    map_ok new_map →
    Forall (entry_ok (value_size new_map) fl2) entries →
    NoDup (enum_value <$> entries) →
    merge_second mem overwrite new_map entries o = (Ok map', o') →
    (∀ key, key ∉ enum_value <$> entries →
       stem_find_entry map' key = stem_find_entry new_map key) ∧
    (∀ entry, entry ∈ entries →
       stem_find_entry map' (enum_value entry)
       = Some match stem_find_entry new_map (enum_value entry) with
              | None => new_entry mem new_map (enum_value entry) (value entry)
                                  (name entry)
              | Some existing =>
                  if overwrite
                  then overwritten (flags new_map) existing entry
                  else existing
              end).
Proof.
  induction entries as [|e es IH]; intros new_map o map' o' fl2 Hok Hes Hnd; simpl.
  { intros [= <- <-]. split; [done|by intros ? ?%elem_of_nil]. }
  apply Forall_cons in Hes as [He Hes]. csimpl in Hnd.
  apply NoDup_cons in Hnd as [Hfresh Hnd]. alloc_unfold.
  assert (∀ map1 o1 held,
    map_ok map1 → value_size map1 = value_size new_map →
    flags map1 = flags new_map →
    (∀ k, stem_find_entry map1 k
          = if decide (k = enum_value e) then Some held
            else stem_find_entry new_map k) →
    merge_second mem overwrite map1 es o1 = (Ok map', o') →
    (∀ key, key ∉ enum_value e :: (enum_value <$> es) →
       stem_find_entry map' key = stem_find_entry new_map key) ∧
    stem_find_entry map' (enum_value e) = Some held ∧
    (∀ entry, entry ∈ es →
       stem_find_entry map' (enum_value entry)
       = Some match stem_find_entry new_map (enum_value entry) with
              | None => new_entry mem new_map (enum_value entry) (value entry)
                                  (name entry)
              | Some existing =>
                  if overwrite
                  then overwritten (flags new_map) existing entry
                  else existing
              end)) as Hstep.
  { intros map1 o1 held Hok1 Hvs Hfl Hfind H.
    eapply IH in H as [Hout Hin]; [|done|by rewrite Hvs|done].
    split_and!.
    - intros key Hkey. apply not_elem_of_cons in Hkey as [Hk1 Hk2].
      rewrite Hout by done. rewrite Hfind. by rewrite decide_False.
    - rewrite Hout by done. rewrite Hfind. by rewrite decide_True.
    - intros entry Hentry. rewrite (Hin entry Hentry).
      assert (enum_value entry ≠ enum_value e) as Hneq.
      { intros Heq. apply Hfresh. rewrite <- Heq. by apply list_elem_of_fmap_2. }
      rewrite Hfind, decide_False by done.
      unfold new_entry. by rewrite Hvs, Hfl. }
  destruct (stem_find_entry new_map (enum_value e)) as [existing|] eqn:Hf.
  - destruct overwrite.
    + destruct (merge_overwrite _ _ _ _ _) as [r o1] eqn:Hm.
      assert (entry_ok (value_size new_map) (flags new_map) existing) as Hx.
      { apply find_entry_Some in Hf as [Hin _].
        pose proof (ok_entries _ Hok) as Hall. by eapply Forall_forall in Hall. }
      eapply merge_overwrite_cases in Hm as [->|[->| ->]]; [done|done| |done..].
      assert (enum_value (overwritten (flags new_map) existing e) = enum_value e)
        as Hk.
      { by apply find_entry_Some in Hf as [_ ?]. }
      assert (stem_find_entry new_map
                (enum_value (overwritten (flags new_map) existing e))
              = Some existing) as Hf' by by rewrite Hk.
      intros H.
      destruct (Hstep _ _ (overwritten (flags new_map) existing e)
                  (store_entry_ok _ _ existing Hok Hf'
                     (overwritten_ok _ _ _ _ _ Hx He))
                  eq_refl eq_refl
                  ltac:(intros k; rewrite (store_entry_find _ _ existing) by done;
                        by rewrite Hk) H) as (H1 & H2 & H3).
      split; [done|]. intros entry [->|Hentry]%elem_of_cons; [|by apply H3].
      by rewrite Hf.
    + intros H.
      destruct (Hstep new_map o existing Hok eq_refl eq_refl
                  ltac:(intros k; by destruct (decide (k = enum_value e)) as [->|])
                  H) as (H1 & H2 & H3).
      split; [done|]. intros entry [->|Hentry]%elem_of_cons; [|by apply H3].
      by rewrite Hf.
  - destruct (stdem_associate_ex _ _ _ _ _ _) as [[err map1] o1] eqn:Ha.
    destruct (decide (err = STEM_SUCCESS)) as [->|Hne];
      [rewrite decide_False by (by intros [])|by rewrite decide_True].
    pose proof (associate_ok _ _ _ _ _ _ _ _ _ Hok (key_is_int _ _ _ He)
                  (entry_ok_readable _ _ _ He) Ha) as Hok1.
    pose proof (λ k, associate_find _ _ _ _ _ _ _ _ k Hok (key_is_int _ _ _ He)
                  (entry_ok_readable _ _ _ He) Ha) as Hfind.
    apply associate_entries in Ha as (Hvs & Hfl & _); [|apply Hok..].
    intros H.
    destruct (Hstep map1 o1 _ Hok1 Hvs Hfl Hfind H) as (H1 & H2 & H3).
    split; [done|]. intros entry [->|Hentry]%elem_of_cons; [|by apply H3].
    by rewrite Hf.
Qed.

Lemma stored_name_kept fl1 fl vs entry :
  entry_ok vs fl1 entry → has_flag fl STEM_FLAGS_NO_NAMES = false →
  stored_name fl (name entry) = name entry.
Proof.
  intros He Hfl. unfold stored_name. destruct (name entry) as [s|] eqn:E; [|done].
  rewrite Hfl. destruct (entry_ok_name _ _ _ _ He E) as [-> _]. done.
Qed.

(** X18: a successful merge holds exactly the keys of its two inputs.  It
    has their value size and the union of their flags; a key is found in it
    if and only if it is found in one of the inputs; a key of the first map
    only is answered as by the first map and a key of the second map only
    as by the second, in value and (unless the merged flags contain
    [STEM_FLAGS_NO_NAMES]) in name. *)
Theorem merge_is_union (mem : Z → byte) (map1 map2 : EnumMap)
    (overwrite : bool) (o : list bool) (merged : EnumMap) (o' : list bool) :
  map_ok map1 → map_ok map2 →
  stdem_merge mem map1 map2 overwrite o = (Ok merged, o') →
  stdem_value_size merged = stdem_value_size map1 ∧
  stdem_value_size map2 = stdem_value_size map1 ∧
  flags merged = Z.lor (flags map1) (flags map2) ∧
  ∀ key,
    ((stdem_get_value_ex merged key).2 = STEM_SUCCESS
     ↔ (stdem_get_value_ex map1 key).2 = STEM_SUCCESS
       ∨ (stdem_get_value_ex map2 key).2 = STEM_SUCCESS) ∧
    ((stdem_get_value_ex map2 key).2 = STEM_ERROR_NOT_FOUND →
     stdem_get_value_ex merged key = stdem_get_value_ex map1 key ∧
     stdem_get_name_ex merged key
     = if has_flag (flags merged) STEM_FLAGS_NO_NAMES
       then (None, STEM_ERROR_NOT_FOUND) else stdem_get_name_ex map1 key) ∧
    ((stdem_get_value_ex map1 key).2 = STEM_ERROR_NOT_FOUND →
     stdem_get_value_ex merged key = stdem_get_value_ex map2 key ∧
     stdem_get_name_ex merged key
     = if has_flag (flags merged) STEM_FLAGS_NO_NAMES
       then (None, STEM_ERROR_NOT_FOUND) else stdem_get_name_ex map2 key).
Proof.
  intros Hok1 Hok2. unfold stdem_merge. alloc_unfold.
  destruct (decide (value_size map1 ≠ value_size map2)) as [|Hvs]; [done|].
  assert (value_size map1 = value_size map2) as Heq by lia.
  destruct (stdem_create_ex _ _ _ _) as [[new_map| |] o1] eqn:Hc; try done.
  pose proof (to_size_t_range (count map1 + count map2)) as Hr.
  pose proof (create_ok _ _ _ _ _ _ (proj1 Hr) (ok_value_size _ Hok1)
                (flags_lor_range _ _ (ok_flags _ Hok1) (ok_flags _ Hok2)) Hc) as Hok.
  apply create_cases in Hc as (_ & _ & Hmap); [|lia].
  assert (value_size new_map = value_size map1) as Hv by by subst.
  assert (flags new_map = Z.lor (flags map1) (flags map2)) as Hf by by subst.
  assert (all_entries new_map = []) as Hempty.
  { subst new_map. unfold all_entries. simpl. apply concat_replicate_nil. }
  destruct (associate_all _ _ _ _) as [[err map_a] o2] eqn:Ha.
  destruct (decide (err = STEM_SUCCESS)) as [->|Hne];
    [rewrite decide_False by (by intros [])|by rewrite decide_True].
  eapply associate_all_spec in Ha as (Hoka & Hvsa & Hfla & Hperma);
    [|done|rewrite Hv; apply (ok_entries _ Hok1)].
  specialize (Hperma eq_refl). rewrite Hempty, app_nil_r, Hv, Hf in Hperma.
  set (fl := Z.lor (flags map1) (flags map2)) in *.
  set (vs := value_size map1) in *.
  intros Hm.
  pose proof Hm as Hm'.
  eapply merge_second_ok in Hm' as (Hokm & Hvsm & Hflm);
    [|done|rewrite Hvsa, Hv; fold vs; rewrite Heq; apply (ok_entries _ Hok2)].
  eapply merge_second_domain in Hm as [Hout Hin];
    [|done|rewrite Hvsa, Hv; fold vs; rewrite Heq; apply (ok_entries _ Hok2)
     |apply Hok2].
  assert (∀ k, stem_find_entry map_a k
               = replayed mem vs fl <$> stem_find_entry map1 k) as Hfa.
  { intros k. by apply find_entry_fmap. }
  assert (∀ e, e ∈ all_entries map1 → value (replayed mem vs fl e) = value e)
    as Hval1.
  { intros e He. simpl. apply (stored_value_id mem vs (flags map1)).
    pose proof (ok_entries _ Hok1) as Hall. by eapply Forall_forall in Hall. }
  assert (∀ e, e ∈ all_entries map2 →
               entry_ok vs (flags map2) e) as Hes2.
  { intros e He. pose proof (ok_entries _ Hok2) as Hall.
    rewrite <- Heq in Hall. by eapply Forall_forall in Hall. }
  assert (∀ e, e ∈ all_entries map1 → entry_ok vs (flags map1) e) as Hes1.
  { intros e He. pose proof (ok_entries _ Hok1) as Hall.
    by eapply Forall_forall in Hall. }
  assert (has_flag (flags merged) STEM_FLAGS_NO_NAMES
          = has_flag fl STEM_FLAGS_NO_NAMES) as Hflags by (by rewrite Hflm, Hfla, Hf).
  unfold stdem_value_size.
  split; [by rewrite Hvsm, Hvsa, Hv|]. split; [done|].
  split; [by rewrite Hflm, Hfla, Hf|].
  intros key. unfold stdem_get_value_ex, stdem_get_name_ex. rewrite Hflags.
  assert (has_flag fl STEM_FLAGS_NO_NAMES = false →
          has_flag (flags map1) STEM_FLAGS_NO_NAMES = false ∧
          has_flag (flags map2) STEM_FLAGS_NO_NAMES = false) as Hnn.
  { unfold fl. rewrite has_flag_lor. by intros [? ?]%orb_false_iff. }
  destruct (stem_find_entry map2 key) as [e2|] eqn:E2.
  - apply find_entry_Some in E2 as [He2 <-].
    rewrite (Hin e2 He2), Hfa.
    destruct (stem_find_entry map1 (enum_value e2)) as [e1|] eqn:E1; simpl.
    + split; [split; auto|]. split; [done|done].
    + split; [split; auto|]. split; [done|]. intros _.
      rewrite Hvsa, Hv, Hfla, Hf. fold vs fl.
      rewrite (stored_value_id mem vs (flags map2)) by by apply Hes2.
      split; [done|].
      destruct (has_flag fl STEM_FLAGS_NO_NAMES) eqn:Hno; [done|].
      destruct (Hnn eq_refl) as [_ ->].
      by rewrite (stored_name_kept (flags map2) fl vs) by (done || by apply Hes2).
  - apply find_entry_None in E2 as E2'; [|apply Hok2].
    rewrite (Hout key E2'), Hfa.
    destruct (stem_find_entry map1 key) as [e1|] eqn:E1; simpl.
    + apply find_entry_Some in E1 as [He1 _].
      split; [split; auto|]. split; [|done]. intros _.
      rewrite (stored_value_id mem vs (flags map1)) by by apply Hes1.
      split; [done|].
      destruct (has_flag fl STEM_FLAGS_NO_NAMES) eqn:Hno; [done|].
      destruct (Hnn eq_refl) as [-> _].
      by rewrite (stored_name_kept (flags map1) fl vs) by (done || by apply Hes1).
    + split; [split; [done|by intros [?|?]]|].
      split; intros _; (split; [done|]);
        destruct (has_flag fl STEM_FLAGS_NO_NAMES) eqn:Hno; try done;
        destruct (Hnn eq_refl) as [Hn1 Hn2]; by rewrite ?Hn1, ?Hn2.
Qed.

Lemma merge_is_union_witness :
  ∃ merged,
    stdem_merge sample_memory sample_states sample_others false []
    = (Ok merged, []) ∧
    stdem_get_value_ex merged 6 = stdem_get_value_ex sample_others 6 ∧
    stdem_get_value_ex merged 1 = stdem_get_value_ex sample_states 1.
Proof.
  eexists. split; [vm_compute; reflexivity|].
  match goal with
  | |- stdem_get_value_ex ?m _ = _ ∧ _ =>
      assert (stdem_merge sample_memory sample_states sample_others false []
              = (Ok m, [])) as H by (vm_compute; reflexivity)
  end.
  destruct (merge_is_union _ _ _ _ _ _ _
              (reachable_ok _ reachable_sample_states)
              (reachable_ok _ reachable_sample_others) H) as (_ & _ & _ & Hk).
  split.
  - apply (Hk 6). vm_compute. reflexivity.
  - apply (Hk 1). vm_compute. reflexivity.
Defined.

(** X19: [stdem_merge] refuses maps of different value sizes with
    [STEM_ERROR_INVALID_ARG] before it allocates anything, and it never
    returns a map when one of its inputs is read-only: the flags of the new
    map are the union of the inputs', so the first association into it is
    refused. *)
Theorem merge_refusals (mem : Z → byte) (map1 map2 : EnumMap)
    (overwrite : bool) (o : list bool) :
  map_ok map1 → map_ok map2 →
  (value_size map1 ≠ value_size map2 →
   stdem_merge mem map1 map2 overwrite o = (Err STEM_ERROR_INVALID_ARG, o)) ∧
  (has_flag (flags map1) STEM_FLAGS_READONLY = true
   ∨ has_flag (flags map2) STEM_FLAGS_READONLY = true →
   ∀ merged o', stdem_merge mem map1 map2 overwrite o ≠ (Ok merged, o')).
Proof.
  intros Hok1 Hok2. split.
  { intros Hne. unfold stdem_merge. by rewrite decide_True. }
  intros Hro merged o'.
  assert (has_flag (Z.lor (flags map1) (flags map2)) STEM_FLAGS_READONLY = true)
    as Hlor.
  { rewrite has_flag_lor. destruct Hro as [-> | ->]; [done|by rewrite orb_true_r]. }
  unfold stdem_merge. alloc_unfold.
  destruct (decide (value_size map1 ≠ value_size map2)); [done|].
  destruct (stdem_create_ex _ _ _ _) as [[new_map| |] o1] eqn:Hc; try done.
  pose proof (to_size_t_range (count map1 + count map2)) as Hr.
  apply create_cases in Hc as (Hpos & _ & ->); [|lia].
  set (new_map := {| count := 0; value_size := value_size map1;
                     flags := Z.lor (flags map1) (flags map2);
                     buckets := replicate _ [] |}).
  assert (∀ key value name o2,
            stdem_associate_ex mem new_map key value name o2
            = (STEM_ERROR_INVALID_ARG, new_map, o2)) as Hrefused.
  { intros. unfold stdem_associate_ex.
    change (flags new_map) with (Z.lor (flags map1) (flags map2)).
    by rewrite Hlor. }
  destruct (all_entries map1) as [|e1 es1] eqn:E1.
  - cbn [associate_all]. alloc_unfold. rewrite decide_False by (by intros []).
    destruct (all_entries map2) as [|e2 es2] eqn:E2.
    + rewrite (ok_count _ Hok1), (ok_count _ Hok2), E1, E2 in Hpos.
      destruct Hpos as [Hpos _]. by vm_compute in Hpos.
    + cbn [merge_second].
      assert (stem_find_entry new_map (enum_value e2) = None) as ->.
      { apply find_entry_None; [apply placed_replicate|].
        unfold all_entries. simpl. rewrite concat_replicate_nil.
        by intros ?%elem_of_nil. }
      alloc_unfold. rewrite Hrefused. by rewrite decide_True.
  - cbn [associate_all]. alloc_unfold. rewrite Hrefused.
    by rewrite !decide_True.
Qed.

Lemma merge_refusals_witness :
  stdem_merge sample_memory sample_states sample_twelve true []
  = (Err STEM_ERROR_INVALID_ARG, []).
Proof.
  apply (merge_refusals sample_memory sample_states sample_twelve true []
           (reachable_ok _ reachable_sample_states)
           (reachable_ok _ reachable_sample_twelve)).
  by vm_compute.
Defined.
